(** * TreeLine write path: MemTable, chain reorganization, segment load and
      chain flattening.

    A shallow embedding of
      - src/db/memtable.cc
      - src/db/db_impl_reorg.cc
      - src/page_grouping/manager_load.cc
      - src/page_grouping/manager_rewrite.cc
    together with the properties of these functions that the specification
    states.  Unsigned 64-bit integers are integers of [Z] with the wrap-around
    written out; byte strings ([Slice], [std::string]) are [string]s, whose
    characters are exactly the 8-bit bytes. *)

From Stdlib Require Import ZArith List String Ascii Lia Bool Sorted Permutation.
From stdpp Require Import base gmap strings.
Import ListNotations.

Local Open Scope Z_scope.

(** ** Shared vocabulary *)

(** The [Status] codes the embedded functions return (status.h). *)
Inductive Status : Type :=
| OK
| NotFound
| InvalidArgument.

(** 2^64, the modulus of [uint64_t] and [size_t] arithmetic. *)
Definition two64 : Z := 2 ^ 64.

(** The quotient of two unsigned integers, rounded up. *)
Definition ceil_div (n r : Z) : Z := n / r + (if n mod r =? 0 then 0 else 1).

(** A [Slice] is a view on a byte string. *)
Definition Slice : Type := string.

(** Modelled from the spec: [Slice::compare] lives in slice.h, which is not
    part of the embedded sources.  The spec fixes it as the lexicographic
    comparison of the bytes; only the sign of the [int] it returns is ever
    inspected, so the model returns -1, 0 or 1. *)
Definition slice_compare (a b : Slice) : Z :=
  match String.compare a b with
  | Lt => -1
  | Eq => 0
  | Gt => 1
  end.

(** ** src/db/memtable.cc *)

Module MemTable.

(** [MemTable::Record]: lengths are implicit in the strings. *)
Record MemRecord : Type := mkRecord {
  rec_key : Slice;
  rec_value : Slice;
  sequence_number : Z
}.

(** [kEntryTypeMask] *)
Definition kEntryTypeMask : Z := 255.

(** [MemTable::EntryType] is an enumeration over [uint8_t]; a value of the
    type is its underlying byte. *)
Definition EntryType : Type := Z.

(** [MemTable::Comparator::operator()] *)
Definition Comparator (r1 r2 : MemRecord) : Z :=
  let comp := slice_compare (rec_key r1) (rec_key r2) in
  if negb (comp =? 0) then comp
  else if sequence_number r1 <? sequence_number r2 then 1
  else if sequence_number r1 >? sequence_number r2 then -1
  else 0.

(** Modelled from the spec: the skip list behind [table_] (skiplist.h) is not
    part of the embedded sources.  The spec asks for an order-preserving
    structure with ordered insertion and a seek to the first record that is
    not less than the target; the model is the list of records in iteration
    order.  A new record goes in front of the first record that does not
    compare less than it. *)
Fixpoint SkipList_Insert (r : MemRecord) (l : list MemRecord) : list MemRecord :=
  match l with
  | [] => [r]
  | x :: t => if Comparator x r <? 0 then x :: SkipList_Insert r t else r :: x :: t
  end.

(** Modelled from the spec: the skip list iterator's [Seek] positions the
    iterator at the first record that is not less than the target.  An iterator
    is the list of the records from its position on; an empty list is an
    invalid iterator. *)
Fixpoint SkipList_Seek (target : MemRecord) (l : list MemRecord) : list MemRecord :=
  match l with
  | [] => []
  | x :: t => if Comparator x target <? 0 then SkipList_Seek target t else x :: t
  end.

(** The state of a [MemTable]: the table in iteration order and the counter
    [next_sequence_num_] (a [uint64_t]). *)
Record t : Type := mkMemTable {
  table_ : list MemRecord;
  next_sequence_num_ : Z
}.

(** [MemTable::MemTable()] *)
Definition create : t := {| table_ := []; next_sequence_num_ := 0 |}.

(** [MemTable::InsertImpl]: the record is stamped with
    [(next_sequence_num_++ << 8) | static_cast<uint8_t>(entry_type)]. *)
Definition InsertImpl (m : t) (key value : Slice) (entry_type : EntryType)
  : Status * t :=
  let seq := Z.lor ((Z.shiftl (next_sequence_num_ m) 8) mod two64)
                   (entry_type mod 256) in
  let record := {| rec_key := key; rec_value := value; sequence_number := seq |} in
  (OK, {| table_ := SkipList_Insert record (table_ m);
          next_sequence_num_ := (next_sequence_num_ m + 1) mod two64 |}).

(** An iterator over the table ([MemTable::Iterator]). *)
Definition Iterator : Type := list MemRecord.

Definition GetIterator (m : t) : Iterator := table_ m.

Definition Valid (it : Iterator) : bool :=
  match it with [] => false | _ :: _ => true end.

(** [MemTable::Iterator::Seek]: the lookup record carries the target key, an
    empty value and the largest sequence number. *)
Definition Seek (target : Slice) (it : Iterator) : Iterator :=
  SkipList_Seek {| rec_key := target; rec_value := EmptyString;
                   sequence_number := two64 - 1 |} it.

(** [MemTable::Iterator::type] of the record under the iterator. *)
Definition type_of (r : MemRecord) : EntryType :=
  Z.land (sequence_number r) kEntryTypeMask.

(** The inner loop of [MemTable::Iterator::Next]: step over the records that
    carry [last_key]. *)
Fixpoint skip_same_key (last_key : Slice) (it : Iterator) : Iterator :=
  match it with
  | [] => []
  | x :: rest =>
      if negb (slice_compare last_key (rec_key x) =? 0) then x :: rest
      else skip_same_key last_key rest
  end.

(** [MemTable::Iterator::Next]; the iterator must be valid. *)
Definition Next (it : Iterator) : Iterator :=
  match it with
  | [] => []
  | x :: rest => skip_same_key (rec_key x) rest
  end.

(** [MemTable::Get]: the status and, on success, the entry type and the value
    written through the two out-parameters. *)
Definition Get (m : t) (key : Slice) : Status * option (EntryType * Slice) :=
  let it := Seek key (GetIterator m) in
  match it with
  | [] => (NotFound, None)
  | r :: _ =>
      if negb (slice_compare key (rec_key r) =? 0) then (NotFound, None)
      else (OK, Some (type_of r, rec_value r))
  end.

Section Operations.

(** The two enumerators of [EntryType] are declared in memtable.h, which is
    not part of the embedded sources; they are bytes. *)
Variables kWrite kDelete : EntryType.

(** [MemTable::Put] *)
Definition Put (m : t) (key value : Slice) : Status * t :=
  InsertImpl m key value kWrite.

(** [MemTable::Delete] *)
Definition Delete (m : t) (key : Slice) : Status * t :=
  InsertImpl m key EmptyString kDelete.

(** A write operation of a trace. *)
Inductive Op : Type :=
| OpPut (key value : Slice)
| OpDelete (key : Slice).

Definition op_key (o : Op) : Slice :=
  match o with OpPut k _ => k | OpDelete k => k end.

(** What a reader expects back for the operation: its type and value. *)
Definition op_entry (o : Op) : EntryType * Slice :=
  match o with
  | OpPut _ v => (kWrite, v)
  | OpDelete _ => (kDelete, EmptyString)
  end.

Definition apply_op (m : t) (o : Op) : t :=
  match o with
  | OpPut k v => snd (Put m k v)
  | OpDelete k => snd (Delete m k)
  end.

(** The table after a trace of operations on a fresh [MemTable]. *)
Definition run (ops : list Op) : t := fold_left apply_op ops create.

(** The entry of the last operation of a trace on [key], if there is one. *)
Fixpoint latest (key : Slice) (ops : list Op) : option (EntryType * Slice) :=
  match ops with
  | [] => None
  | o :: rest =>
      match latest key rest with
      | Some e => Some e
      | None => if String.eqb (op_key o) key then Some (op_entry o) else None
      end
  end.

(** The counter stays below 2^56 and every record of the table was stamped
    from a smaller counter. *)
Definition stamped (m : t) : Prop :=
  0 <= next_sequence_num_ m <= 2 ^ 56 /\
  Forall (fun x => sequence_number x < next_sequence_num_ m * 256) (table_ m).

(** Everything the iterator yields from a position on. *)
Fixpoint drain (fuel : nat) (it : Iterator) : list (Slice * EntryType * Slice) :=
  match fuel, it with
  | S k, x :: _ => (rec_key x, type_of x, rec_value x) :: drain k (Next it)
  | _, _ => []
  end.

End Operations.

End MemTable.

(** ** src/page_grouping/manager_rewrite.cc: merging *)

(** A [Key] is a [uint64_t]. *)
Abbreviation Key := Z (only parsing).

(** [std::numeric_limits<Key>::max()] *)
Definition Key_max : Key := two64 - 1.

(** [Record] of the page grouping code: [std::pair<Key, Slice>]. *)
Abbreviation Rec := (Z * Slice)%type (only parsing).

(** Modelled from the spec: [PageMergeIterator] (persist/merge_iterator.h) is
    not part of the embedded sources.  The spec describes it as a merge over a
    fixed set of page iterators that yields the records in ascending key order;
    the model is the list of the records it has yet to yield, each key already
    passed through [key_utils::ExtractHead64].  [pmi.Valid()] is non-emptiness,
    [pmi.Next()] drops the head. *)
Definition PageMergeIterator : Type := list Rec.

Module PagePlusRecordMerger.

(** The page iterator [pmi_] and the range [[it_, it_end_)] of the in-memory
    records still to be consumed. *)
Record t : Type := mk {
  pmi_ : PageMergeIterator;
  it_ : list Rec
}.

(** The constructor: the page iterator starts out invalid. *)
Definition create (recs : list Rec) : t := {| pmi_ := []; it_ := recs |}.

Definition HasPageRecords (pm : t) : bool :=
  match pmi_ pm with [] => false | _ :: _ => true end.

Definition HasRecords (pm : t) : bool :=
  HasPageRecords pm || match it_ pm with [] => false | _ :: _ => true end.

(** [GetNext]; [None] stands for the failed [assert(HasRecords())]. *)
Definition GetNext (pm : t) : option (Rec * t) :=
  match pmi_ pm, it_ pm with
  | [], [] => None
  | [], r :: it' => Some (r, {| pmi_ := []; it_ := it' |})
  | p :: pmi', [] => Some (p, {| pmi_ := pmi'; it_ := [] |})
  | p :: pmi', r :: it' =>
      let pmi_key := fst p in
      let it_key := fst r in
      if it_key <=? pmi_key then
        Some (r, {| pmi_ := if it_key =? pmi_key then pmi' else p :: pmi';
                    it_ := it' |})
      else
        Some (p, {| pmi_ := pmi'; it_ := r :: it' |})
  end.

Definition UpdatePageIterator (pm : t) (pmi : PageMergeIterator) : t :=
  {| pmi_ := pmi; it_ := it_ pm |}.

(** [while (pm.HasRecords()) out.push_back(pm.GetNext())] *)
Fixpoint drain (fuel : nat) (pm : t) : list Rec :=
  match fuel with
  | O => []
  | S k =>
      match GetNext pm with
      | None => []
      | Some (r, pm') => r :: drain k pm'
      end
  end.

(** Every call of [GetNext] consumes a record of one of the two sides. *)
Definition size (pm : t) : nat := (length (pmi_ pm) + length (it_ pm))%nat.

End PagePlusRecordMerger.

(** The three merge loops of [Manager::FlattenChain]: as long as both sides
    hold records the smaller key goes first, and for equal keys the in-memory
    record is taken and both sides advance; whatever one side has left is
    appended. *)
Fixpoint merge_records (pmi : PageMergeIterator) : list Rec -> list Rec :=
  fix inner (rec_it : list Rec) : list Rec :=
    match pmi, rec_it with
    | p :: pmi', r :: rec_it' =>
        let pmi_key := fst p in
        if pmi_key =? fst r then r :: merge_records pmi' rec_it'
        else if pmi_key <? fst r then p :: merge_records pmi' rec_it
        else r :: inner rec_it'
    | _, _ => pmi ++ rec_it
    end.

(** Keys in strictly ascending, respectively ascending order. *)
Definition ascending (l : list Rec) : Prop :=
  StronglySorted (fun a b => fst a < fst b) l.

Definition nondecreasing (l : list Rec) : Prop :=
  StronglySorted (fun a b => fst a <= fst b) l.

(** Whether some record of [l] carries the key [k]. *)
Definition has_key (l : list Rec) (k : Key) : bool :=
  existsb (fun x => fst x =? k) l.

(** The specification of the merge: every in-memory record, and the disk
    records whose key no in-memory record carries. *)
Definition newest_wins (disk batch : list Rec) : list Rec :=
  batch ++ List.filter (fun d => negb (has_key batch (fst d))) disk.

(** ** src/page_grouping/manager_load.cc and [Manager::FlattenChain] *)

Module Manager.

(** [SegmentId]: the index of the segment file and the page offset in it. *)
Record SegmentId : Type := mkSegmentId {
  file_offset : Z;
  page_offset : Z
}.

Definition SegmentId_eqb (a b : SegmentId) : bool :=
  (file_offset a =? file_offset b) && (page_offset a =? page_offset b).

(** [plr::Line64] holds two doubles, kept as their bit patterns; no arithmetic
    on them is modelled. *)
Record Line64 : Type := mkLine64 {
  slope_bits : Z;
  intercept_bits : Z
}.

(** [SegmentInfo], the value type of the index. *)
Record SegmentInfo : Type := mkSegmentInfo {
  id : SegmentId;
  model : option Line64;
  has_overflow : bool
}.

(** Modelled from the spec: [SegmentInfo::page_count] (segment_info.h) is not
    part of the embedded sources.  The spec has the segment file of size class
    [i] hold the segments of [2^i] pages, and an id names its file. *)
Definition page_count (info : SegmentInfo) : Z := 2 ^ file_offset (id info).

(** What a page-sized buffer holds once the code is done with it.  The page
    codec is outside the embedded sources; the image keeps what the code under
    study puts in: the two boundaries handed to the constructor, the records
    handed to [Put] in order (the callers assert that every [Put] succeeds),
    the sequence number and the overflow link. *)
Record Page : Type := mkPage {
  lower_boundary : Key;
  upper_boundary : Key;
  page_records : list Rec;
  page_sequence_number : Z;
  page_overflow : option SegmentId
}.

(** A buffer after [memset(buf, 0, Page::kSize)]. *)
Definition zero_page : Page :=
  {| lower_boundary := 0; upper_boundary := 0; page_records := [];
     page_sequence_number := 0; page_overflow := None |}.

(** [LoadIntoPage]: the page is built over [lower, upper - 1] and receives the
    records of the range. *)
Definition LoadIntoPage (buf : Page) (lower upper : Key) (recs : list Rec)
  : Status * Page :=
  (OK, {| lower_boundary := lower;
          upper_boundary := (upper - 1) mod two64;
          page_records := recs;
          page_sequence_number := page_sequence_number buf;
          page_overflow := page_overflow buf |}).

(** [SegmentWrap::SetSequenceNumber] and [ClearAllOverflows] on one page. *)
Definition SetSequenceNumber (p : Page) (n : Z) : Page :=
  {| lower_boundary := lower_boundary p; upper_boundary := upper_boundary p;
     page_records := page_records p; page_sequence_number := n;
     page_overflow := page_overflow p |}.

Definition ClearAllOverflows (p : Page) : Page :=
  {| lower_boundary := lower_boundary p; upper_boundary := upper_boundary p;
     page_records := page_records p;
     page_sequence_number := page_sequence_number p;
     page_overflow := None |}.

(** The state of a [Manager] that the two functions touch.  The segment file
    is the history of the page writes, the latest last. *)
Record t : Type := mkManager {
  index_ : list (Key * SegmentInfo);
  free_ : list SegmentId;
  next_sequence_number_ : Z;
  written_ : list (SegmentId * Page);
  allocated_pages_ : Z;
  write_count_ : Z;
  records_per_page_goal : Z
}.

(** Modelled from the spec: the free list (free_list.h) is not part of the
    embedded sources.  [Get] hands out an id of the asked page count if one is
    free, [Add] takes an id back. *)
Fixpoint FreeList_Get (free : list SegmentId) (pages : Z)
  : option SegmentId * list SegmentId :=
  match free with
  | [] => (None, [])
  | x :: rest =>
      if 2 ^ file_offset x =? pages then (Some x, rest)
      else let '(r, rest') := FreeList_Get rest pages in (r, x :: rest')
  end.

Definition FreeList_Add (free : list SegmentId) (x : SegmentId)
  : list SegmentId := free ++ [x].

(** Modelled from the spec: [ReadPage] (manager.cc) is not part of the sources
    at hand; it reads the page as it was last written, and a page never
    written reads as zeros. *)
Definition ReadPage (written : list (SegmentId * Page)) (x : SegmentId) : Page :=
  match find (fun w => SegmentId_eqb (fst w) x) (rev written) with
  | Some (_, p) => p
  | None => zero_page
  end.

(** One turn of the page writing that both the loop and the tail of
    [LoadIntoNewPages] perform: take an id from the free list or allocate a
    page at the end of the first segment file, write the page there, count the
    write.  The file counts in pages, so [byte_offset / Page::kSize] is the
    page number. *)
Definition write_new_page (m : t) (page : Page) : SegmentId * t :=
  let '(maybe_seg_id, free') := FreeList_Get (free_ m) 1 in
  let '(seg_id, allocated') :=
    match maybe_seg_id with
    | Some x => (x, allocated_pages_ m)
    | None => (mkSegmentId 0 (allocated_pages_ m), allocated_pages_ m + 1)
    end in
  (seg_id,
   {| index_ := index_ m; free_ := free';
      next_sequence_number_ := next_sequence_number_ m;
      written_ := written_ m ++ [(mkSegmentId 0 (page_offset seg_id), page)];
      allocated_pages_ := allocated';
      write_count_ := write_count_ m + 1;
      records_per_page_goal := records_per_page_goal m |}).

(** [rec_begin + i] and the key under it. *)
Definition at_index (recs : list Rec) (i : Z) : list Rec :=
  skipn (Z.to_nat i) recs.

Definition first_key (recs : list Rec) : Key :=
  match recs with [] => 0 | r :: _ => fst r end.

(** The records of the range [[rec_begin + i, rec_begin + j)]. *)
Definition range (recs : list Rec) (i j : Z) : list Rec :=
  firstn (Z.to_nat (j - i)) (at_index recs i).

(** The [while] loop of [LoadIntoNewPages]; [None] when the fuel runs out. *)
Fixpoint LoadIntoNewPages_loop (fuel : nat) (m : t) (sequence_number : Z)
         (lower_bound upper_bound : Key) (recs : list Rec)
         (page_start_idx page_end_idx : Z)
         (segment_boundaries : list (Key * SegmentInfo))
  : option (t * Z * list (Key * SegmentInfo)) :=
  let num_records := Z.of_nat (length recs) in
  if page_end_idx <=? num_records then
    match fuel with
    | O => None
    | S fuel' =>
        let page_begin := at_index recs page_start_idx in
        let page_end := at_index recs page_end_idx in
        let lower :=
          if page_start_idx =? 0 then lower_bound else first_key page_begin in
        let upper :=
          if page_end_idx =? num_records then upper_bound
          else first_key page_end in
        let '(_, page) :=
          LoadIntoPage zero_page lower upper
                       (range recs page_start_idx page_end_idx) in
        let page := ClearAllOverflows (SetSequenceNumber page sequence_number) in
        let '(seg_id, m') := write_new_page m page in
        LoadIntoNewPages_loop fuel' m' sequence_number lower_bound upper_bound
          recs page_end_idx
          ((page_end_idx + records_per_page_goal m) mod two64)
          (segment_boundaries ++ [(lower, mkSegmentInfo seg_id None false)])
    end
  else Some (m, page_start_idx, segment_boundaries).

(** [Manager::LoadIntoNewPages] *)
Definition LoadIntoNewPages (fuel : nat) (m : t) (sequence_number : Z)
           (lower_bound upper_bound : Key) (recs : list Rec)
  : option (list (Key * SegmentInfo) * t) :=
  let num_records := Z.of_nat (length recs) in
  match LoadIntoNewPages_loop fuel m sequence_number lower_bound upper_bound
          recs 0 (records_per_page_goal m) [] with
  | None => None
  | Some (m1, page_start_idx, segment_boundaries) =>
      if page_start_idx <? num_records then
        let page_begin := at_index recs page_start_idx in
        let lower :=
          if page_start_idx =? 0 then lower_bound else first_key page_begin in
        let '(_, page) :=
          LoadIntoPage zero_page lower upper_bound
                       (range recs page_start_idx num_records) in
        let page := ClearAllOverflows (SetSequenceNumber page 0) in
        let '(seg_id, m2) := write_new_page m1 page in
        Some (segment_boundaries ++ [(lower, mkSegmentInfo seg_id None false)],
              m2)
      else Some (segment_boundaries, m1)
  end.

(** Modelled from the spec: the index is an ordered map from base keys to
    [SegmentInfo] with [lower_bound], [erase] and [insert]; the model is the
    list of its entries in key order.  An iterator is the list of the entries
    from its position on, and [insert] leaves an entry that is present alone. *)
Fixpoint index_lower_bound (idx : list (Key * SegmentInfo)) (k : Key)
  : list (Key * SegmentInfo) :=
  match idx with
  | [] => []
  | e :: rest => if fst e <? k then index_lower_bound rest k else e :: rest
  end.

Definition index_erase (idx : list (Key * SegmentInfo)) (k : Key)
  : list (Key * SegmentInfo) :=
  List.filter (fun e => negb (fst e =? k)) idx.

Fixpoint index_insert (e : Key * SegmentInfo) (idx : list (Key * SegmentInfo))
  : list (Key * SegmentInfo) :=
  match idx with
  | [] => [e]
  | x :: rest =>
      if fst e <? fst x then e :: x :: rest
      else if fst e =? fst x then x :: rest
      else x :: index_insert e rest
  end.

(** Modelled from the spec: a page iterator yields the records of its page,
    and [PageMergeIterator] merges its inputs into ascending key order.  For
    the two pages of a chain: the smaller key first, the main page first on a
    tie. *)
Fixpoint merge_pages (main : list Rec) : list Rec -> list Rec :=
  fix inner (overflow : list Rec) : list Rec :=
    match main, overflow with
    | a :: main', b :: overflow' =>
        if fst a <=? fst b then a :: merge_pages main' overflow
        else b :: inner overflow'
    | _, _ => main ++ overflow
    end.

(** [PageChain]: the main page and, if there is one, its overflow page. *)
Record PageChain : Type := mkPageChain {
  main_page_ : Page;
  overflow_page_ : option Page
}.

Definition SingleOnly (main : Page) : PageChain :=
  {| main_page_ := main; overflow_page_ := None |}.

Definition WithOverflow (main overflow : Page) : PageChain :=
  {| main_page_ := main; overflow_page_ := Some overflow |}.

(** [PageChain::GetIterator] *)
Definition GetIterator (pc : PageChain) : PageMergeIterator :=
  match overflow_page_ pc with
  | Some overflow =>
      merge_pages (page_records (main_page_ pc)) (page_records overflow)
  | None => page_records (main_page_ pc)
  end.

(** The chain that [FlattenChain] reads for the segment [main_page_id]. *)
Definition read_chain (m : t) (main_page_id : SegmentId) : PageChain :=
  let main := ReadPage (written_ m) main_page_id in
  match page_overflow main with
  | Some overflow_page_id =>
      WithOverflow main (ReadPage (written_ m) overflow_page_id)
  | None => SingleOnly main
  end.

(** Writing zeros over an old page and handing its id to the free list. *)
Definition invalidate (m : t) (x : SegmentId) : t :=
  {| index_ := index_ m; free_ := FreeList_Add (free_ m) x;
     next_sequence_number_ := next_sequence_number_ m;
     written_ := written_ m ++ [(x, zero_page)];
     allocated_pages_ := allocated_pages_ m;
     write_count_ := write_count_ m;
     records_per_page_goal := records_per_page_goal m |}.

Definition set_index (m : t) (idx : list (Key * SegmentInfo)) : t :=
  {| index_ := idx; free_ := free_ m;
     next_sequence_number_ := next_sequence_number_ m;
     written_ := written_ m;
     allocated_pages_ := allocated_pages_ m;
     write_count_ := write_count_ m;
     records_per_page_goal := records_per_page_goal m |}.

Definition bump_sequence_number (m : t) : t :=
  {| index_ := index_ m; free_ := free_ m;
     next_sequence_number_ := (next_sequence_number_ m + 1) mod 2 ^ 32;
     written_ := written_ m;
     allocated_pages_ := allocated_pages_ m;
     write_count_ := write_count_ m;
     records_per_page_goal := records_per_page_goal m |}.

(** [Manager::FlattenChain].  [None] stands for a failed assertion on the
    index entry or for a page loop that ran out of fuel.  With or without the
    background threads the old pages are zeroed and freed in the same order
    before the function returns. *)
Definition FlattenChain (fuel : nat) (m : t) (base : Key) (addtl : list Rec)
  : option t :=
  match index_lower_bound (index_ m) base with
  | [] => None
  | (key, info) :: next =>
      if negb (base =? key) then None
      else if negb (page_count info =? 1) then None
      else
        let main_page_id := id info in
        let upper :=
          match next with
          | [] => Key_max
          | (k, _) :: _ => k
          end in
        let pc := read_chain m main_page_id in
        let overflow_page_id := page_overflow (main_page_ pc) in
        let pmi := GetIterator pc in
        let records := merge_records pmi addtl in
        let sequence_number := next_sequence_number_ m in
        match LoadIntoNewPages fuel (bump_sequence_number m) sequence_number
                base upper records with
        | None => None
        | Some (new_pages, m1) =>
            let m2 := invalidate m1 main_page_id in
            let m3 :=
              match overflow_page_id with
              | Some x => invalidate m2 x
              | None => m2
              end in
            Some (set_index m3
                    (fold_left (fun idx e => index_insert e idx) new_pages
                               (index_erase (index_ m3) base)))
        end
  end.

(** A full page of the loop: [goal] records and the sequence number of the
    call. *)
Definition full_page (goal sequence_number : Z) (p : Page) : Prop :=
  Z.of_nat (length (page_records p)) = goal /\
  page_sequence_number p = sequence_number /\
  page_overflow p = None.

(** The trailing page: the records that were left, fewer than [goal] of them,
    under the sequence number 0. *)
Definition partial_page (goal : Z) (p : Page) : Prop :=
  0 < Z.of_nat (length (page_records p)) < goal /\
  page_sequence_number p = 0 /\
  page_overflow p = None.

(** The pages written from the state [m] on, oldest first. *)
Definition written_since (m m' : t) : list Page :=
  map snd (skipn (length (written_ m)) (written_ m')).

(** The state of scenario 6 of the specification: a single-page segment at
    base 1000 whose main page links to an overflow page. *)
Definition flatten_example : t :=
  {| index_ := [(1000, mkSegmentInfo (mkSegmentId 0 0) None true)];
     free_ := [];
     next_sequence_number_ := 5;
     written_ :=
       [(mkSegmentId 0 0,
         mkPage 1000 Key_max [(1000, "v0")] 0 (Some (mkSegmentId 0 1)));
        (mkSegmentId 0 1, mkPage 1000 Key_max [(1010, "v1")] 0 None)];
     allocated_pages_ := 2;
     write_count_ := 2;
     records_per_page_goal := 2 |}.

End Manager.

(** ** src/db/db_impl_reorg.cc *)

(** How a modelled call ends: it returns, it stops on a failed assertion, an
    out-of-range access or a division by zero, or the fuel of a loop that need
    not terminate runs out. *)
Inductive outcome (A : Type) : Type :=
| Done (a : A)
| Fault
| OutOfFuel.

Arguments Done {A} a.
Arguments Fault {A}.
Arguments OutOfFuel {A}.

#[global] Instance outcome_bind : MBind outcome :=
  fun A B (f : A -> outcome B) (x : outcome A) =>
    match x with
    | Done a => f a
    | Fault => Fault
    | OutOfFuel => OutOfFuel
    end.

Definition assert (b : bool) : outcome unit := if b then Done tt else Fault.

Definition from_option {A : Type} (o : option A) : outcome A :=
  match o with
  | Some a => Done a
  | None => Fault
  end.

Module Reorg.

(** A page of the page-chain variant: its two boundaries and its records. *)
Record Page : Type := mkPage {
  lower_boundary : Slice;
  upper_boundary : Slice;
  records : list (Slice * Slice)
}.

(** A frame after [memset(frame->GetData(), 0, Page::kSize)]. *)
Definition zero_page : Page :=
  {| lower_boundary := EmptyString; upper_boundary := EmptyString;
     records := [] |}.

(** Modelled from the spec: [Page::GetKeyPrefix] belongs to the page codec;
    the spec has the interval of the two boundaries define the prefix that the
    keys of the page share. *)
Fixpoint common_prefix (a b : string) : string :=
  match a, b with
  | String x a', String y b' =>
      if Ascii.eqb x y then String x (common_prefix a' b') else EmptyString
  | _, _ => EmptyString
  end.

Definition GetKeyPrefix (p : Page) : Slice :=
  common_prefix (lower_boundary p) (upper_boundary p).

(** Modelled from the spec: [Page::Put] belongs to the page codec.  The code
    under study drops the status it returns, and the model takes the record
    in. *)
Definition Put (p : Page) (r : Slice * Slice) : Page :=
  {| lower_boundary := lower_boundary p; upper_boundary := upper_boundary p;
     records := records p ++ [r] |}.

(** Modelled from the spec: the [PageMergeIterator] over a chain
    (db/merge_iterators.h) yields the records of the pages of the chain in
    ascending key order. *)
Fixpoint merge_by_key (a : list (Slice * Slice))
  : list (Slice * Slice) -> list (Slice * Slice) :=
  fix inner (b : list (Slice * Slice)) : list (Slice * Slice) :=
    match a, b with
    | x :: a', y :: b' =>
        if slice_compare (fst x) (fst y) <=? 0 then x :: merge_by_key a' b
        else y :: inner b'
    | _, _ => a ++ b
    end.

Definition chain_records (chain_pages : list Page) : list (Slice * Slice) :=
  fold_right (fun p acc => merge_by_key (records p) acc) [] chain_pages.

(** The calls that leave [ReorganizeOverflowChain] for the buffer manager, the
    file manager and the model, in the order they are made. *)
Inductive Call : Type :=
| UnfixPage (page_id : Z) (is_dirty : bool)
| AllocatePage (page_id : Z)
| FixPage (page_id : Z) (exclusive is_newly_allocated : bool)
| ModelInsert (key : Slice) (page_id : Z).

(** The state [ReorganizeOverflowChain] works on: the data of the frames by
    page id, the model, the next page of the file manager, and the calls made
    so far. *)
Record DBImpl : Type := mkDBImpl {
  frames_ : gmap Z Page;
  model_ : gmap string Z;
  next_page_id_ : Z;
  calls_ : list Call
}.

(** The options the function reads. *)
Record Options : Type := mkOptions {
  max_reorg_fanout : Z;
  record_size_hint : Z;
  key_size_hint : Z
}.

(** [KeyDistHints], restricted to the fields the function sets. *)
Record KeyDistHints : Type := mkKeyDistHints {
  num_keys : Z;
  page_fill_pct : Z;
  record_size : Z;
  key_size : Z
}.

Definition call (db : DBImpl) (c : Call) : DBImpl :=
  {| frames_ := frames_ db; model_ := model_ db;
     next_page_id_ := next_page_id_ db; calls_ := calls_ db ++ [c] |}.

(** [memcpy] or [memset] into the data of a frame. *)
Definition set_frame (db : DBImpl) (page_id : Z) (p : Page) : DBImpl :=
  {| frames_ := <[page_id := p]> (frames_ db); model_ := model_ db;
     next_page_id_ := next_page_id_ db; calls_ := calls_ db |}.

(** [model_->Insert(key, page_id)]; an entry under the same key is replaced. *)
Definition model_insert (db : DBImpl) (key : Slice) (page_id : Z) : DBImpl :=
  call {| frames_ := frames_ db; model_ := <[key := page_id]> (model_ db);
          next_page_id_ := next_page_id_ db; calls_ := calls_ db |}
       (ModelInsert key page_id).

(** [buf_mgr_->GetFileManager()->AllocatePage()] followed by the exclusive
    [FixPage] of the new page. *)
Definition allocate_and_fix (db : DBImpl) : Z * DBImpl :=
  let new_page_id := next_page_id_ db in
  let db1 :=
    call {| frames_ := frames_ db; model_ := model_ db;
            next_page_id_ := new_page_id + 1; calls_ := calls_ db |}
         (AllocatePage new_page_id) in
  (new_page_id,
   call (set_frame db1 new_page_id zero_page) (FixPage new_page_id true true)).

(** The number of pages the reorganization produced: the model entries it
    inserted. *)
Definition inserted (calls : list Call) : nat :=
  length (List.filter (fun c => match c with ModelInsert _ _ => true
                                | _ => false end) calls).

Section Geometry.

(** [Page::UsableSize()] and [Page::PerRecordMetadataSize()] belong to the
    page codec, and [KeyDistHints::records_per_page()] to options.cc; none is
    part of the embedded sources.  They are parameters: the two sizes, and the
    records per page as a function of the record size, the key size and the
    fill percentage of the hints. *)
Variables UsableSize PerRecordMetadataSize : Z.
Variable records_per_page_of : Z -> Z -> Z -> Z.

(** The estimate of the records of one full page of the chain, as
    [ReorganizeOverflowChain] computes it for the prefix of the head page. *)
Definition estimated_per_page (options : Options) (head : Page) : Z :=
  ((UsableSize - (2 * record_size_hint options) mod two64) mod two64)
  / (((record_size_hint options
       - Z.of_nat (String.length (GetKeyPrefix head))) mod two64
      + PerRecordMetadataSize) mod two64).

(** [KeyDistHints::records_per_page()], a [size_t]. *)
Definition records_per_page (dist : KeyDistHints) : Z :=
  records_per_page_of (record_size dist) (key_size dist) (page_fill_pct dist)
  mod two64.

(** Modelled from the spec: [KeyDistHints::num_pages()] is the number of keys
    over the records per page, rounded up.  A division by zero is a fault. *)
Definition num_pages (dist : KeyDistHints) : outcome Z :=
  let r := records_per_page dist in
  if r =? 0 then Fault
  else Done (ceil_div (num_keys dist) r).

Definition set_page_fill_pct (dist : KeyDistHints) (pct : Z) : KeyDistHints :=
  {| num_keys := num_keys dist; page_fill_pct := pct;
     record_size := record_size dist; key_size := key_size dist |}.

Definition set_num_keys (dist : KeyDistHints) (n : Z) : KeyDistHints :=
  {| num_keys := n; page_fill_pct := page_fill_pct dist;
     record_size := record_size dist; key_size := key_size dist |}.

(** The hints before the adjustment: the effective record size and the
    estimate of the number of keys. *)
Definition initial_hints (options : Options) (chain_size prefix_size : Z)
           (fill_pct : Z) : outcome KeyDistHints :=
  let full_record_size := record_size_hint options in
  let effective_record_size := (full_record_size - prefix_size) mod two64 in
  let per_record :=
    (effective_record_size + PerRecordMetadataSize) mod two64 in
  _ ← assert (negb (per_record =? 0));
  Done {| record_size := effective_record_size;
          key_size := key_size_hint options;
          page_fill_pct := fill_pct;
          num_keys :=
            (chain_size *
             (((UsableSize - (2 * full_record_size) mod two64) mod two64)
              / per_record)) mod two64 |}.

(** [while (dist.num_pages() > options_.max_reorg_fanout) ++dist.page_fill_pct;] *)
Fixpoint adjust_fill (fuel : nat) (max_fanout : Z) (dist : KeyDistHints)
  : outcome KeyDistHints :=
  n ← num_pages dist;
  if n >? max_fanout then
    match fuel with
    | O => OutOfFuel
    | S fuel' =>
        adjust_fill fuel' max_fanout
          (set_page_fill_pct dist ((page_fill_pct dist + 1) mod 2 ^ 32))
    end
  else Done dist.

(** The first pass: count the records and note the key of every record whose
    index is a positive multiple of [records_per_page]. *)
Fixpoint first_pass (rpp : Z) (pmi : list (Slice * Slice)) (record_count : Z)
         (boundary_keys : list Slice) : Z * list Slice :=
  match pmi with
  | [] => (record_count, boundary_keys)
  | r :: rest =>
      first_pass rpp rest (record_count + 1)
        (if (record_count mod rpp =? 0) && (record_count >? 0)
         then boundary_keys ++ [fst r] else boundary_keys)
  end.

(** The pages of step 2: page [i] spans the boundary keys [i] and [i + 1]. *)
Fixpoint make_pages (count : nat) (i : nat) (boundary_keys : list Slice)
  : outcome (list Page) :=
  match count with
  | O => Done []
  | S count' =>
      lo ← from_option (nth_error boundary_keys i);
      hi ← from_option (nth_error boundary_keys (S i));
      rest ← make_pages count' (S i) boundary_keys;
      Done (mkPage lo hi [] :: rest)
  end.

(** The second pass: record [temp_record_count] goes to the page
    [temp_record_count / records_per_page]. *)
Fixpoint populate (rpp : Z) (pmi2 : list (Slice * Slice))
         (temp_record_count : Z) (pages : list Page) : outcome (list Page) :=
  match pmi2 with
  | [] => Done pages
  | r :: rest =>
      let i := Z.to_nat (temp_record_count / rpp) in
      page ← from_option (nth_error pages i);
      populate rpp rest (temp_record_count + 1) (<[i := Put page r]> pages)
  end.

(** One turn of the backward loop of step 4, for the page index [i]. *)
Definition commit_page (chain : list Z) (pages : list Page) (db : DBImpl)
           (i : nat) : outcome DBImpl :=
  page ← from_option (nth_error pages i);
  let old_num_pages := length chain in
  '(frame_id, db1) ←
    (if (i <? old_num_pages)%nat
     then (frame_id ← from_option (nth_error chain i); Done (frame_id, db))
     else Done (allocate_and_fix db));
  let db2 := set_frame db1 frame_id page in
  let db3 := model_insert db2 (lower_boundary page) frame_id in
  Done (call db3 (UnfixPage frame_id true)).

Fixpoint commit_pages (chain : list Z) (pages : list Page) (db : DBImpl)
         (indices : list nat) : outcome DBImpl :=
  match indices with
  | [] => Done db
  | i :: rest =>
      db' ← commit_page chain pages db i;
      commit_pages chain pages db' rest
  end.

(** The loop over the old pages that are left over. *)
Fixpoint clear_surplus (db : DBImpl) (surplus : list Z) : DBImpl :=
  match surplus with
  | [] => db
  | page_id :: rest =>
      clear_surplus (call (set_frame db page_id zero_page)
                          (UnfixPage page_id true)) rest
  end.

(** Unfixing every frame of a chain as not dirty. *)
Definition unfix_clean (db : DBImpl) (chain : list Z) : DBImpl :=
  fold_left (fun d page_id => call d (UnfixPage page_id false)) chain db.

(** [DBImpl::ReorganizeOverflowChain].  [chain] is the chain that the retry
    loop around [FixOverflowChain] obtained: the page ids of its frames, all
    fixed exclusively. *)
Definition ReorganizeOverflowChain (fuel : nat) (options : Options)
           (db : DBImpl) (chain : list Z) (fill_pct : Z)
  : outcome (Status * DBImpl) :=
  let chain_size := Z.of_nat (length chain) in
  if chain_size =? 1 then
    head_id ← from_option (nth_error chain 0);
    Done (OK, call db (UnfixPage head_id false))
  else if chain_size >? max_reorg_fanout options then
    Done (InvalidArgument, unfix_clean db chain)
  else
    head_id ← from_option (nth_error chain 0);
    head ← from_option (frames_ db !! head_id);
    dist0 ← initial_hints options chain_size
               (Z.of_nat (String.length (GetKeyPrefix head))) fill_pct;
    dist ← adjust_fill fuel (max_reorg_fanout options) dist0;
    let rpp := records_per_page dist in
    (* 1. first pass *)
    chain_pages ←
      from_option (mapM (fun page_id => frames_ db !! page_id) chain);
    let pmi := chain_records chain_pages in
    let '(record_count, keys) :=
      first_pass rpp pmi 0 [lower_boundary head] in
    _ ← assert (record_count <=? num_keys dist);
    let dist := set_num_keys dist record_count in
    let boundary_keys := keys ++ [upper_boundary head] in
    (* 2. the in-memory pages *)
    let old_num_pages := length chain in
    new_num_pages ← num_pages dist;
    _ ← assert (Z.of_nat (length boundary_keys) =? new_num_pages + 1);
    pages ← make_pages (Z.to_nat new_num_pages) 0 boundary_keys;
    (* 3. second pass *)
    pages ← populate rpp pmi 0 pages;
    (* 4. backward commit, then the surplus of old pages *)
    db1 ← commit_pages chain pages db (rev (seq 0 (Z.to_nat new_num_pages)));
    Done (OK, clear_surplus db1 (skipn (Z.to_nat new_num_pages) chain)).

End Geometry.

(** A chain of two pages holding three records, on a page geometry in which a
    page takes [f / 10] records at a fill percentage of [f]. *)
Definition reorg_example : DBImpl :=
  {| frames_ := <[1 := mkPage "a" "b" [("aA", "v"); ("aC", "v")] ]>
                (<[2 := mkPage "a" "b" [("aB", "v")] ]> ∅);
     model_ := {[ "a" := 1 ]};
     next_page_id_ := 3;
     calls_ := [] |}.

End Reorg.

(** ** src/page_grouping/manager_load.cc: [ComputePageLowerBoundaries] *)

Module PageBoundaries.

(** The fields of a [Segment] that the function reads. *)
Record Segment : Type := mkSegment {
  base_key : Key;
  page_count : Z;
  model : option Manager.Line64
}.

(** A [size_t] difference read as the signed [difference_type] of the
    iterator. *)
Definition to_signed64 (x : Z) : Z :=
  if x mod two64 <? 2 ^ 63 then x mod two64 else x mod two64 - two64.

(** [std::lower_bound] over [KeyDomainIterator]s, as the standard library
    implements it: halve the distance until it is used up.  [comp k] is the
    comparison of the key [k] with the value searched for. *)
Fixpoint lower_bound_loop (fuel : nat) (comp : Key -> bool) (first len : Z)
  : outcome Key :=
  if len >? 0 then
    match fuel with
    | O => OutOfFuel
    | S fuel' =>
        let half := Z.shiftr len 1 in
        let middle := (first + half) mod two64 in
        if comp middle
        then lower_bound_loop fuel' comp ((middle + 1) mod two64)
                              (len - half - 1)
        else lower_bound_loop fuel' comp first half
    end
  else Done first.

(** A distance of 64-bit keys is used up after 64 halvings. *)
Definition lower_bound (comp : Key -> bool) (lower upper : Key) : outcome Key :=
  lower_bound_loop 64 comp lower (to_signed64 (upper - lower)).

Section Model.

(** [PageForKey] (key.h) and [plr::Line64::Invert] compute in floating point
    and are not part of the embedded sources.  They are parameters:
    [PageForKey base line page_count key], and [page_to_key line i] for
    [static_cast<Key>(line.Invert()(i))]. *)
Variable PageForKey : Key -> Manager.Line64 -> Z -> Key -> Z.
Variable page_to_key : Manager.Line64 -> Z -> Key.

(** The search bounds that the loop body derives from the candidate, step 1
    and 2 of the loop body. *)
Definition search_bounds (seg : Segment) (line : Manager.Line64) (page_idx : Z)
  : Key * Key :=
  let candidate_boundary :=
    (page_to_key line page_idx + base_key seg) mod two64 in
  let page_for_candidate :=
    PageForKey (base_key seg) line (page_count seg) candidate_boundary in
  if page_for_candidate >=? page_idx then
    ((page_to_key line (page_idx - 1) + base_key seg) mod two64,
     candidate_boundary)
  else
    (candidate_boundary,
     (page_to_key line (page_idx + 1) + base_key seg) mod two64).

(** The body of the loop for one page index, with its three assertions. *)
Definition boundary_for (seg : Segment) (line : Manager.Line64) (page_idx : Z)
  : outcome Key :=
  let '(lower, upper) := search_bounds seg line page_idx in
  _ ← assert (lower <? upper);
  bound ← lower_bound
    (fun key_candidate =>
       PageForKey (base_key seg) line (page_count seg) key_candidate
       <? page_idx)
    lower upper;
  _ ← assert (PageForKey (base_key seg) line (page_count seg) bound
              =? page_idx);
  _ ← assert ((bound =? 0) ||
              (PageForKey (base_key seg) line (page_count seg)
                          ((bound - 1) mod two64) <? page_idx));
  Done bound.

(** [for (page_idx = ...; page_idx < seg.page_count; ++page_idx)], with
    [remaining] turns to go. *)
Fixpoint boundaries_loop (remaining : nat) (seg : Segment)
         (line : Manager.Line64) (page_idx : Z) (lower_boundaries : list Key)
  : outcome (list Key) :=
  match remaining with
  | O => Done lower_boundaries
  | S remaining' =>
      bound ← boundary_for seg line page_idx;
      boundaries_loop remaining' seg line (page_idx + 1)
                      (lower_boundaries ++ [bound])
  end.

(** [ComputePageLowerBoundaries] *)
Definition ComputePageLowerBoundaries (seg : Segment) : outcome (list Key) :=
  let lower_boundaries := [base_key seg] in
  if page_count seg =? 1 then Done lower_boundaries
  else
    line ← from_option (model seg);
    lower_boundaries ←
      boundaries_loop (Z.to_nat (page_count seg - 1)) seg line 1
                      lower_boundaries;
    _ ← assert (Z.of_nat (length lower_boundaries) =? page_count seg);
    Done lower_boundaries.

(** [b] is the smallest key that [PageForKey] sends to the page [page_idx]. *)
Definition smallest_key_of_page (seg : Segment) (line : Manager.Line64)
           (page_idx : Z) (b : Key) : Prop :=
  0 <= b < two64 /\
  PageForKey (base_key seg) line (page_count seg) b = page_idx /\
  forall k, 0 <= k < b ->
            PageForKey (base_key seg) line (page_count seg) k < page_idx.

(** The keys of [bs] are the smallest keys of the pages [page_idx],
    [page_idx + 1], and so on. *)
Fixpoint boundaries_from (seg : Segment) (line : Manager.Line64)
         (page_idx : Z) (bs : list Key) : Prop :=
  match bs with
  | [] => True
  | b :: bs' =>
      smallest_key_of_page seg line page_idx b /\
      boundaries_from seg line (page_idx + 1) bs'
  end.

End Model.

End PageBoundaries.

(** ** src/db/memtable.cc: iteration from the first record *)

Module MemTableIterator.
Import MemTable.

(** [a] is ordered in front of [b]. *)
Definition before : MemRecord -> MemRecord -> Prop :=
  fun a b => Comparator a b < 0.

(** [MemTable::Iterator::SeekToFirst] on an iterator of the table [m]. *)
Definition SeekToFirst (m : t) : Iterator := table_ m.

(** What [key()], [type()] and [value()] return at a record. *)
Definition entry (r : MemRecord) : Slice * EntryType * Slice :=
  (rec_key r, type_of r, rec_value r).

(** Keys in ascending order, repetitions allowed. *)
Definition keys_nondecreasing (l : list MemRecord) : Prop :=
  StronglySorted (fun a b => slice_compare (rec_key a) (rec_key b) <= 0) l.

End MemTableIterator.

(** ** src/page_grouping/manager_rewrite.cc: [PageChain] and the record feed of
       [Manager::RewriteSegments] *)

Module Rewrite.
Import Manager.

(** A page iterator after [SeekToLast]: the key of the last record of the page,
    if the page has a record. *)
Definition last_key (recs : list Rec) : option Key :=
  match rev recs with
  | [] => None
  | r :: _ => Some (fst r)
  end.

(** [PageChain::NumPages] *)
Definition NumPages (pc : PageChain) : Z :=
  match overflow_page_ pc with
  | None => 1
  | Some _ => 2
  end.

(** [PageChain::LargestKey] *)
Definition LargestKey (pc : PageChain) : option Key :=
  let main_it := last_key (page_records (main_page_ pc)) in
  match main_it, overflow_page_ pc with
  | None, None => None
  | _, _ =>
      let largest := main_it in
      match overflow_page_ pc with
      | Some overflow =>
          match last_key (page_records overflow) with
          | Some overflow_largest =>
              match largest with
              | None => Some overflow_largest
              | Some l =>
                  if overflow_largest >? l then Some overflow_largest
                  else Some l
              end
          | None => largest
          end
      | None => largest
      end
  end.

(** The inner loop of the record feed,
    [while (pm.HasPageRecords()) seg_builder.Offer(pm.GetNext())]: the records
    offered, in order, and the merger afterwards.  A call of [GetNext] consumes
    a record, so the size of the merger is fuel enough. *)
Fixpoint feed_page_records (fuel : nat) (pm : PagePlusRecordMerger.t)
  : list Rec * PagePlusRecordMerger.t :=
  match fuel with
  | O => ([], pm)
  | S fuel' =>
      if PagePlusRecordMerger.HasPageRecords pm then
        match PagePlusRecordMerger.GetNext pm with
        | Some (r, pm') =>
            let '(out, pm'') := feed_page_records fuel' pm' in
            (r :: out, pm'')
        | None => ([], pm)
        end
      else ([], pm)
  end.

(** The loop over [pages_to_process]: the merger is pointed at one chain after
    the other and keeps its in-memory cursor. *)
Fixpoint feed_chains (chains : list PageMergeIterator)
         (pm : PagePlusRecordMerger.t)
  : list Rec * PagePlusRecordMerger.t :=
  match chains with
  | [] => ([], pm)
  | pmi :: rest =>
      let pm1 := PagePlusRecordMerger.UpdatePageIterator pm pmi in
      let '(out, pm2) :=
        feed_page_records (PagePlusRecordMerger.size pm1) pm1 in
      let '(out', pm3) := feed_chains rest pm2 in
      (out ++ out', pm3)
  end.

(** Everything [RewriteSegments] offers to the segment builder: the records of
    the chains, then the in-memory records that are left over. *)
Definition offered_records (chains : list PageMergeIterator)
           (addtl : list Rec) : list Rec :=
  let '(out, pm) := feed_chains chains (PagePlusRecordMerger.create addtl) in
  out ++ PagePlusRecordMerger.drain (PagePlusRecordMerger.size pm) pm.

(** The loop of [load_into_segments_and_free_pages] that releases processed
    page chains while the builder holds records from [next_key] on:
    [kept] chains stay in [pages_processed], [freed] counts the calls of
    [page_buf.Free()]. *)
Fixpoint free_before (next_key : Key) (pages_processed : list PageChain)
         (freed : Z) : list PageChain * Z :=
  match pages_processed with
  | [] => ([], freed)
  | front :: rest =>
      match LargestKey front with
      | Some largest_key =>
          if largest_key >=? next_key then (front :: rest, freed)
          else free_before next_key rest (freed + NumPages front)
      | None => free_before next_key rest (freed + NumPages front)
      end
  end.

(** The loop for an empty builder: every processed chain is released. *)
Fixpoint free_all (pages_processed : list PageChain) (freed : Z)
  : list PageChain * Z :=
  match pages_processed with
  | [] => ([], freed)
  | front :: rest => free_all rest (freed + NumPages front)
  end.

(** Both branches on [seg_builder.CurrentBaseKey()]. *)
Definition free_processed (maybe_key : option Key)
           (pages_processed : list PageChain) : list PageChain * Z :=
  match maybe_key with
  | Some next_key => free_before next_key pages_processed 0
  | None => free_all pages_processed 0
  end.

(** The pages of a list of chains. *)
Definition pages_of (chains : list PageChain) : Z :=
  fold_right (fun pc n => NumPages pc + n) 0 chains.

End Rewrite.

(** ** src/page_grouping/manager_load.cc: the key ranges of new pages *)

Module PageRanges.
Import Manager.

(** The pages cover the keys from [lo] up to, not including, [hi] without a
    gap: the first page starts at [lo], every page ends right below the first
    key of the page after it, which is where that page starts, and the last
    page ends right below [hi]. *)
Fixpoint tiles (lo hi : Key) (pages : list Page) : Prop :=
  match pages with
  | [] => True
  | p :: rest =>
      lower_boundary p = lo /\
      match rest with
      | [] => upper_boundary p = (hi - 1) mod two64
      | q :: _ =>
          upper_boundary p = (first_key (page_records q) - 1) mod two64 /\
          tiles (first_key (page_records q)) hi rest
      end
  end.

(** The index entry that [LoadIntoNewPages] records for a page it wrote. *)
Definition boundary_of (w : SegmentId * Page) : Key * SegmentInfo :=
  (lower_boundary (snd w), mkSegmentInfo (fst w) None false).

(** The lower bound that the loop gives the page starting at [s]. *)
Definition lower_at (lb : Key) (recs : list Rec) (s : Z) : Key :=
  if s =? 0 then lb else first_key (at_index recs s).

(** The upper bound of the page ending at [e]. *)
Definition upper_at (ub : Key) (recs : list Rec) (e : Z) : Key :=
  if e =? Z.of_nat (length recs) then ub else first_key (at_index recs e).

End PageRanges.

(** ** src/db/db_impl_reorg.cc: reading the calls and the new pages *)

Module ReorgTrace.
Import Reorg.

(** The page ids of the [UnfixPage] calls, in the order of the calls. *)
Definition unfixed (calls : list Call) : list Z :=
  flat_map (fun c => match c with UnfixPage page_id _ => [page_id]
                     | _ => [] end) calls.

(** The page ids of the [FixPage] calls. *)
Definition newly_fixed (calls : list Call) : list Z :=
  flat_map (fun c => match c with FixPage page_id _ _ => [page_id]
                     | _ => [] end) calls.

(** The entries of the [model_->Insert] calls. *)
Definition model_inserts (calls : list Call) : list (Slice * Z) :=
  flat_map (fun c => match c with ModelInsert key page_id => [(key, page_id)]
                     | _ => [] end) calls.

(** The pages span the keys from [lo] to [hi] link by link: the first page
    starts at [lo], every page ends where the next one starts, and the last
    page ends at [hi]. *)
Fixpoint chained (lo hi : Slice) (pages : list Page) : Prop :=
  match pages with
  | [] => lo = hi
  | p :: rest => lower_boundary p = lo /\ chained (upper_boundary p) hi rest
  end.

(** The frames of the chain that the backward loop reuses, in the order of the
    indices. *)
Definition reused (chain : list Z) (indices : list nat) : list Z :=
  flat_map (fun i => match nth_error chain i with Some x => [x] | None => [] end)
           indices.

(** The model after the inserts of a trace. *)
Definition apply_inserts (m : gmap string Z) (entries : list (Slice * Z))
  : gmap string Z :=
  fold_left (fun m e => <[fst e := snd e]> m) entries m.

(** A chain of two pages holding five records where a page is estimated to
    take three: on a geometry with two records to the page at a fill of 50
    percent the reorganization needs a third page. *)
Definition growing_chain : DBImpl :=
  {| frames_ := <[1 := mkPage "a" "b" [("a1", "v"); ("a3", "v"); ("a5", "v")] ]>
                (<[2 := mkPage "a" "b" [("a2", "v"); ("a4", "v")] ]> ∅);
     model_ := {[ "a" := 1 ]};
     next_page_id_ := 3;
     calls_ := [] |}.

End ReorgTrace.

(** ** src/page_grouping/manager_load.cc: the pages of [LoadIntoNewSegment] *)

Module SegmentLoad.
Import Manager PageBoundaries.

(** [std::lower_bound] over the record vector: positions are indices into
    [recs], [first] is the position of [page_start] and [len] the distance to
    [seg.records.end()].  The comparison reads the record in the middle. *)
Fixpoint cutoff_loop (fuel : nat) (recs : list Rec) (page_upper : Key)
         (first len : Z) : outcome Z :=
  if len >? 0 then
    match fuel with
    | O => OutOfFuel
    | S fuel' =>
        let half := Z.shiftr len 1 in
        let middle := first + half in
        rec ← from_option (nth_error recs (Z.to_nat middle));
        if fst rec <? page_upper
        then cutoff_loop fuel' recs page_upper (middle + 1) (len - half - 1)
        else cutoff_loop fuel' recs page_upper first half
    end
  else Done first.

(** A distance within a vector of [length recs] records is used up after at
    most that many halvings. *)
Definition cutoff (recs : list Rec) (page_start : Z) (page_upper : Key)
  : outcome Z :=
  cutoff_loop (length recs) recs page_upper page_start
              (Z.of_nat (length recs) - page_start).

(** The two loading steps of the branch for segments of several pages: one
    page for every lower boundary but the last, cut off at the next boundary,
    then the remaining records on the last page.  The buffer was zeroed, and
    [ComputePageLowerBoundaries] has asserted that there is one boundary for
    each page, so the last page comes right after the pages of the loop. *)
Fixpoint fill_pages (recs : list Rec) (lower_boundaries : list Key)
         (page_start : Z) (upper_bound : Key) : outcome (list Page) :=
  match lower_boundaries with
  | [] => Fault
  | lower :: rest =>
      match rest with
      | [] =>
          let '(result, page) :=
            LoadIntoPage zero_page lower upper_bound
                         (range recs page_start (Z.of_nat (length recs))) in
          match result with
          | OK => Done [page]
          | _ => Fault
          end
      | page_upper :: _ =>
          cutoff_it ← cutoff recs page_start page_upper;
          let '(result, page) :=
            LoadIntoPage zero_page lower page_upper
                         (range recs page_start cutoff_it) in
          match result with
          | OK =>
              pages ← fill_pages recs rest cutoff_it upper_bound;
              Done (page :: pages)
          | _ => Fault
          end
      end
  end.

(** Page [j] of [pages] spans the boundaries [j] and [j + 1] of
    [lower_boundaries], with [upper_bound] after the last, and holds records
    with keys of that range only. *)
Definition within_boundaries (lower_boundaries : list Key) (upper_bound : Key)
           (pages : list Page) : Prop :=
  forall j p,
    nth_error pages j = Some p ->
    lower_boundary p = nth j lower_boundaries 0 /\
    upper_boundary p = (nth (S j) lower_boundaries upper_bound - 1) mod two64 /\
    Forall (fun r => nth j lower_boundaries 0 <= fst r
                     < nth (S j) lower_boundaries upper_bound)
           (page_records p).

Section Model.

Variable PageForKey : Key -> Manager.Line64 -> Z -> Key -> Z.
Variable page_to_key : Manager.Line64 -> Z -> Key.

(** The first step of [Manager::LoadIntoNewSegment]: the pages in the buffer
    before the segment is wrapped and written.  The records of the segment
    are passed beside the fields [PageBoundaries.Segment] holds.  The model
    line that [SetModel] copies into the first page is not part of the page
    image. *)
Definition LoadIntoNewSegment_pages (seg : Segment) (records : list Rec)
           (upper_bound : Key) : outcome (list Page) :=
  _ ← assert (negb (Nat.eqb (length records) 0));
  if page_count seg >? 1 then
    lower_boundaries ← ComputePageLowerBoundaries PageForKey page_to_key seg;
    fill_pages records lower_boundaries 0 upper_bound
  else
    _ ← assert (page_count seg =? 1);
    let '(result, page) :=
      LoadIntoPage zero_page (base_key seg) upper_bound records in
    match result with
    | OK => Done [page]
    | _ => Fault
    end.

End Model.

End SegmentLoad.

(** ** src/page_grouping/manager_rewrite.cc: the segments of a rewrite *)

Module RewriteNeighbors.
Import Manager.

(** [index_.lower_bound(segment_base)] together with the entries that lie
    before the position it returns, the nearest first: what [--prev_it]
    walks. *)
Fixpoint index_split (idx : list (Key * SegmentInfo)) (k : Key)
         (before : list (Key * SegmentInfo))
  : list (Key * SegmentInfo) * list (Key * SegmentInfo) :=
  match idx with
  | [] => (before, [])
  | e :: rest =>
      if fst e <? k then index_split rest k (e :: before)
      else (before, e :: rest)
  end.

(** Both scans: walk on while the segment has an overflow. *)
Fixpoint scan (entries : list (Key * SegmentInfo))
  : list (Key * SegmentInfo) :=
  match entries with
  | [] => []
  | e :: rest => if has_overflow (snd e) then e :: scan rest else []
  end.

(** Modelled from the spec: [std::sort] with the comparison of the keys leaves
    the entries in ascending key order; the model sorts by insertion. *)
Fixpoint insert_by_key (e : Key * SegmentInfo)
         (l : list (Key * SegmentInfo)) : list (Key * SegmentInfo) :=
  match l with
  | [] => [e]
  | x :: rest =>
      if fst e <? fst x then e :: x :: rest else x :: insert_by_key e rest
  end.

Definition sort_by_key (l : list (Key * SegmentInfo))
  : list (Key * SegmentInfo) :=
  fold_right insert_by_key [] l.

(** Step 1 of [Manager::RewriteSegments]: the segments to rewrite.  The
    segment found is entered under [segment_base], the neighbours under their
    index keys. *)
Definition segments_to_rewrite (idx : list (Key * SegmentInfo))
           (segment_base : Key) (consider_neighbors_during_rewrite : bool)
  : outcome (list (Key * SegmentInfo)) :=
  match index_split idx segment_base [] with
  | (_, []) => Fault
  | (before, it :: after) =>
      let selected := [(segment_base, snd it)] in
      if consider_neighbors_during_rewrite then
        Done (sort_by_key (selected ++ scan before ++ scan after))
      else Done selected
  end.

(** The first loop of step 4: [index_.erase(to_remove.first)] for every
    selected segment, with the assertion that one entry went. *)
Fixpoint erase_rewritten (idx : list (Key * SegmentInfo))
         (segments : list (Key * SegmentInfo))
  : outcome (list (Key * SegmentInfo)) :=
  match segments with
  | [] => Done idx
  | to_remove :: rest =>
      let num_removed :=
        Z.of_nat (length (List.filter (fun e => fst e =? fst to_remove) idx)) in
      _ ← assert (num_removed =? 1);
      erase_rewritten (index_erase idx (fst to_remove)) rest
  end.

End RewriteNeighbors.

(** ** src/page_grouping/manager_load.cc: bulk load into single pages *)

Module BulkLoad.
Import Manager.

(** Modelled from the spec: [index_.bulk_load] fills the index, which is
    empty, with the entries in the order they are given. *)
Definition index_bulk_load (m : t) (entries : list (Key * SegmentInfo)) : t :=
  set_index m entries.

(** The ids of [k] pages allocated at the end of the first segment file when
    it holds [a] pages. *)
Definition fresh_ids (a : Z) (k : nat) : list SegmentId :=
  map (fun i => mkSegmentId 0 (a + Z.of_nat i)) (seq 0 k).

(** [Manager::BulkLoadIntoPagesImpl].  [None] also stands for
    [records.front()] on no records. *)
Definition BulkLoadIntoPagesImpl (fuel : nat) (m : t) (records : list Rec)
  : option t :=
  match records with
  | [] => None
  | front :: _ =>
      match LoadIntoNewPages fuel m 0 (fst front) Key_max records with
      | None => None
      | Some (segment_boundaries, m') =>
          Some (index_bulk_load m' segment_boundaries)
      end
  end.

(** [Manager::BulkLoadIntoPages]: the manager is made over one file of single
    pages, with an empty index, no free page and the sequence counter at 0. *)
Definition BulkLoadIntoPages (fuel : nat) (records : list Rec)
           (records_per_page_goal : Z) : option t :=
  BulkLoadIntoPagesImpl fuel (mkManager [] [] 0 [] 0 0 records_per_page_goal)
                        records.

End BulkLoad.

(** * Properties *)

(** ** Byte-string comparison *)

Lemma ascii_compare_refl (c : ascii) : Ascii.compare c c = Eq.
Proof. unfold Ascii.compare. apply N.compare_refl. Qed.

Lemma string_compare_refl (s : string) : String.compare s s = Eq.
Proof.
  induction s as [|c s IH]; simpl; [reflexivity|].
  now rewrite ascii_compare_refl.
Qed.

Lemma string_compare_eq (a b : string) : String.compare a b = Eq <-> a = b.
Proof.
  split; [apply String.compare_eq_iff|].
  intros ->. apply string_compare_refl.
Qed.

Lemma ascii_compare_lt_trans (a b c : ascii) :
  Ascii.compare a b = Lt -> Ascii.compare b c = Lt -> Ascii.compare a c = Lt.
Proof.
  unfold Ascii.compare. rewrite !N.compare_lt_iff. lia.
Qed.

Lemma string_compare_lt_trans (a b c : string) :
  String.compare a b = Lt -> String.compare b c = Lt -> String.compare a c = Lt.
Proof.
  revert b c. induction a as [|x a IH]; intros [|y b] [|z c]; simpl;
    try congruence.
  destruct (Ascii.compare x y) eqn:Hxy; try discriminate.
  - apply Ascii.compare_eq_iff in Hxy. subst y.
    destruct (Ascii.compare x z) eqn:Hxz; try congruence. apply IH.
  - destruct (Ascii.compare y z) eqn:Hyz; try discriminate.
    + apply Ascii.compare_eq_iff in Hyz. subst z. now rewrite Hxy.
    + now rewrite (ascii_compare_lt_trans _ _ _ Hxy Hyz).
Qed.

Lemma string_compare_gt_lt (a b : string) :
  String.compare a b = Gt <-> String.compare b a = Lt.
Proof.
  rewrite (String.compare_antisym b a).
  destruct (String.compare a b); simpl; split; congruence.
Qed.

Lemma slice_compare_eq0 (a b : Slice) : slice_compare a b = 0 <-> a = b.
Proof.
  unfold slice_compare. rewrite <- string_compare_eq.
  destruct (String.compare a b); split; intros; (congruence || lia).
Qed.

Lemma slice_compare_refl (a : Slice) : slice_compare a a = 0.
Proof. now apply slice_compare_eq0. Qed.

Lemma slice_compare_neg (a b : Slice) :
  slice_compare a b < 0 <-> String.compare a b = Lt.
Proof.
  unfold slice_compare.
  destruct (String.compare a b); split; intros; (congruence || lia).
Qed.

Lemma slice_compare_pos (a b : Slice) :
  0 < slice_compare a b <-> slice_compare b a < 0.
Proof.
  rewrite slice_compare_neg. rewrite <- string_compare_gt_lt.
  unfold slice_compare.
  destruct (String.compare a b); split; intros; (congruence || lia).
Qed.

Lemma slice_compare_trans (a b c : Slice) :
  slice_compare a b < 0 -> slice_compare b c < 0 -> slice_compare a c < 0.
Proof. rewrite !slice_compare_neg. apply string_compare_lt_trans. Qed.

Lemma slice_compare_irrefl (a : Slice) : ~ slice_compare a a < 0.
Proof. rewrite slice_compare_refl. lia. Qed.

Lemma slice_compare_cases (a b : Slice) :
  slice_compare a b < 0 \/ a = b \/ slice_compare b a < 0.
Proof.
  destruct (Z.lt_trichotomy (slice_compare a b) 0) as [H|[H|H]].
  - now left.
  - right; left. now apply slice_compare_eq0.
  - right; right. now apply slice_compare_pos.
Qed.

(** ** MemTable *)

Module MemTableFacts.
Import MemTable.

(** The stamp [(n << 8) | byte] of a counter below 2^56 is [256 n + byte]. *)
Lemma stamp_value (n e : Z) :
  0 <= n < 2 ^ 56 ->
  Z.lor ((Z.shiftl n 8) mod two64) (e mod 256) = n * 256 + e mod 256.
Proof.
  intros Hn. unfold two64.
  assert (He : 0 <= e mod 256 < 256) by (apply Z.mod_pos_bound; lia).
  rewrite Z.shiftl_mul_pow2 by lia.
  rewrite Z.mod_small by lia.
  change (2 ^ 8) with 256.
  assert (Hland : Z.land (n * 256) (e mod 256) = 0).
  { apply Z.bits_inj'. intros i Hi. rewrite Z.land_spec, Z.bits_0.
    destruct (Z.ltb_spec i 8) as [Hlt|Hge].
    - change 256 with (2 ^ 8). rewrite Z.mul_pow2_bits_low by lia. reflexivity.
    - rewrite (Z.bits_above_log2 (e mod 256) i); [apply andb_false_r|lia|].
      destruct (Z.eq_dec (e mod 256) 0) as [->|Hne]; [simpl; lia|].
      apply Z.lt_le_trans with 8; [|lia].
      apply Z.log2_lt_pow2; lia. }
  rewrite <- Z.lxor_lor by exact Hland.
  symmetry. now apply Z.add_nocarry_lxor.
Qed.

Lemma stamp_type (n e : Z) :
  0 <= n < 2 ^ 56 ->
  Z.land (Z.lor ((Z.shiftl n 8) mod two64) (e mod 256)) kEntryTypeMask = e mod 256.
Proof.
  intros Hn. rewrite stamp_value by exact Hn.
  unfold kEntryTypeMask. change 255 with (Z.ones 8).
  rewrite Z.land_ones by lia. change (2 ^ 8) with 256.
  rewrite Z.add_comm, Z.mod_add by lia.
  apply Z.mod_mod. lia.
Qed.

(** Against the lookup record of [Seek], a record whose sequence number fits
    64 bits compares by its key alone. *)
Lemma Comparator_sentinel (x : MemRecord) (k v : Slice) :
  sequence_number x <= two64 - 1 ->
  (Comparator x (mkRecord k v (two64 - 1)) <? 0) =
  (slice_compare (rec_key x) k <? 0).
Proof.
  intros Hx. unfold Comparator. simpl.
  destruct (Z.eqb_spec (slice_compare (rec_key x) k) 0) as [E|E]; simpl.
  - rewrite E. simpl.
    destruct (Z.ltb_spec (sequence_number x) (two64 - 1)); [reflexivity|].
    destruct (Z.gtb_spec (sequence_number x) (two64 - 1)); [lia|reflexivity].
  - reflexivity.
Qed.

(** A record sorts before a strictly newer one only if its key is smaller. *)
Lemma Comparator_older (x r : MemRecord) :
  sequence_number x < sequence_number r ->
  (Comparator x r <? 0) = (slice_compare (rec_key x) (rec_key r) <? 0).
Proof.
  intros Hx. unfold Comparator.
  destruct (Z.eqb_spec (slice_compare (rec_key x) (rec_key r)) 0) as [E|E]; simpl.
  - rewrite E. destruct (Z.ltb_spec (sequence_number x) (sequence_number r));
      [reflexivity | lia].
  - reflexivity.
Qed.

Lemma Get_cons (x : MemRecord) (l : list MemRecord) (n : Z) (k : Slice) :
  sequence_number x <= two64 - 1 ->
  Get (mkMemTable (x :: l) n) k =
  if slice_compare (rec_key x) k <? 0 then Get (mkMemTable l n) k
  else if negb (slice_compare k (rec_key x) =? 0) then (NotFound, None)
       else (OK, Some (type_of x, rec_value x)).
Proof.
  intros Hx. unfold Get, Seek, GetIterator. simpl.
  rewrite Comparator_sentinel by exact Hx.
  destruct (slice_compare (rec_key x) k <? 0); reflexivity.
Qed.

(** Inserting a record newer than everything in the table: a lookup of its key
    finds it, and a lookup of another key is unchanged. *)
Lemma Get_Insert (r : MemRecord) (l : list MemRecord) (n n' : Z) (k : Slice) :
  sequence_number r <= two64 - 1 ->
  Forall (fun x => sequence_number x < sequence_number r) l ->
  Get (mkMemTable (SkipList_Insert r l) n') k =
  if negb (slice_compare k (rec_key r) =? 0) then Get (mkMemTable l n) k
  else (OK, Some (type_of r, rec_value r)).
Proof.
  intros Hr Hl. induction l as [|x l IH].
  - simpl. rewrite Get_cons by exact Hr.
    destruct (Z.ltb_spec (slice_compare (rec_key r) k) 0) as [Hlt|Hge].
    + destruct (Z.eqb_spec (slice_compare k (rec_key r)) 0) as [E|E];
        [|reflexivity].
      apply slice_compare_eq0 in E. subst k.
      now apply slice_compare_irrefl in Hlt.
    + destruct (Z.eqb_spec (slice_compare k (rec_key r)) 0); reflexivity.
  - inversion Hl as [|? ? Hx Hl']; subst.
    specialize (IH Hl'). simpl.
    rewrite Comparator_older by exact Hx.
    assert (Hx64 : sequence_number x <= two64 - 1) by lia.
    destruct (Z.ltb_spec (slice_compare (rec_key x) (rec_key r)) 0) as [Hxr|Hxr].
    + (* [x] stays in front of [r] *)
      rewrite !(Get_cons x) by exact Hx64.
      destruct (Z.ltb_spec (slice_compare (rec_key x) k) 0) as [Hxk|Hxk];
        [exact IH|].
      destruct (Z.eqb_spec (slice_compare k (rec_key r)) 0) as [E|E];
        [|reflexivity].
      apply slice_compare_eq0 in E. subst k. lia.
    + (* [r] goes in front of [x] *)
      rewrite (Get_cons r) by exact Hr.
      destruct (Z.ltb_spec (slice_compare (rec_key r) k) 0) as [Hrk|Hrk].
      * destruct (Z.eqb_spec (slice_compare k (rec_key r)) 0) as [E|E];
          [|reflexivity].
        apply slice_compare_eq0 in E. subst k.
        now apply slice_compare_irrefl in Hrk.
      * destruct (Z.eqb_spec (slice_compare k (rec_key r)) 0) as [E|E];
          [reflexivity|]. simpl.
        rewrite (Get_cons x) by exact Hx64.
        assert (Hkr : slice_compare k (rec_key r) < 0).
        { destruct (slice_compare_cases k (rec_key r)) as [H|[H|H]];
            [exact H | | lia].
          apply slice_compare_eq0 in H. contradiction. }
        assert (Hkx : slice_compare k (rec_key x) < 0).
        { destruct (slice_compare_cases (rec_key r) (rec_key x)) as [H|[H|H]].
          - now apply slice_compare_trans with (rec_key r).
          - now rewrite <- H.
          - lia. }
        destruct (Z.ltb_spec (slice_compare (rec_key x) k) 0) as [Hxk|Hxk].
        { exfalso. apply (slice_compare_irrefl k).
          now apply slice_compare_trans with (rec_key x). }
        destruct (Z.eqb_spec (slice_compare k (rec_key x)) 0); [lia|reflexivity].
Qed.

Lemma stamped_create : stamped create.
Proof. split; simpl; [lia | constructor]. Qed.

Lemma stamped_InsertImpl (m : t) (key value : Slice) (e : EntryType) :
  stamped m -> next_sequence_num_ m < 2 ^ 56 ->
  stamped (snd (InsertImpl m key value e)).
Proof.
  intros [Hn Hall] Hlt. unfold InsertImpl, stamped. simpl.
  assert (He : 0 <= e mod 256 < 256) by (apply Z.mod_pos_bound; lia).
  assert (Hs : (next_sequence_num_ m + 1) mod two64 = next_sequence_num_ m + 1).
  { apply Z.mod_small. unfold two64. lia. }
  rewrite Hs. split; [lia|].
  rewrite stamp_value by lia.
  set (r := mkRecord key value (next_sequence_num_ m * 256 + e mod 256)).
  assert (Hr : sequence_number r < (next_sequence_num_ m + 1) * 256)
    by (simpl; lia).
  revert Hall Hr. generalize (table_ m). clear -Hn.
  intros l Hall Hr. induction Hall as [|x l Hx Hl IH]; simpl.
  - constructor; [exact Hr | constructor].
  - destruct (Comparator x r <? 0).
    + constructor; [lia | exact IH].
    + constructor; [exact Hr|]. constructor; [lia|].
      eapply List.Forall_impl; [|exact Hl]. simpl. intros; lia.
Qed.

Lemma Get_InsertImpl (m : t) (key value : Slice) (e : EntryType) (k : Slice) :
  stamped m -> next_sequence_num_ m < 2 ^ 56 ->
  Get (snd (InsertImpl m key value e)) k =
  if String.eqb key k then (OK, Some (e mod 256, value)) else Get m k.
Proof.
  intros [Hn Hall] Hlt. unfold InsertImpl. simpl.
  assert (He : 0 <= e mod 256 < 256) by (apply Z.mod_pos_bound; lia).
  rewrite (Get_Insert _ _ (next_sequence_num_ m)).
  - simpl. destruct (String.eqb_spec key k) as [->|Hne].
    + rewrite slice_compare_refl. simpl. unfold type_of. simpl.
      now rewrite stamp_type by lia.
    + destruct (Z.eqb_spec (slice_compare k key) 0) as [E|E]; simpl.
      * apply slice_compare_eq0 in E. congruence.
      * now destruct m.
  - simpl. rewrite stamp_value by lia. unfold two64. lia.
  - simpl. rewrite stamp_value by lia.
    eapply List.Forall_impl; [|exact Hall]. simpl. intros; lia.
Qed.

Section Trace.
Variables kWrite kDelete : EntryType.
Hypothesis kWrite_byte : 0 <= kWrite < 256.
Hypothesis kDelete_byte : 0 <= kDelete < 256.

Lemma Get_apply_op (m : t) (o : Op) (k : Slice) :
  stamped m -> next_sequence_num_ m < 2 ^ 56 ->
  Get (apply_op kWrite kDelete m o) k =
  if String.eqb (op_key o) k then (OK, Some (op_entry kWrite kDelete o))
  else Get m k.
Proof.
  intros Hm Hlt.
  destruct o as [key value|key]; unfold apply_op, Put, Delete, op_key, op_entry;
    rewrite Get_InsertImpl by assumption;
    rewrite Z.mod_small by assumption; reflexivity.
Qed.

Lemma stamped_apply_op (m : t) (o : Op) :
  stamped m -> next_sequence_num_ m < 2 ^ 56 ->
  stamped (apply_op kWrite kDelete m o) /\
  next_sequence_num_ (apply_op kWrite kDelete m o) = next_sequence_num_ m + 1.
Proof.
  intros Hm Hlt. split.
  - destruct o; simpl; now apply stamped_InsertImpl.
  - destruct Hm as [Hn _].
    destruct o; simpl; apply Z.mod_small; unfold two64; lia.
Qed.

(** A trace that keeps the counter below 2^56 makes [Get] answer with the last
    operation on the key, and with the earlier answer if there is none. *)
Lemma Get_fold (ops : list Op) (m : t) (k : Slice) :
  stamped m ->
  next_sequence_num_ m + Z.of_nat (length ops) <= 2 ^ 56 ->
  Get (fold_left (apply_op kWrite kDelete) ops m) k =
  match latest kWrite kDelete k ops with
  | Some e => (OK, Some e)
  | None => Get m k
  end.
Proof.
  revert m. induction ops as [|o ops IH]; intros m Hm Hlen; [reflexivity|].
  rewrite length_cons, Nat2Z.inj_succ in Hlen.
  destruct (stamped_apply_op m o Hm ltac:(lia)) as [Hm' Hn'].
  simpl. rewrite IH by (try exact Hm'; lia).
  destruct (latest kWrite kDelete k ops); [reflexivity|].
  rewrite Get_apply_op by (try exact Hm; lia).
  now destruct (String.eqb (op_key o) k).
Qed.

End Trace.

Lemma latest_None (kWrite kDelete : EntryType) (k : Slice) (ops : list Op) :
  latest kWrite kDelete k ops = None <-> Forall (fun o => op_key o <> k) ops.
Proof.
  induction ops as [|o ops IH]; simpl.
  - split; [constructor | reflexivity].
  - destruct (latest kWrite kDelete k ops) eqn:E.
    + split; [discriminate|]. intros H. inversion H; subst.
      now apply IH.
    + destruct (String.eqb_spec (op_key o) k) as [Heq|Hne].
      * split; [discriminate|]. intros H. now inversion H.
      * split; [|reflexivity]. intros _. constructor; [exact Hne|].
        now apply IH.
Qed.

Lemma latest_last (kWrite kDelete : EntryType) (k : Slice)
      (before after : list Op) (o : Op) :
  op_key o = k -> Forall (fun o' => op_key o' <> k) after ->
  latest kWrite kDelete k (before ++ o :: after) =
  Some (op_entry kWrite kDelete o).
Proof.
  intros Hk Hafter. induction before as [|b before IH]; simpl.
  - apply latest_None with (kWrite := kWrite) (kDelete := kDelete) in Hafter.
    rewrite Hafter. destruct (String.eqb_spec (op_key o) k); congruence.
  - now rewrite IH.
Qed.

(** C2.  From a fresh MemTable and for a trace of at most 2^56 Put and Delete
    operations (the counter of sequence numbers has 56 bits), [Get] on a key
    answers OK with the type and the value of the last operation on that key,
    a Delete being answered with the Delete type and the empty value, and
    answers NotFound exactly when the trace has no operation on the key. *)
Theorem Get_returns_latest (kWrite kDelete : EntryType) (ops : list Op)
        (k : Slice) :
  0 <= kWrite < 256 -> 0 <= kDelete < 256 ->
  Z.of_nat (length ops) <= 2 ^ 56 ->
  (forall before o after,
      ops = before ++ o :: after -> op_key o = k ->
      Forall (fun o' => op_key o' <> k) after ->
      Get (run kWrite kDelete ops) k =
      (OK, Some (match o with
                 | OpPut _ v => (kWrite, v)
                 | OpDelete _ => (kDelete, EmptyString)
                 end))) /\
  (Get (run kWrite kDelete ops) k = (NotFound, None) <->
   Forall (fun o => op_key o <> k) ops).
Proof.
  intros Hw Hd Hlen.
  assert (HG := Get_fold kWrite kDelete Hw Hd ops create k stamped_create).
  simpl in HG. specialize (HG Hlen). fold (run kWrite kDelete ops) in HG.
  split.
  - intros before o after -> Hk Hafter.
    rewrite HG, (latest_last kWrite kDelete k before after o Hk Hafter).
    now destruct o.
  - rewrite HG, <- (latest_None kWrite kDelete).
    destruct (latest kWrite kDelete k ops); split; intros;
      (reflexivity || discriminate).
Qed.

Lemma Get_returns_latest_witness :
  Get (run 0 1 [OpPut "5" "a"; OpPut "5" "b"; OpDelete "5"; OpPut "7" "c"]) "5"
  = (OK, Some (1, EmptyString)).
Proof.
  refine (proj1 (Get_returns_latest 0 1
                   [OpPut "5" "a"; OpPut "5" "b"; OpDelete "5"; OpPut "7" "c"]
                   "5" _ _ _)
                [OpPut "5" "a"; OpPut "5" "b"] (OpDelete "5") [OpPut "7" "c"]
                eq_refl eq_refl _).
  - lia.
  - lia.
  - simpl. lia.
  - repeat constructor. discriminate.
Defined.

(** C3.  The comparator returns the result of the lexicographic comparison of
    the two keys whenever the keys differ; for equal keys the record with the
    greater sequence number compares strictly less, and the other strictly
    greater. *)
Theorem Comparator_order (r1 r2 : MemRecord) :
  (rec_key r1 <> rec_key r2 ->
   Comparator r1 r2 = slice_compare (rec_key r1) (rec_key r2) /\
   Comparator r1 r2 <> 0) /\
  (rec_key r1 = rec_key r2 ->
   sequence_number r1 > sequence_number r2 ->
   Comparator r1 r2 < 0 /\ Comparator r2 r1 > 0).
Proof.
  split.
  - intros Hne. unfold Comparator.
    destruct (Z.eqb_spec (slice_compare (rec_key r1) (rec_key r2)) 0) as [E|E].
    + now apply slice_compare_eq0 in E.
    + simpl. split; [reflexivity | exact E].
  - intros Heq Hseq. unfold Comparator. rewrite Heq, slice_compare_refl. simpl.
    destruct (Z.ltb_spec (sequence_number r1) (sequence_number r2)); [lia|].
    destruct (Z.gtb_spec (sequence_number r1) (sequence_number r2)); [|lia].
    destruct (Z.ltb_spec (sequence_number r2) (sequence_number r1)); lia.
Qed.

Lemma Comparator_order_witness :
  Comparator (mkRecord "k" "new" 513) (mkRecord "k" "old" 256) < 0 /\
  Comparator (mkRecord "k" "old" 256) (mkRecord "k" "new" 513) > 0.
Proof.
  apply (proj2 (Comparator_order (mkRecord "k" "new" 513)
                                 (mkRecord "k" "old" 256))).
  - reflexivity.
  - simpl. lia.
Defined.

(** C10.  [Put] and [Delete] return OK for every table, key and value, and the
    record they build is in the table afterwards. *)
Theorem Put_Delete_return_OK (kWrite kDelete : EntryType) (m : t)
        (key value : Slice) :
  fst (Put kWrite m key value) = OK /\
  fst (Delete kDelete m key) = OK /\
  (exists s, In (mkRecord key value s) (table_ (snd (Put kWrite m key value)))) /\
  (exists s, In (mkRecord key EmptyString s)
                (table_ (snd (Delete kDelete m key)))).
Proof.
  assert (Hin : forall r l, In r (SkipList_Insert r l)).
  { intros r l. induction l as [|x l IH]; simpl; [now left|].
    destruct (Comparator x r <? 0); simpl; auto. }
  repeat split; try (eexists; apply Hin).
Qed.

(** Scenario 1 of the specification: Put(5,a); Put(5,b); Delete(5); Put(7,c),
    with the bytes 0 and 1 for Write and Delete. *)
Example scenario_iteration_latest_per_key :
  drain 4 (GetIterator
             (run 0 1 [OpPut "5" "a"; OpPut "5" "b"; OpDelete "5";
                       OpPut "7" "c"])) =
  [("5"%string, 1, EmptyString); ("7"%string, 0, "c"%string)].
Proof. reflexivity. Qed.

Example scenario_get_misses_absent_key :
  Get (run 0 1 [OpPut "5" "a"; OpPut "5" "b"; OpDelete "5"; OpPut "7" "c"]) "6"
  = (NotFound, None).
Proof. reflexivity. Qed.

End MemTableFacts.

(** ** Merging disk records with in-memory records *)

Module MergeFacts.

Lemma merge_records_nil_l (r : list Rec) : merge_records [] r = r.
Proof. now destruct r. Qed.

Lemma merge_records_nil_r (p : list Rec) : merge_records p [] = p.
Proof. destruct p; simpl; [reflexivity | now rewrite app_nil_r]. Qed.

Lemma merge_records_cons (p : Rec) (ps : list Rec) (r : Rec) (rs : list Rec) :
  merge_records (p :: ps) (r :: rs) =
  if fst p =? fst r then r :: merge_records ps rs
  else if fst p <? fst r then p :: merge_records ps (r :: rs)
  else r :: merge_records (p :: ps) rs.
Proof. reflexivity. Qed.

(** An induction principle that follows the three branches of the merge. *)
Lemma merge_ind (P : list Rec -> list Rec -> Prop) :
  (forall rs, P [] rs) ->
  (forall ps, P ps []) ->
  (forall p ps r rs, fst p = fst r -> P ps rs -> P (p :: ps) (r :: rs)) ->
  (forall p ps r rs, fst p < fst r -> P ps (r :: rs) -> P (p :: ps) (r :: rs)) ->
  (forall p ps r rs, fst r < fst p -> P (p :: ps) rs -> P (p :: ps) (r :: rs)) ->
  forall ps rs, P ps rs.
Proof.
  intros Hnl Hnr Heq Hlt Hgt ps.
  induction ps as [|p ps IHp]; intros rs; [apply Hnl|].
  induction rs as [|r rs IHr]; [apply Hnr|].
  destruct (Z.lt_trichotomy (fst p) (fst r)) as [H|[H|H]].
  - apply Hlt; [exact H | apply IHp].
  - apply Heq; [exact H | apply IHp].
  - apply Hgt; [exact H | apply IHr].
Qed.

Lemma merge_records_eq (p : Rec) (ps : list Rec) (r : Rec) (rs : list Rec) :
  fst p = fst r ->
  merge_records (p :: ps) (r :: rs) = r :: merge_records ps rs.
Proof.
  intros H. rewrite merge_records_cons.
  now rewrite (proj2 (Z.eqb_eq _ _) H).
Qed.

Lemma merge_records_lt (p : Rec) (ps : list Rec) (r : Rec) (rs : list Rec) :
  fst p < fst r ->
  merge_records (p :: ps) (r :: rs) = p :: merge_records ps (r :: rs).
Proof.
  intros H. rewrite merge_records_cons.
  rewrite (proj2 (Z.eqb_neq _ _)) by lia.
  now rewrite (proj2 (Z.ltb_lt _ _) H).
Qed.

Lemma merge_records_gt (p : Rec) (ps : list Rec) (r : Rec) (rs : list Rec) :
  fst r < fst p ->
  merge_records (p :: ps) (r :: rs) = r :: merge_records (p :: ps) rs.
Proof.
  intros H. rewrite merge_records_cons.
  rewrite (proj2 (Z.eqb_neq _ _)) by lia.
  rewrite (proj2 (Z.ltb_ge _ _)) by lia. reflexivity.
Qed.

Ltac merge_step :=
  match goal with
  | H : fst ?p = fst ?r |- _ => rewrite (merge_records_eq p _ r _ H)
  | H : fst ?p < fst ?r |- _ => rewrite (merge_records_lt p _ r _ H)
  | H : fst ?r < fst ?p |- _ => rewrite (merge_records_gt p _ r _ H)
  end.

Lemma merge_records_Forall (P : Rec -> Prop) (ps rs : list Rec) :
  Forall P ps -> Forall P rs -> Forall P (merge_records ps rs).
Proof.
  revert ps rs. apply (merge_ind (fun ps rs =>
    Forall P ps -> Forall P rs -> Forall P (merge_records ps rs))).
  - intros rs _ H. now rewrite merge_records_nil_l.
  - intros ps H _. now rewrite merge_records_nil_r.
  - intros p ps r rs E IH Hp Hr. merge_step.
    inversion Hp; inversion Hr; subst. constructor; auto.
  - intros p ps r rs E IH Hp Hr. merge_step.
    inversion Hp; subst. constructor; auto.
  - intros p ps r rs E IH Hp Hr. merge_step.
    inversion Hr; subst. constructor; auto.
Qed.

Lemma merge_records_ascending (ps rs : list Rec) :
  ascending ps -> ascending rs -> ascending (merge_records ps rs).
Proof.
  unfold ascending. revert ps rs. apply (merge_ind (fun ps rs =>
    StronglySorted (fun a b => fst a < fst b) ps ->
    StronglySorted (fun a b => fst a < fst b) rs ->
    StronglySorted (fun a b => fst a < fst b) (merge_records ps rs))).
  - intros rs _ H. now rewrite merge_records_nil_l.
  - intros ps H _. now rewrite merge_records_nil_r.
  - intros p ps r rs E IH Hp Hr. merge_step.
    inversion Hp as [|? ? Hps Hp']; inversion Hr as [|? ? Hrs Hr']; subst.
    constructor; [now apply IH|].
    apply merge_records_Forall; [|exact Hr'].
    eapply List.Forall_impl; [|exact Hp']. simpl. intros; lia.
  - intros p ps r rs E IH Hp Hr. merge_step.
    inversion Hp as [|? ? Hps Hp']; subst.
    constructor; [now apply IH|].
    apply merge_records_Forall; [exact Hp'|].
    inversion Hr as [|? ? Hrs Hr']; subst.
    constructor; [exact E|].
    eapply List.Forall_impl; [|exact Hr']. simpl. intros; lia.
  - intros p ps r rs E IH Hp Hr. merge_step.
    inversion Hr as [|? ? Hrs Hr']; subst.
    constructor; [now apply IH|].
    apply merge_records_Forall; [|exact Hr'].
    inversion Hp as [|? ? Hps Hp']; subst.
    constructor; [exact E|].
    eapply List.Forall_impl; [|exact Hp']. simpl. intros; lia.
Qed.

Lemma merge_records_nondecreasing (ps rs : list Rec) :
  nondecreasing ps -> nondecreasing rs -> nondecreasing (merge_records ps rs).
Proof.
  unfold nondecreasing. revert ps rs. apply (merge_ind (fun ps rs =>
    StronglySorted (fun a b => fst a <= fst b) ps ->
    StronglySorted (fun a b => fst a <= fst b) rs ->
    StronglySorted (fun a b => fst a <= fst b) (merge_records ps rs))).
  - intros rs _ H. now rewrite merge_records_nil_l.
  - intros ps H _. now rewrite merge_records_nil_r.
  - intros p ps r rs E IH Hp Hr. merge_step.
    inversion Hp as [|? ? Hps Hp']; inversion Hr as [|? ? Hrs Hr']; subst.
    constructor; [now apply IH|].
    apply merge_records_Forall; [|exact Hr'].
    eapply List.Forall_impl; [|exact Hp']. simpl. intros; lia.
  - intros p ps r rs E IH Hp Hr. merge_step.
    inversion Hp as [|? ? Hps Hp']; subst.
    constructor; [now apply IH|].
    apply merge_records_Forall; [exact Hp'|].
    inversion Hr as [|? ? Hrs Hr']; subst.
    constructor; [lia|].
    eapply List.Forall_impl; [|exact Hr']. simpl. intros; lia.
  - intros p ps r rs E IH Hp Hr. merge_step.
    inversion Hr as [|? ? Hrs Hr']; subst.
    constructor; [now apply IH|].
    apply merge_records_Forall; [|exact Hr'].
    inversion Hp as [|? ? Hps Hp']; subst.
    constructor; [lia|].
    eapply List.Forall_impl; [|exact Hp']. simpl. intros; lia.
Qed.

Lemma ascending_nondecreasing (l : list Rec) : ascending l -> nondecreasing l.
Proof.
  unfold ascending, nondecreasing. induction 1 as [|x l Hl IH Hx];
    constructor; [exact IH|].
  eapply List.Forall_impl; [|exact Hx]. simpl. intros; lia.
Qed.

Lemma has_key_false (l : list Rec) (k : Key) :
  Forall (fun x => fst x <> k) l -> has_key l k = false.
Proof.
  induction 1 as [|x l Hx Hl IH]; simpl; [reflexivity|].
  now rewrite (proj2 (Z.eqb_neq _ _) Hx).
Qed.

(** Dropping a batch record whose key lies below every disk key does not
    change which disk records survive. *)
Lemma filter_has_key_cons (r : Rec) (rs ps : list Rec) :
  Forall (fun x => fst r < fst x) ps ->
  List.filter (fun d => negb (has_key (r :: rs) (fst d))) ps =
  List.filter (fun d => negb (has_key rs (fst d))) ps.
Proof.
  induction 1 as [|x ps Hx Hps IH]; simpl; [reflexivity|].
  rewrite (proj2 (Z.eqb_neq (fst r) (fst x))) by lia. simpl.
  destruct (has_key rs (fst x)); simpl; now rewrite <- IH.
Qed.

(** The merge keeps every in-memory record and exactly the disk records whose
    key no in-memory record carries. *)
Lemma merge_records_newest_wins (ps rs : list Rec) :
  ascending ps -> nondecreasing rs ->
  Permutation (merge_records ps rs) (newest_wins ps rs).
Proof.
  unfold ascending, nondecreasing, newest_wins.
  revert ps rs. apply (merge_ind (fun ps rs =>
    StronglySorted (fun a b => fst a < fst b) ps ->
    StronglySorted (fun a b => fst a <= fst b) rs ->
    Permutation (merge_records ps rs)
      (rs ++ List.filter (fun d => negb (has_key rs (fst d))) ps))).
  - intros rs _ _. rewrite merge_records_nil_l. simpl.
    now rewrite app_nil_r.
  - intros ps _ _. rewrite merge_records_nil_r. simpl.
    rewrite List.forallb_filter_id; [reflexivity|].
    now apply forallb_forall.
  - (* equal keys: the disk record is dropped *)
    intros p ps r rs E IH Hp Hr. merge_step.
    inversion Hp as [|? ? Hps Hp']; inversion Hr as [|? ? Hrs Hr']; subst.
    assert (Hk : has_key (r :: rs) (fst p) = true).
    { simpl. now rewrite (proj2 (Z.eqb_eq (fst r) (fst p))) by lia. }
    cbn [app List.filter]. rewrite Hk. cbn [negb].
    apply perm_skip.
    rewrite (filter_has_key_cons r rs ps).
    + now apply IH.
    + eapply List.Forall_impl; [|exact Hp']. simpl. intros; lia.
  - (* the disk key is smaller: no in-memory record carries it *)
    intros p ps r rs E IH Hp Hr. merge_step.
    inversion Hp as [|? ? Hps Hp']; subst.
    cbn [List.filter].
    rewrite (has_key_false (r :: rs) (fst p)).
    + cbn [negb]. apply Permutation_cons_app. now apply IH.
    + inversion Hr as [|? ? Hrs Hr']; subst.
      constructor; [lia|].
      eapply List.Forall_impl; [|exact Hr']. simpl. intros; lia.
  - (* the in-memory key is smaller *)
    intros p ps r rs E IH Hp Hr. merge_step.
    inversion Hr as [|? ? Hrs Hr']; subst.
    cbn [app]. apply perm_skip.
    rewrite (filter_has_key_cons r rs (p :: ps)).
    + now apply IH.
    + inversion Hp as [|? ? Hps Hp']; subst.
      constructor; [exact E|].
      eapply List.Forall_impl; [|exact Hp']. simpl. intros; lia.
Qed.

(** Draining a merger yields the merge of its two sides. *)
Lemma drain_merge_records (fuel : nat) (pm : PagePlusRecordMerger.t) :
  (PagePlusRecordMerger.size pm <= fuel)%nat ->
  PagePlusRecordMerger.drain fuel pm =
  merge_records (PagePlusRecordMerger.pmi_ pm) (PagePlusRecordMerger.it_ pm).
Proof.
  unfold PagePlusRecordMerger.size.
  revert pm. induction fuel as [|fuel IH]; intros [ps rs]; simpl; intros Hsz.
  - destruct ps, rs; simpl in Hsz; try lia. reflexivity.
  - unfold PagePlusRecordMerger.GetNext. simpl.
    destruct ps as [|p ps], rs as [|r rs]; simpl in Hsz.
    + reflexivity.
    + rewrite IH by (simpl; lia).
      cbn [PagePlusRecordMerger.pmi_ PagePlusRecordMerger.it_].
      now rewrite !merge_records_nil_l.
    + rewrite IH by (simpl; lia).
      cbn [PagePlusRecordMerger.pmi_ PagePlusRecordMerger.it_].
      now rewrite !merge_records_nil_r.
    + destruct (Z.lt_trichotomy (fst p) (fst r)) as [H|[H|H]].
      * rewrite (proj2 (Z.leb_gt _ _) H). rewrite IH by (simpl; lia).
        simpl PagePlusRecordMerger.pmi_. simpl PagePlusRecordMerger.it_.
        now rewrite merge_records_lt.
      * rewrite (proj2 (Z.leb_le (fst r) (fst p))) by lia.
        rewrite (proj2 (Z.eqb_eq (fst r) (fst p))) by lia.
        rewrite IH by (simpl; lia).
        simpl PagePlusRecordMerger.pmi_. simpl PagePlusRecordMerger.it_.
        now rewrite merge_records_eq.
      * rewrite (proj2 (Z.leb_le (fst r) (fst p))) by lia.
        rewrite (proj2 (Z.eqb_neq (fst r) (fst p))) by lia.
        rewrite IH by (simpl; lia).
        simpl PagePlusRecordMerger.pmi_. simpl PagePlusRecordMerger.it_.
        now rewrite merge_records_gt.
Qed.

(** C7.  When both sides of the merger hold a record, [GetNext] returns the one
    with the smaller key and advances that side only; for equal keys it returns
    the in-memory record and advances both sides.  Drained over page records
    and in-memory records that are each in ascending key order, the merger
    yields a list in ascending key order that keeps every in-memory record and
    exactly those page records whose key no in-memory record carries. *)
Theorem GetNext_smaller_key_memory_wins
        (p : Rec) (ps : list Rec) (r : Rec) (rs : list Rec) :
  let pm := PagePlusRecordMerger.mk (p :: ps) (r :: rs) in
  (fst r < fst p ->
   PagePlusRecordMerger.GetNext pm =
   Some (r, PagePlusRecordMerger.mk (p :: ps) rs)) /\
  (fst r = fst p ->
   PagePlusRecordMerger.GetNext pm = Some (r, PagePlusRecordMerger.mk ps rs)) /\
  (fst p < fst r ->
   PagePlusRecordMerger.GetNext pm =
   Some (p, PagePlusRecordMerger.mk ps (r :: rs))) /\
  (ascending (p :: ps) -> ascending (r :: rs) ->
   let out := PagePlusRecordMerger.drain (PagePlusRecordMerger.size pm) pm in
   ascending out /\
   Permutation out (newest_wins (p :: ps) (r :: rs))).
Proof.
  intros pm. split; [|split; [|split]].
  - intros H. unfold pm, PagePlusRecordMerger.GetNext. simpl.
    rewrite (proj2 (Z.leb_le (fst r) (fst p))) by lia.
    now rewrite (proj2 (Z.eqb_neq (fst r) (fst p))) by lia.
  - intros H. unfold pm, PagePlusRecordMerger.GetNext. simpl.
    rewrite (proj2 (Z.leb_le (fst r) (fst p))) by lia.
    now rewrite (proj2 (Z.eqb_eq (fst r) (fst p))) by lia.
  - intros H. unfold pm, PagePlusRecordMerger.GetNext. simpl.
    now rewrite (proj2 (Z.leb_gt (fst r) (fst p))) by lia.
  - intros Hp Hr out. unfold out.
    rewrite (drain_merge_records _ pm) by lia.
    unfold pm. cbn [PagePlusRecordMerger.pmi_ PagePlusRecordMerger.it_].
    split.
    + now apply merge_records_ascending.
    + apply merge_records_newest_wins; [assumption|].
      now apply ascending_nondecreasing.
Qed.

Lemma GetNext_smaller_key_memory_wins_witness :
  let pm := PagePlusRecordMerger.mk [(1010, "v1"); (1020, "w")]
                                    [(1010, "v1'"); (1030, "v3")] in
  PagePlusRecordMerger.GetNext pm =
  Some ((1010, "v1'"),
        PagePlusRecordMerger.mk [(1020, "w")] [(1030, "v3")]) /\
  ascending (PagePlusRecordMerger.drain (PagePlusRecordMerger.size pm) pm) /\
  Permutation (PagePlusRecordMerger.drain (PagePlusRecordMerger.size pm) pm)
              (newest_wins [(1010, "v1"); (1020, "w")]
                           [(1010, "v1'"); (1030, "v3")]).
Proof.
  intros pm.
  destruct (GetNext_smaller_key_memory_wins
              (1010, "v1") [(1020, "w")] (1010, "v1'") [(1030, "v3")])
    as (_ & Heq & _ & Hdrain).
  split; [apply Heq; reflexivity|].
  apply Hdrain; unfold ascending; repeat constructor; simpl; lia.
Defined.

End MergeFacts.

(** ** Loading records into new pages *)

Module LoadFacts.
Import Manager.

Lemma firstn_plus {A : Type} (a b : nat) (l : list A) :
  firstn (a + b) l = firstn a l ++ firstn b (skipn a l).
Proof.
  revert l. induction a as [|a IH]; intros [|x l]; simpl;
    try reflexivity.
  - now rewrite firstn_nil.
  - now rewrite IH.
Qed.

Lemma range_length (recs : list Rec) (i j : Z) :
  0 <= i <= j -> j <= Z.of_nat (length recs) ->
  Z.of_nat (length (range recs i j)) = j - i.
Proof.
  intros Hij Hj. unfold range, at_index.
  rewrite length_firstn, length_skipn. lia.
Qed.

Lemma range_app (recs : list Rec) (i j k : Z) :
  0 <= i <= j -> j <= k ->
  range recs i j ++ range recs j k = range recs i k.
Proof.
  intros Hij Hjk. unfold range, at_index.
  replace (Z.to_nat (k - i)) with (Z.to_nat (j - i) + Z.to_nat (k - j))%nat
    by lia.
  rewrite firstn_plus. f_equal. f_equal.
  rewrite skipn_skipn. f_equal. lia.
Qed.

Lemma range_all (recs : list Rec) :
  range recs 0 (Z.of_nat (length recs)) = recs.
Proof.
  unfold range, at_index. simpl. rewrite Z.sub_0_r, Nat2Z.id.
  apply firstn_all.
Qed.

Lemma range_empty (recs : list Rec) (i : Z) : range recs i i = [].
Proof. unfold range. now rewrite Z.sub_diag. Qed.

Lemma write_new_page_written (m : t) (page : Page) :
  exists x,
    written_ (snd (write_new_page m page)) = written_ m ++ [(x, page)] /\
    records_per_page_goal (snd (write_new_page m page)) =
    records_per_page_goal m.
Proof.
  unfold write_new_page.
  destruct (FreeList_Get (free_ m) 1) as [[x|] free']; simpl; eauto.
Qed.

(** The loop writes full pages, in order, until fewer than [goal] records are
    left. *)
Lemma LoadIntoNewPages_loop_spec (sequence_number : Z) (lb ub : Key)
      (recs : list Rec) (goal : Z) :
  0 < goal -> Z.of_nat (length recs) + goal < two64 ->
  forall (fuel : nat) (m : t) (s : Z) (bounds : list (Key * SegmentInfo)),
    records_per_page_goal m = goal ->
    0 <= s <= Z.of_nat (length recs) ->
    Z.of_nat (length recs) - s < Z.of_nat fuel * goal ->
    exists m' s' bounds' W,
      LoadIntoNewPages_loop fuel m sequence_number lb ub recs s (s + goal)
                            bounds = Some (m', s', bounds') /\
      s <= s' <= Z.of_nat (length recs) /\
      Z.of_nat (length recs) - s' < goal /\
      records_per_page_goal m' = goal /\
      written_ m' = written_ m ++ W /\
      concat (map (fun w => page_records (snd w)) W) = range recs s s' /\
      Forall (fun w => full_page goal sequence_number (snd w)) W /\
      length bounds' = (length bounds + length W)%nat.
Proof.
  intros Hg Hn. induction fuel as [|fuel IH]; intros m s bounds Hm Hs Hfuel.
  - exists m, s, bounds, []. simpl.
    destruct (Z.leb_spec (s + goal) (Z.of_nat (length recs))); [lia|].
    rewrite app_nil_r, range_empty.
    repeat split;
      try (reflexivity || lia || constructor || assumption || (simpl; lia)).
  - cbn [LoadIntoNewPages_loop].
    destruct (Z.leb_spec (s + goal) (Z.of_nat (length recs))) as [Hle|Hgt].
    + cbn [LoadIntoPage].
      set (page := ClearAllOverflows (SetSequenceNumber _ sequence_number)).
      destruct (write_new_page_written m page) as (x & Hw & Hgoal).
      destruct (write_new_page m page) as [seg_id m1] eqn:Ew.
      simpl in Hw, Hgoal. rewrite Hm.
      replace ((s + goal + goal) mod two64) with (s + goal + goal)
        by (symmetry; apply Z.mod_small; lia).
      destruct (IH m1 (s + goal)
                   (bounds ++
                    [(if s =? 0 then lb else first_key (at_index recs s),
                      mkSegmentInfo seg_id None false)]))
        as (m' & s' & bounds' & W & Hrun & Hs' & Hrest & Hgoal' & Hw' & Hcat
            & Hfull & Hlen).
      * congruence.
      * lia.
      * rewrite Nat2Z.inj_succ in Hfuel. lia.
      * exists m', s', bounds', ((x, page) :: W).
        rewrite Hrun. repeat split; try lia; try assumption.
        -- rewrite Hw', Hw, <- app_assoc. reflexivity.
        -- cbn [map concat]. rewrite Hcat. subst page. cbn [snd page_records
             ClearAllOverflows SetSequenceNumber].
           apply range_app; lia.
        -- constructor; [|exact Hfull].
           subst page. repeat split.
           cbn [snd page_records ClearAllOverflows SetSequenceNumber].
           rewrite range_length; lia.
        -- rewrite Hlen, length_app. simpl. lia.
    + exists m, s, bounds, [].
      rewrite app_nil_r, range_empty.
      repeat split;
      try (reflexivity || lia || constructor || assumption || (simpl; lia)).
Qed.

Lemma skipn_length_app {A : Type} (l l' : list A) :
  skipn (length l) (l ++ l') = l'.
Proof. induction l as [|x l IH]; simpl; [reflexivity | exact IH]. Qed.

(** What [LoadIntoNewPages] writes: full pages stamped with the sequence number
    of the call, then at most one partial page stamped with 0; together they
    hold the records in order, and every page has its index entry. *)
Lemma LoadIntoNewPages_spec (fuel : nat) (m : t) (sequence_number : Z)
      (lb ub : Key) (recs : list Rec) :
  0 < records_per_page_goal m ->
  Z.of_nat (length recs) + records_per_page_goal m < two64 ->
  (length recs < fuel)%nat ->
  exists bounds m' full partial,
    LoadIntoNewPages fuel m sequence_number lb ub recs = Some (bounds, m') /\
    written_ m' = written_ m ++ full ++ partial /\
    Forall (fun w => full_page (records_per_page_goal m) sequence_number (snd w))
           full /\
    (partial = [] \/
     exists w, partial = [w] /\
               partial_page (records_per_page_goal m) (snd w)) /\
    concat (map (fun w => page_records (snd w)) (full ++ partial)) = recs /\
    length bounds = length (full ++ partial).
Proof.
  intros Hg Hn Hfuel.
  destruct (LoadIntoNewPages_loop_spec sequence_number lb ub recs
              (records_per_page_goal m) Hg Hn fuel m 0 [] eq_refl)
    as (m1 & s' & bounds1 & W & Hrun & Hs' & Hrest & Hgoal1 & Hw1 & Hcat
        & Hfull & Hlen); [lia | nia |].
  unfold LoadIntoNewPages. rewrite Z.add_0_l in Hrun. rewrite Hrun.
  destruct (Z.ltb_spec s' (Z.of_nat (length recs))) as [Hlt|Hge].
  - cbn [LoadIntoPage].
    set (page := ClearAllOverflows (SetSequenceNumber _ 0)).
    destruct (write_new_page_written m1 page) as (x & Hw & _).
    destruct (write_new_page m1 page) as [seg_id m2] eqn:Ew.
    simpl in Hw.
    exists (bounds1 ++
            [(if s' =? 0 then lb else first_key (at_index recs s'),
              mkSegmentInfo seg_id None false)]), m2, W, [(x, page)].
    split; [reflexivity|].
    split; [now rewrite Hw, Hw1, <- app_assoc|].
    split; [exact Hfull|].
    assert (Hpage : page_records page =
                    range recs s' (Z.of_nat (length recs))) by reflexivity.
    split; [|split].
    + right. exists (x, page). split; [reflexivity|].
      unfold partial_page. cbn [snd]. rewrite Hpage.
      rewrite range_length by lia. repeat split; lia.
    + rewrite map_app, concat_app, Hcat. cbn [map concat snd].
      rewrite Hpage, app_nil_r, range_app by lia. apply range_all.
    + rewrite !length_app, Hlen. simpl. lia.
  - exists bounds1, m1, W, [].
    split; [reflexivity|].
    split; [now rewrite app_nil_r|].
    split; [exact Hfull|].
    split; [now left|].
    rewrite app_nil_r. split; [|simpl in Hlen; lia].
    rewrite Hcat. replace s' with (Z.of_nat (length recs)) by lia.
    apply range_all.
Qed.



Lemma merge_records_length (ps rs : list Rec) :
  (length (merge_records ps rs) <= length ps + length rs)%nat.
Proof.
  revert ps rs. apply (MergeFacts.merge_ind (fun ps rs =>
    (length (merge_records ps rs) <= length ps + length rs)%nat)).
  - intros rs. rewrite MergeFacts.merge_records_nil_l. simpl. lia.
  - intros ps. rewrite MergeFacts.merge_records_nil_r. simpl. lia.
  - intros p ps r rs E IH. rewrite MergeFacts.merge_records_eq by exact E.
    simpl in *. lia.
  - intros p ps r rs E IH. rewrite MergeFacts.merge_records_lt by exact E.
    simpl in *. lia.
  - intros p ps r rs E IH. rewrite MergeFacts.merge_records_gt by exact E.
    simpl in *. lia.
Qed.




(** Scenario 6 of the specification, with two records to the page: the full
    page carries the sequence number 5 of the operation, the trailing page the
    sequence number 0; the two old pages are zeroed afterwards. *)
Example scenario_flatten_pages :
  match FlattenChain 5 flatten_example 1000 [(1010, "v1'"); (1020, "v2")] with
  | Some m' =>
      map (fun p => (page_records p, page_sequence_number p))
          (written_since flatten_example m')
  | None => []
  end =
  [([(1000, "v0"); (1010, "v1'")], 5); ([(1020, "v2")], 0);
   ([], 0); ([], 0)]%string.
Proof. reflexivity. Qed.

End LoadFacts.

(** ** Outcomes *)

Lemma bind_Done {A B : Type} (a : A) (f : A -> outcome B) :
  (Done a ≫= f) = f a.
Proof. reflexivity. Qed.

Lemma assert_true_bind {B : Type} (f : unit -> outcome B) :
  (assert true ≫= f) = f tt.
Proof. reflexivity. Qed.

(** ** Reorganizing an overflow chain *)

Module ReorgFacts.
Import Reorg.

Lemma ceil_div_le (n r m : Z) :
  0 < r -> 0 <= n -> n <= m * r -> ceil_div n r <= m.
Proof.
  intros Hr Hn Hm. unfold ceil_div.
  pose proof (Z.div_mod n r ltac:(lia)) as Hdm.
  pose proof (Z.mod_pos_bound n r Hr) as Hb.
  destruct (Z.eqb_spec (n mod r) 0) as [E|E]; nia.
Qed.

Lemma ceil_div_mono (a b r : Z) :
  0 < r -> 0 <= a <= b -> ceil_div a r <= ceil_div b r.
Proof.
  intros Hr Hab. apply ceil_div_le; [exact Hr | lia |].
  unfold ceil_div.
  pose proof (Z.div_mod b r ltac:(lia)) as Hdm.
  pose proof (Z.mod_pos_bound b r Hr) as Hb.
  destruct (Z.eqb_spec (b mod r) 0) as [E|E]; nia.
Qed.

Lemma ceil_div_pred (n r : Z) :
  0 < r -> 1 <= n -> ceil_div n r = (n - 1) / r + 1.
Proof.
  intros Hr Hn. unfold ceil_div.
  pose proof (Z.div_mod n r ltac:(lia)) as Hdm.
  pose proof (Z.mod_pos_bound n r Hr) as Hb.
  destruct (Z.eqb_spec (n mod r) 0) as [E|E].
  - rewrite E in Hdm. rewrite Z.add_0_r.
    assert ((n - 1) / r = n / r - 1); [|lia].
    symmetry. apply (Z.div_unique_pos (n - 1) r (n / r - 1) (r - 1)); lia.
  - assert ((n - 1) / r = n / r); [|lia].
    symmetry. apply (Z.div_unique_pos (n - 1) r (n / r) (n mod r - 1)); lia.
Qed.

Lemma div_succ (i r : Z) :
  0 < r -> 1 <= i ->
  i / r = (i - 1) / r + (if i mod r =? 0 then 1 else 0).
Proof.
  intros Hr Hi.
  pose proof (ceil_div_pred i r Hr Hi) as H. unfold ceil_div in H.
  destruct (i mod r =? 0); lia.
Qed.

Lemma inserted_app (a b : list Call) :
  inserted (a ++ b) = (inserted a + inserted b)%nat.
Proof. unfold inserted. now rewrite List.filter_app, length_app. Qed.

Lemma unfix_clean_calls (db : DBImpl) (chain : list Z) :
  unfix_clean db chain =
  {| frames_ := frames_ db; model_ := model_ db;
     next_page_id_ := next_page_id_ db;
     calls_ := calls_ db ++ map (fun page_id => UnfixPage page_id false) chain |}.
Proof.
  unfold unfix_clean. revert db.
  induction chain as [|x chain IH]; intros db; simpl.
  - rewrite app_nil_r. now destruct db.
  - rewrite IH. unfold call. simpl. now rewrite <- app_assoc.
Qed.

Section Geometry.
Variables UsableSize PerRecordMetadataSize : Z.
Variable records_per_page_of : Z -> Z -> Z -> Z.

Abbreviation rpp := (records_per_page records_per_page_of).

Lemma set_page_fill_pct_same (dist : KeyDistHints) :
  set_page_fill_pct dist (page_fill_pct dist) = dist.
Proof. now destruct dist. Qed.

(** The adjustment loop stops at the latest at a fill percentage of 100, where
    a page is assumed to take enough records. *)
Lemma adjust_fill_spec (max_fanout : Z) (fuel : nat) (dist : KeyDistHints) :
  0 <= page_fill_pct dist <= 100 ->
  100 - page_fill_pct dist <= Z.of_nat fuel ->
  (forall f, page_fill_pct dist <= f <= 100 ->
             0 < rpp (set_page_fill_pct dist f)) ->
  0 <= num_keys dist <= max_fanout * rpp (set_page_fill_pct dist 100) ->
  exists f,
    page_fill_pct dist <= f <= 100 /\
    adjust_fill records_per_page_of fuel max_fanout dist =
    Done (set_page_fill_pct dist f) /\
    0 < rpp (set_page_fill_pct dist f) /\
    ceil_div (num_keys dist) (rpp (set_page_fill_pct dist f)) <= max_fanout.
Proof.
  revert dist. induction fuel as [|fuel IH]; intros dist Hpct Hfuel Hpos Hfit.
  - assert (E : page_fill_pct dist = 100) by lia.
    exists 100. rewrite <- E, set_page_fill_pct_same in *.
    assert (Hr : 0 < rpp dist) by (apply (Hpos (page_fill_pct dist)); lia).
    assert (Hc : ceil_div (num_keys dist) (rpp dist) <= max_fanout)
      by (apply ceil_div_le; lia).
    repeat split; try lia.
    simpl. unfold num_pages.
    destruct (Z.eqb_spec (rpp dist) 0); [lia|]. simpl.
    destruct (Z.gtb_spec (ceil_div (num_keys dist) (rpp dist)) max_fanout);
      [lia | reflexivity].
  - assert (Hr : 0 < rpp dist).
    { rewrite <- (set_page_fill_pct_same dist). apply Hpos. lia. }
    cbn [adjust_fill]. unfold num_pages.
    destruct (Z.eqb_spec (rpp dist) 0); [lia|]. simpl.
    destruct (Z.gtb_spec (ceil_div (num_keys dist) (rpp dist)) max_fanout)
      as [Hgt|Hle].
    + assert (Hlt : page_fill_pct dist < 100).
      { destruct (Z.eq_dec (page_fill_pct dist) 100) as [E|E]; [|lia].
        exfalso. rewrite <- E, set_page_fill_pct_same in Hfit.
        pose proof (ceil_div_le (num_keys dist) (rpp dist) max_fanout).
        lia. }
      rewrite (Z.mod_small (page_fill_pct dist + 1)) by lia.
      destruct (IH (set_page_fill_pct dist (page_fill_pct dist + 1)))
        as (f & Hf & Hrun & Hrf & Hcf).
      * simpl. lia.
      * simpl. lia.
      * intros f Hf. simpl in Hf. apply (Hpos f). lia.
      * exact Hfit.
      * exists f. simpl in Hf. split; [lia|]. split; [exact Hrun|].
        split; [exact Hrf | exact Hcf].
    + exists (page_fill_pct dist). rewrite set_page_fill_pct_same.
      repeat split; (lia || assumption).
Qed.

(** The first pass counts the records and notes one key per started page after
    the first. *)
Lemma first_pass_from (r : Z) (pmi : list (Slice * Slice)) (c : Z)
      (keys : list Slice) :
  0 < r -> 1 <= c ->
  fst (first_pass r pmi c keys) = c + Z.of_nat (length pmi) /\
  Z.of_nat (length (snd (first_pass r pmi c keys))) =
  Z.of_nat (length keys) + (c + Z.of_nat (length pmi) - 1) / r - (c - 1) / r.
Proof.
  intros Hr. revert c keys.
  induction pmi as [|x pmi IH]; intros c keys Hc.
  - simpl. rewrite Z.add_0_r. lia.
  - cbn [first_pass]. destruct (IH (c + 1)
      (if (c mod r =? 0) && (c >? 0) then keys ++ [fst x] else keys))
      as [H1 H2]; [lia|].
    rewrite H1, H2. cbn [length]. rewrite Nat2Z.inj_succ.
    replace (c + 1 + Z.of_nat (length pmi) - 1)
      with (c + Z.succ (Z.of_nat (length pmi)) - 1) by lia.
    replace (c + 1 - 1) with c by lia.
    rewrite (div_succ c r Hr Hc). split; [lia|].
    destruct (Z.gtb_spec c 0); [|lia].
    destruct (c mod r =? 0); simpl; rewrite ?length_app; simpl; lia.
Qed.

Lemma first_pass_spec (r : Z) (pmi : list (Slice * Slice)) (lower : Slice) :
  0 < r -> pmi <> [] ->
  fst (first_pass r pmi 0 [lower]) = Z.of_nat (length pmi) /\
  Z.of_nat (length (snd (first_pass r pmi 0 [lower]))) =
  ceil_div (Z.of_nat (length pmi)) r.
Proof.
  intros Hr Hne. destruct pmi as [|x pmi]; [congruence|].
  cbn [first_pass]. rewrite andb_false_r.
  destruct (first_pass_from r pmi 1 [lower] Hr) as [H1 H2]; [lia|].
  replace (0 + 1) with 1 by lia.
  rewrite H1, H2, ceil_div_pred by (simpl; lia).
  cbn [length]. rewrite Nat2Z.inj_succ. simpl Z.of_nat.
  replace (1 - 1) with 0 by lia. rewrite Z.div_0_l by lia.
  split; [lia|].
  replace (Z.succ (Z.of_nat (length pmi)) - 1)
    with (1 + Z.of_nat (length pmi) - 1) by lia. lia.
Qed.

Lemma make_pages_spec (count i : nat) (keys : list Slice) :
  (i + count < length keys)%nat ->
  exists pages,
    make_pages count i keys = Done pages /\ length pages = count.
Proof.
  revert i. induction count as [|count IH]; intros i Hlen.
  - exists []. now split.
  - cbn [make_pages].
    destruct (nth_error keys i) as [lo|] eqn:Elo;
      [|apply nth_error_None in Elo; lia].
    destruct (nth_error keys (S i)) as [hi|] eqn:Ehi;
      [|apply nth_error_None in Ehi; lia].
    destruct (IH (S i)) as (pages & Hrun & Hlen'); [lia|].
    simpl. rewrite Hrun. simpl. eexists. split; [reflexivity|].
    simpl. now rewrite Hlen'.
Qed.

Lemma populate_spec (r : Z) (pmi2 : list (Slice * Slice)) (c : Z)
      (pages : list Page) :
  0 < r -> 0 <= c ->
  (pmi2 <> [] ->
   (c + Z.of_nat (length pmi2) - 1) / r < Z.of_nat (length pages)) ->
  exists pages',
    populate r pmi2 c pages = Done pages' /\ length pages' = length pages.
Proof.
  intros Hr. revert c pages.
  induction pmi2 as [|x pmi2 IH]; intros c pages Hc Hfit.
  - exists pages. now split.
  - cbn [populate].
    specialize (Hfit ltac:(discriminate)). cbn [length] in Hfit.
    rewrite Nat2Z.inj_succ in Hfit.
    assert (Hi : c / r <= (c + Z.succ (Z.of_nat (length pmi2)) - 1) / r)
      by (apply Z.div_le_mono; lia).
    assert (Hc0 : 0 <= c / r) by (apply Z.div_pos; lia).
    destruct (nth_error pages (Z.to_nat (c / r))) as [page|] eqn:E;
      [|apply nth_error_None in E; lia].
    simpl.
    destruct (IH (c + 1) (<[Z.to_nat (c / r) := Put page x]> pages))
      as (pages' & Hrun & Hlen).
    + lia.
    + intros _. rewrite length_insert.
      replace (c + 1 + Z.of_nat (length pmi2) - 1)
        with (c + Z.succ (Z.of_nat (length pmi2)) - 1) by lia.
      exact Hfit.
    + exists pages'. split; [exact Hrun|].
      now rewrite Hlen, length_insert.
Qed.

Lemma commit_pages_spec (chain : list Z) (pages : list Page)
      (indices : list nat) (db : DBImpl) :
  Forall (fun i => (i < length pages)%nat) indices ->
  exists db' new,
    commit_pages chain pages db indices = Done db' /\
    calls_ db' = calls_ db ++ new /\
    inserted new = length indices.
Proof.
  intros Hall. revert db.
  induction Hall as [|i indices Hi Hall IH]; intros db.
  - exists db, []. simpl. now rewrite app_nil_r.
  - cbn [commit_pages]. unfold commit_page.
    destruct (nth_error pages i) as [page|] eqn:E;
      [|apply nth_error_None in E; lia].
    simpl.
    destruct (Nat.ltb_spec i (length chain)) as [Hlt|Hge].
    + destruct (nth_error chain i) as [frame_id|] eqn:Ec;
        [|apply nth_error_None in Ec; lia].
      simpl.
      match goal with
      | |- context [commit_pages chain pages ?d indices] =>
          destruct (IH d) as (db' & new & Hrun & Hcalls & Hins)
      end.
      exists db', ([ModelInsert (lower_boundary page) frame_id;
                    UnfixPage frame_id true] ++ new).
      split; [exact Hrun|]. split.
      * rewrite Hcalls. simpl. now rewrite <- !app_assoc.
      * rewrite inserted_app, Hins. reflexivity.
    + simpl.
      match goal with
      | |- context [commit_pages chain pages ?d indices] =>
          destruct (IH d) as (db' & new & Hrun & Hcalls & Hins)
      end.
      exists db', ([AllocatePage (next_page_id_ db);
                    FixPage (next_page_id_ db) true true;
                    ModelInsert (lower_boundary page) (next_page_id_ db);
                    UnfixPage (next_page_id_ db) true] ++ new).
      split; [exact Hrun|]. split.
      * rewrite Hcalls. simpl. now rewrite <- !app_assoc.
      * rewrite inserted_app, Hins. reflexivity.
Qed.

Lemma clear_surplus_spec (surplus : list Z) (db : DBImpl) :
  exists new,
    calls_ (clear_surplus db surplus) = calls_ db ++ new /\ inserted new = 0%nat.
Proof.
  revert db. induction surplus as [|x surplus IH]; intros db.
  - exists []. simpl. now rewrite app_nil_r.
  - cbn [clear_surplus].
    destruct (IH (call (set_frame db x zero_page) (UnfixPage x true)))
      as (new & Hcalls & Hins).
    exists ([UnfixPage x true] ++ new). split.
    + rewrite Hcalls. simpl. now rewrite <- app_assoc.
    + rewrite inserted_app, Hins. reflexivity.
Qed.

Abbreviation estimate :=
  (estimated_per_page UsableSize PerRecordMetadataSize).

Abbreviation reorganize :=
  (ReorganizeOverflowChain UsableSize PerRecordMetadataSize records_per_page_of).

Lemma mapM_head (db : DBImpl) (chain : list Z) (chain_pages : list Page) :
  mapM (fun page_id => frames_ db !! page_id) chain = Some chain_pages ->
  chain <> [] ->
  exists head_id head rest,
    nth_error chain 0 = Some head_id /\
    frames_ db !! head_id = Some head /\
    chain_pages = head :: rest.
Proof.
  intros HM Hne. apply mapM_Some in HM.
  destruct HM as [|head_id head chain' rest Hh HM]; [congruence|].
  exists head_id, head, rest. now repeat split.
Qed.

(** The main path of the reorganization returns OK and inserts at most
    [max_reorg_fanout] pages into the model. *)
Lemma reorganize_main_path (fuel : nat) (options : Options) (db : DBImpl)
      (chain : list Z) (fill_pct : Z) (chain_pages : list Page) (head : Page)
      (rest : list Page) :
  Z.of_nat (length chain) <> 1 ->
  Z.of_nat (length chain) <= max_reorg_fanout options ->
  mapM (fun page_id => frames_ db !! page_id) chain = Some chain_pages ->
  chain_pages = head :: rest ->
  let effective_record_size :=
    (record_size_hint options
     - Z.of_nat (String.length (GetKeyPrefix head))) mod two64 in
  let fit := fun f =>
    records_per_page_of effective_record_size (key_size_hint options) f
    mod two64 in
  (effective_record_size + PerRecordMetadataSize) mod two64 <> 0 ->
  0 <= fill_pct <= 100 ->
  (100 <= fuel)%nat ->
  (forall f, fill_pct <= f <= 100 -> 0 < fit f) ->
  estimate options head <= fit 100 ->
  let record_count := Z.of_nat (length (chain_records chain_pages)) in
  1 <= record_count <=
  (Z.of_nat (length chain) * estimate options head) mod two64 ->
  exists db' new,
    reorganize fuel options db chain fill_pct = Done (OK, db') /\
    calls_ db' = calls_ db ++ new /\
    Z.of_nat (inserted new) <= max_reorg_fanout options.
Proof.
  intros Hne1 Hacc HM Hpages eff fit Hper Hpct Hfuel Hpos Hfull record_count
         Hcount.
  assert (Hrc : Z.of_nat (length (chain_records chain_pages)) = record_count)
    by reflexivity.
  clearbody record_count.
  destruct (mapM_head db chain chain_pages HM) as
    (head_id & head' & rest' & Hhead_id & Hhead & Hpages').
  { intros ->. simpl in HM. injection HM as <-. discriminate. }
  assert (head' = head) by congruence. subst head'. clear Hpages'.
  unfold ReorganizeOverflowChain.
  destruct (Z.eqb_spec (Z.of_nat (length chain)) 1); [contradiction|].
  destruct (Z.gtb_spec (Z.of_nat (length chain)) (max_reorg_fanout options));
    [lia|].
  rewrite Hhead_id. cbn [from_option mbind outcome_bind]. rewrite Hhead.
  cbn [from_option mbind outcome_bind].
  unfold initial_hints. fold eff.
  destruct (Z.eqb_spec ((eff + PerRecordMetadataSize) mod two64) 0);
    [contradiction|].
  cbn [negb assert mbind outcome_bind].
  set (dist0 := mkKeyDistHints _ fill_pct eff (key_size_hint options)).
  assert (Hest0 : 0 <= estimate options head).
  { unfold estimated_per_page. fold eff. apply Z.div_pos.
    - apply Z.mod_pos_bound. unfold two64. lia.
    - pose proof (Z.mod_pos_bound (eff + PerRecordMetadataSize) two64).
      unfold two64 in *. lia. }
  assert (Hkeys : num_keys dist0 =
                  (Z.of_nat (length chain) * estimate options head)
                  mod two64) by reflexivity.
  assert (Hkeys_le : num_keys dist0 <=
                     Z.of_nat (length chain) * estimate options head).
  { rewrite Hkeys. apply Z.mod_le; [nia | unfold two64; lia]. }
  destruct (adjust_fill_spec (max_reorg_fanout options) fuel dist0)
    as (f & Hf & Hrun & Hrf & Hcf).
  { simpl. exact Hpct. }
  { simpl. lia. }
  { intros f Hf. simpl in Hf. apply (Hpos f Hf). }
  { split; [rewrite Hkeys; apply Z.mod_pos_bound; unfold two64; lia|].
    change (rpp (set_page_fill_pct dist0 100)) with (fit 100). nia. }
  rewrite Hrun. cbn [mbind outcome_bind].
  assert (Hnk : num_keys (set_page_fill_pct dist0 f) = num_keys dist0)
    by reflexivity.
  remember (set_page_fill_pct dist0 f) as dist eqn:Edist.
  remember (rpp dist) as r eqn:Er.
  rewrite HM. cbn [from_option mbind outcome_bind].
  assert (Hrecs : chain_records chain_pages <> []).
  { intros E. rewrite E in Hrc. simpl in Hrc. lia. }
  destruct (first_pass_spec r (chain_records chain_pages)
              (lower_boundary head) Hrf Hrecs) as [Hfp1 Hfp2].
  destruct (first_pass r (chain_records chain_pages) 0
                       [lower_boundary head]) as [count keys] eqn:Efp.
  simpl in Hfp1, Hfp2. rewrite Hrc in Hfp1, Hfp2. subst count.
  destruct (Z.leb_spec record_count (num_keys dist)) as [Hle|Hgt]; [|lia].
  cbn [assert mbind outcome_bind].
  unfold num_pages.
  replace (rpp (set_num_keys dist record_count)) with r
    by (rewrite Er; reflexivity).
  destruct (Z.eqb_spec r 0); [lia|].
  cbn [mbind outcome_bind num_keys set_num_keys].
  pose proof (ceil_div_pred record_count r Hrf ltac:(lia)) as Hpred.
  pose proof (Z.div_pos (record_count - 1) r ltac:(lia) Hrf) as Hdiv0.
  assert (Hmono : ceil_div record_count r <= ceil_div (num_keys dist0) r)
    by (apply ceil_div_mono; [exact Hrf | lia]).
  remember (ceil_div record_count r) as new_num_pages eqn:Enew.
  rewrite length_app. cbn [length].
  destruct (Z.eqb_spec (Z.of_nat (length keys + 1)) (new_num_pages + 1));
    [|lia].
  cbn [assert mbind outcome_bind].
  destruct (make_pages_spec (Z.to_nat new_num_pages) 0
                            (keys ++ [upper_boundary head]))
    as (pages & Hmk & Hlen).
  { rewrite length_app. simpl. lia. }
  rewrite Hmk. cbn [mbind outcome_bind].
  destruct (populate_spec r (chain_records chain_pages) 0 pages Hrf)
    as (pages' & Hpop & Hlen'); [lia | |].
  { intros _. rewrite Hlen, Hrc, Z.add_0_l. lia. }
  rewrite Hpop. cbn [mbind outcome_bind].
  destruct (commit_pages_spec chain pages' (rev (seq 0 (Z.to_nat new_num_pages)))
                              db) as (db1 & new1 & Hcommit & Hcalls1 & Hins1).
  { apply List.Forall_forall. intros i Hi. apply in_rev, in_seq in Hi. lia. }
  rewrite Hcommit. cbn [mbind outcome_bind].
  destruct (clear_surplus_spec (skipn (Z.to_nat new_num_pages) chain) db1)
    as (new2 & Hcalls2 & Hins2).
  eexists. exists (new1 ++ new2). split; [reflexivity|]. split.
  - rewrite Hcalls2, Hcalls1. now rewrite <- app_assoc.
  - rewrite inserted_app, Hins1, Hins2, length_rev, length_seq. lia.
Qed.

(** The loop that raises the fill percentage terminates on the hints of an
    accepted chain, with a number of pages within the fanout. *)
Lemma fill_adjustment_terminates (fuel : nat) (options : Options)
      (chain_size : Z) (head : Page) (fill_pct : Z) :
  0 <= chain_size <= max_reorg_fanout options ->
  let effective_record_size :=
    (record_size_hint options
     - Z.of_nat (String.length (GetKeyPrefix head))) mod two64 in
  let fit := fun f =>
    records_per_page_of effective_record_size (key_size_hint options) f
    mod two64 in
  (effective_record_size + PerRecordMetadataSize) mod two64 <> 0 ->
  0 <= fill_pct <= 100 ->
  (100 <= fuel)%nat ->
  (forall f, fill_pct <= f <= 100 -> 0 < fit f) ->
  estimate options head <= fit 100 ->
  exists dist0 dist n,
    initial_hints UsableSize PerRecordMetadataSize options chain_size
                  (Z.of_nat (String.length (GetKeyPrefix head))) fill_pct
    = Done dist0 /\
    adjust_fill records_per_page_of fuel (max_reorg_fanout options) dist0
    = Done dist /\
    num_pages records_per_page_of dist = Done n /\
    n <= max_reorg_fanout options.
Proof.
  intros Hacc eff fit Hper Hpct Hfuel Hpos Hfull.
  unfold initial_hints. fold eff.
  destruct (Z.eqb_spec ((eff + PerRecordMetadataSize) mod two64) 0);
    [contradiction|].
  cbn [negb]. rewrite assert_true_bind.
  set (dist0 := mkKeyDistHints _ fill_pct eff (key_size_hint options)).
  assert (Hest0 : 0 <= estimate options head).
  { unfold estimated_per_page. fold eff. apply Z.div_pos.
    - apply Z.mod_pos_bound. unfold two64. lia.
    - pose proof (Z.mod_pos_bound (eff + PerRecordMetadataSize) two64).
      unfold two64 in *. lia. }
  assert (Hkeys : num_keys dist0 =
                  (chain_size * estimate options head) mod two64)
    by reflexivity.
  assert (Hkeys_le : num_keys dist0 <= chain_size * estimate options head).
  { rewrite Hkeys. apply Z.mod_le; [nia | unfold two64; lia]. }
  destruct (adjust_fill_spec (max_reorg_fanout options) fuel dist0)
    as (f & Hf & Hrun & Hrf & Hcf).
  { simpl. exact Hpct. }
  { simpl. lia. }
  { intros f Hf. simpl in Hf. apply (Hpos f Hf). }
  { split; [rewrite Hkeys; apply Z.mod_pos_bound; unfold two64; lia|].
    change (rpp (set_page_fill_pct dist0 100)) with (fit 100). nia. }
  exists dist0, (set_page_fill_pct dist0 f),
         (ceil_div (num_keys dist0) (rpp (set_page_fill_pct dist0 f))).
  split; [reflexivity|]. split; [exact Hrun|]. split; [|exact Hcf].
  unfold num_pages.
  destruct (Z.eqb_spec (rpp (set_page_fill_pct dist0 f)) 0); [lia|].
  reflexivity.
Qed.


(** C5, as the code has it.  A chain whose length exceeds [max_reorg_fanout]
    and is not 1 makes [ReorganizeOverflowChain] return InvalidArgument after
    unfixing every frame of the chain, in order, as not dirty; the frames, the
    model and the file manager are left as they were. *)
Theorem too_long_chain_is_rejected
        (fuel : nat) (options : Options) (db : DBImpl) (chain : list Z)
        (fill_pct : Z) :
  Z.of_nat (length chain) <> 1 ->
  Z.of_nat (length chain) > max_reorg_fanout options ->
  reorganize fuel options db chain fill_pct =
  Done (InvalidArgument,
        {| frames_ := frames_ db; model_ := model_ db;
           next_page_id_ := next_page_id_ db;
           calls_ := calls_ db
                     ++ map (fun page_id => UnfixPage page_id false) chain |}).
Proof.
  intros Hne Hgt. unfold ReorganizeOverflowChain.
  destruct (Z.eqb_spec (Z.of_nat (length chain)) 1); [contradiction|].
  destruct (Z.gtb_spec (Z.of_nat (length chain)) (max_reorg_fanout options));
    [|lia].
  now rewrite unfix_clean_calls.
Qed.

(** C6.  On a chain of one page [ReorganizeOverflowChain] returns OK after the
    single call that unfixes the page as not dirty: no frame is written, no
    page is allocated and the model is not touched. *)
Theorem single_page_chain_is_noop
        (fuel : nat) (options : Options) (db : DBImpl) (page_id : Z)
        (fill_pct : Z) :
  reorganize fuel options db [page_id] fill_pct =
  Done (OK,
        {| frames_ := frames_ db; model_ := model_ db;
           next_page_id_ := next_page_id_ db;
           calls_ := calls_ db ++ [UnfixPage page_id false] |}).
Proof. reflexivity. Qed.

End Geometry.

(** C5 as stated fails for a chain of one page when [max_reorg_fanout] is 0:
    the chain is longer than the fanout, yet the call returns OK. *)
Lemma chain_of_one_exceeding_fanout_returns_OK :
  Z.of_nat (length [7]) > max_reorg_fanout (mkOptions 0 16 8) /\
  ReorganizeOverflowChain 4096 8 (fun _ _ f => f) 0 (mkOptions 0 16 8)
                          (mkDBImpl ∅ ∅ 0 []) [7] 50 =
  Done (OK, mkDBImpl ∅ ∅ 0 [UnfixPage 7 false]) /\
  ~ (exists db',
        ReorganizeOverflowChain 4096 8 (fun _ _ f => f) 0 (mkOptions 0 16 8)
                                (mkDBImpl ∅ ∅ 0 []) [7] 50 =
        Done (InvalidArgument, db')).
Proof.
  split; [simpl; lia|]. split; [reflexivity|].
  intros [db' H]. discriminate H.
Qed.

Lemma too_long_chain_is_rejected_witness :
  ReorganizeOverflowChain 4096 8 (fun _ _ f => f) 0 (mkOptions 4 16 8)
                          (mkDBImpl ∅ ∅ 0 []) [1; 2; 3; 4; 5] 50 =
  Done (InvalidArgument,
        mkDBImpl ∅ ∅ 0 [UnfixPage 1 false; UnfixPage 2 false; UnfixPage 3 false;
                        UnfixPage 4 false; UnfixPage 5 false]).
Proof.
  apply (too_long_chain_is_rejected 4096 8 (fun _ _ f => f) 0
           (mkOptions 4 16 8) (mkDBImpl ∅ ∅ 0 []) [1; 2; 3; 4; 5] 50).
  - simpl. lia.
  - simpl. lia.
Defined.


End ReorgFacts.

(** ** Page lower boundaries *)

Module BoundaryFacts.
Import PageBoundaries.

(** The halving search returns the first key of the range on which the
    comparison fails, provided the comparison holds on an initial part of the
    range only. *)
Lemma lower_bound_loop_spec (comp : Key -> bool) (fuel : nat) (first len : Z) :
  0 <= len < 2 ^ Z.of_nat fuel ->
  0 <= first -> first + len < two64 ->
  (forall a b, first <= a <= b -> b < first + len ->
               comp b = true -> comp a = true) ->
  exists r,
    lower_bound_loop fuel comp first len = Done r /\
    first <= r <= first + len /\
    (forall k, first <= k < r -> comp k = true) /\
    (r < first + len -> comp r = false).
Proof.
  revert first len. induction fuel as [|fuel IH]; intros first len Hlen Hf Hu Hm.
  - simpl in Hlen. assert (len = 0) by lia. subst len.
    exists first. simpl. repeat split; intros; lia.
  - cbn [lower_bound_loop].
    destruct (Z.gtb_spec len 0) as [Hpos|Hz].
    + rewrite Z.shiftr_div_pow2 by lia. change (2 ^ 1) with 2.
      rewrite Nat2Z.inj_succ, Z.pow_succ_r in Hlen by lia.
      pose proof (Z.div_mod len 2 ltac:(lia)) as Hdm.
      pose proof (Z.mod_pos_bound len 2 ltac:(lia)) as Hmb.
      assert (Hmid : (first + len / 2) mod two64 = first + len / 2)
        by (apply Z.mod_small; lia).
      rewrite Hmid.
      destruct (comp (first + len / 2)) eqn:Ec.
      * assert (Hnext : (first + len / 2 + 1) mod two64 = first + len / 2 + 1)
          by (apply Z.mod_small; lia).
        rewrite Hnext.
        destruct (IH (first + len / 2 + 1) (len - len / 2 - 1))
          as (r & Hrun & Hr & Hbelow & Hat); try lia.
        { intros a b Hab Hb. apply Hm; lia. }
        exists r. split; [exact Hrun|]. split; [lia|]. split.
        -- intros k Hk. destruct (Z.le_gt_cases k (first + len / 2)).
           ++ apply (Hm k (first + len / 2)); (lia || assumption).
           ++ apply Hbelow. lia.
        -- intros Hlt. apply Hat. lia.
      * destruct (IH first (len / 2)) as (r & Hrun & Hr & Hbelow & Hat);
          try lia.
        { intros a b Hab Hb. apply Hm; lia. }
        exists r. split; [exact Hrun|]. split; [lia|]. split.
        -- exact Hbelow.
        -- intros Hlt. destruct (Z.eq_dec r (first + len / 2)) as [->|Hne];
             [exact Ec | apply Hat; lia].
    + assert (len = 0) by lia. subst len.
      exists first. repeat split; intros; lia.
Qed.

Lemma to_signed64_small (x : Z) : 0 <= x < 2 ^ 63 -> to_signed64 x = x.
Proof.
  intros Hx. unfold to_signed64.
  rewrite Z.mod_small by (unfold two64; lia).
  destruct (Z.ltb_spec x (2 ^ 63)); lia.
Qed.

Lemma lower_bound_spec (comp : Key -> bool) (lower upper : Key) :
  0 <= lower <= upper -> upper < two64 -> upper - lower < 2 ^ 63 ->
  (forall a b, lower <= a <= b -> b < upper ->
               comp b = true -> comp a = true) ->
  exists r,
    lower_bound comp lower upper = Done r /\
    lower <= r <= upper /\
    (forall k, lower <= k < r -> comp k = true) /\
    (r < upper -> comp r = false).
Proof.
  intros Hlu Hu Hw Hm. unfold lower_bound.
  rewrite to_signed64_small by lia.
  destruct (lower_bound_loop_spec comp 64 lower (upper - lower))
    as (r & Hrun & Hr & Hbelow & Hat).
  - change (Z.of_nat 64) with 64. lia.
  - lia.
  - lia.
  - intros a b Hab Hb. apply Hm; lia.
  - exists r. split; [exact Hrun|]. split; [lia|]. split; [exact Hbelow|].
    intros Hlt. apply Hat. lia.
Qed.

Section Model.
Variable PageForKey : Key -> Manager.Line64 -> Z -> Key -> Z.
Variable page_to_key : Manager.Line64 -> Z -> Key.
Variable seg : Segment.
Variable line : Manager.Line64.

Abbreviation pfk := (PageForKey (base_key seg) line (page_count seg)).

(** What the function relies on: the model sends growing keys to growing
    pages, and the search bounds enclose the boundary. *)
Hypothesis monotone :
  forall a b, 0 <= a <= b -> b < two64 -> pfk a <= pfk b.
Hypothesis every_page_hit :
  forall i, 1 <= i < page_count seg -> exists k, 0 <= k < two64 /\ pfk k = i.
Hypothesis bounds_enclose :
  forall i, 1 <= i < page_count seg ->
    let '(lower, upper) := search_bounds PageForKey page_to_key seg line i in
    lower < upper /\ upper - lower < 2 ^ 63 /\ pfk lower < i <= pfk upper.

Lemma search_bounds_range (i : Z) :
  let '(lower, upper) := search_bounds PageForKey page_to_key seg line i in
  0 <= lower < two64 /\ 0 <= upper < two64.
Proof.
  unfold search_bounds.
  destruct (_ >=? i); split; apply Z.mod_pos_bound; unfold two64; lia.
Qed.

Lemma boundary_for_spec (i : Z) :
  1 <= i < page_count seg ->
  exists b,
    boundary_for PageForKey page_to_key seg line i = Done b /\
    smallest_key_of_page PageForKey seg line i b.
Proof.
  intros Hi. unfold boundary_for.
  pose proof (bounds_enclose i Hi) as Henc.
  pose proof (search_bounds_range i) as Hrange.
  destruct (search_bounds PageForKey page_to_key seg line i) as [lower upper].
  destruct Henc as (Hlt & Hwidth & Hlow & Hup).
  destruct Hrange as [Hl Hu].
  rewrite (proj2 (Z.ltb_lt lower upper) Hlt), assert_true_bind.
  destruct (lower_bound_spec (fun k => pfk k <? i) lower upper)
    as (r & Hrun & Hr & Hbelow & Hat); try lia.
  { intros a b Hab Hb Hcb. apply Z.ltb_lt in Hcb. apply Z.ltb_lt.
    pose proof (monotone a b). lia. }
  rewrite Hrun, bind_Done.
  (* the search has moved past [lower] *)
  assert (Hgt : lower < r).
  { destruct (Z.eq_dec r lower) as [->|]; [|lia].
    specialize (Hat Hlt). apply Z.ltb_ge in Hat. lia. }
  assert (Hge : i <= pfk r).
  { destruct (Z.eq_dec r upper) as [->|]; [exact Hup|].
    specialize (Hat ltac:(lia)). now apply Z.ltb_ge in Hat. }
  assert (Hsmaller : forall k, 0 <= k < r -> pfk k < i).
  { intros k Hk. destruct (Z.le_gt_cases lower k).
    - apply Z.ltb_lt. apply Hbelow. lia.
    - pose proof (monotone k lower). lia. }
  assert (Heq : pfk r = i).
  { destruct (every_page_hit i Hi) as (k & Hk & Hpk).
    destruct (Z.lt_ge_cases k r) as [Hkr|Hkr].
    - specialize (Hsmaller k ltac:(lia)). lia.
    - pose proof (monotone r k). lia. }
  rewrite Heq, Z.eqb_refl, assert_true_bind.
  rewrite (Z.mod_small (r - 1)) by lia.
  rewrite (proj2 (Z.ltb_lt (pfk (r - 1)) i)) by (apply Hsmaller; lia).
  rewrite orb_true_r, assert_true_bind.
  exists r. split; [reflexivity|].
  split; [lia|]. split; [exact Heq | exact Hsmaller].
Qed.

Lemma boundaries_loop_spec (remaining : nat) (i : Z) (acc : list Key) :
  1 <= i -> i + Z.of_nat remaining = page_count seg ->
  exists bs,
    boundaries_loop PageForKey page_to_key remaining seg line i acc
    = Done (acc ++ bs) /\
    length bs = remaining /\
    boundaries_from PageForKey seg line i bs.
Proof.
  revert i acc. induction remaining as [|n IH]; intros i acc Hi Hn.
  - exists []. simpl. now rewrite app_nil_r.
  - cbn [boundaries_loop].
    destruct (boundary_for_spec i) as (b & Hrun & Hb); [lia|].
    rewrite Hrun, bind_Done.
    destruct (IH (i + 1) (acc ++ [b])) as (bs & Hloop & Hlen & Hbs); [lia..|].
    exists (b :: bs). rewrite Hloop, <- app_assoc.
    split; [reflexivity|]. split; [simpl; now rewrite Hlen|].
    split; assumption.
Qed.

(** Consecutive smallest keys grow strictly. *)
Lemma boundaries_from_sorted (i : Z) (b : Key) (bs : list Key) :
  0 <= b < two64 -> pfk b < i ->
  boundaries_from PageForKey seg line i bs ->
  StronglySorted Z.lt (b :: bs) /\ Forall (fun x => b < x) bs.
Proof.
  revert i b. induction bs as [|c bs IH]; intros i b Hb Hpb Hbs.
  - split; repeat constructor.
  - destruct Hbs as [(Hc & Hpc & Hmin) Hrest].
    assert (Hbc : b < c).
    { destruct (Z.lt_ge_cases b c); [assumption|].
      pose proof (monotone c b). lia. }
    destruct (IH (i + 1) c Hc ltac:(lia) Hrest) as [Hsorted Hall].
    assert (Hall' : Forall (fun x => b < x) (c :: bs)).
    { constructor; [exact Hbc|].
      eapply List.Forall_impl; [|exact Hall]. simpl. intros; lia. }
    split; [|exact Hall'].
    constructor; [exact Hsorted | exact Hall'].
Qed.

Lemma boundaries_from_nth (i : Z) (bs : list Key) (j : nat) (b : Key) :
  boundaries_from PageForKey seg line i bs ->
  nth_error bs j = Some b ->
  smallest_key_of_page PageForKey seg line (i + Z.of_nat j) b.
Proof.
  revert i j. induction bs as [|c bs IH]; intros i j Hbs Hj.
  - now destruct j.
  - destruct Hbs as [Hc Hrest]. destruct j as [|j].
    + simpl in Hj. injection Hj as ->. now rewrite Z.add_0_r.
    + replace (i + Z.of_nat (S j)) with (i + 1 + Z.of_nat j) by lia.
      now apply IH.
Qed.


End Model.


End BoundaryFacts.

(** ** MemTable: ordering of the table and iteration *)

Module MemTableOrder.
Import MemTable MemTableIterator.

Lemma slice_compare_antisym (a b : Slice) :
  slice_compare a b = - slice_compare b a.
Proof.
  unfold slice_compare. rewrite (String.compare_antisym b a).
  now destruct (String.compare a b).
Qed.

(** When a record compares less: its key is smaller, or the keys agree and its
    sequence number is greater. *)
Lemma Comparator_neg_iff (a b : MemRecord) :
  Comparator a b < 0 <->
  slice_compare (rec_key a) (rec_key b) < 0 \/
  (rec_key a = rec_key b /\ sequence_number a > sequence_number b).
Proof.
  unfold Comparator.
  destruct (Z.eqb_spec (slice_compare (rec_key a) (rec_key b)) 0) as [E|E];
    simpl.
  - pose proof (proj1 (slice_compare_eq0 _ _) E) as Hk.
    destruct (Z.ltb_spec (sequence_number a) (sequence_number b)) as [Hlt|Hge].
    + split; [lia | intros [Hc|[_ Hc]]; lia].
    + destruct (Z.gtb_spec (sequence_number a) (sequence_number b))
        as [Hgt|Hle].
      * split; [intros _; right; split; [exact Hk | lia] | lia].
      * split; [lia | intros [Hc|[_ Hc]]; lia].
  - split; [now left|]. intros [Hc|[Hk _]]; [exact Hc|].
    apply slice_compare_eq0 in Hk. contradiction.
Qed.

(** Swapping the arguments of the comparator negates its result. *)
Lemma Comparator_antisym (a b : MemRecord) :
  Comparator a b = - Comparator b a.
Proof.
  unfold Comparator.
  rewrite (slice_compare_antisym (rec_key b) (rec_key a)).
  destruct (Z.eqb_spec (slice_compare (rec_key a) (rec_key b)) 0) as [E|E].
  - rewrite E. simpl.
    destruct (Z.ltb_spec (sequence_number a) (sequence_number b));
      destruct (Z.gtb_spec (sequence_number a) (sequence_number b));
      destruct (Z.ltb_spec (sequence_number b) (sequence_number a));
      destruct (Z.gtb_spec (sequence_number b) (sequence_number a)); lia.
  - destruct (Z.eqb_spec (- slice_compare (rec_key a) (rec_key b)) 0);
      [lia|]. simpl. lia.
Qed.

(** Only a record with the same key and the same sequence number compares
    equal. *)
Lemma Comparator_zero_iff (a b : MemRecord) :
  Comparator a b = 0 <->
  rec_key a = rec_key b /\ sequence_number a = sequence_number b.
Proof.
  unfold Comparator.
  destruct (Z.eqb_spec (slice_compare (rec_key a) (rec_key b)) 0) as [E|E];
    simpl.
  - pose proof (proj1 (slice_compare_eq0 _ _) E) as Hk.
    destruct (Z.ltb_spec (sequence_number a) (sequence_number b));
      destruct (Z.gtb_spec (sequence_number a) (sequence_number b));
      split; intros; try lia; split; (assumption || lia).
  - split; [contradiction|]. intros [Hk _].
    apply slice_compare_eq0 in Hk. contradiction.
Qed.

Lemma Comparator_trans (a b c : MemRecord) :
  Comparator a b < 0 -> Comparator b c < 0 -> Comparator a c < 0.
Proof.
  intros Hab Hbc.
  apply Comparator_neg_iff in Hab. apply Comparator_neg_iff in Hbc.
  apply Comparator_neg_iff.
  destruct Hab as [Hab|[Hab Hsab]]; destruct Hbc as [Hbc|[Hbc Hsbc]].
  - left. now apply slice_compare_trans with (rec_key b).
  - left. now rewrite <- Hbc.
  - left. now rewrite Hab.
  - right. split; [congruence | lia].
Qed.

(** X1.  The comparator is a strict total order on records: swapping the
    arguments negates the result, the result is 0 exactly for records with the
    same key and the same sequence number, and "compares less" is
    transitive. *)
Theorem Comparator_strict_total_order :
  (forall a b, Comparator a b = - Comparator b a) /\
  (forall a b, Comparator a b = 0 <->
               rec_key a = rec_key b /\
               sequence_number a = sequence_number b) /\
  (forall a b c, Comparator a b < 0 -> Comparator b c < 0 ->
                 Comparator a c < 0).
Proof.
  split; [|split].
  - intros a b. apply Comparator_antisym.
  - intros a b. apply Comparator_zero_iff.
  - intros a b c. apply Comparator_trans.
Qed.

Lemma before_trans (a b c : MemRecord) : before a b -> before b c -> before a c.
Proof. apply Comparator_trans. Qed.

(** A record that is newer than everything in an ordered table is inserted
    into its place. *)
Lemma Insert_ordered (r : MemRecord) (l : list MemRecord) :
  Forall (fun x => sequence_number x < sequence_number r) l ->
  StronglySorted before l ->
  StronglySorted before (SkipList_Insert r l) /\
  (forall x, Forall (before x) l -> before x r ->
             Forall (before x) (SkipList_Insert r l)).
Proof.
  intros Hnew Hsorted.
  induction Hsorted as [|x l Hl IH Hx]; simpl.
  - split; [repeat constructor|]. intros x _ Hxr. now repeat constructor.
  - inversion Hnew as [|? ? Hxs Hnew']; subst.
    specialize (IH Hnew'). destruct IH as [IH1 IH2].
    destruct (Z.ltb_spec (Comparator x r) 0) as [Hlt|Hge].
    + split.
      * constructor; [exact IH1|]. now apply IH2.
      * intros y Hy Hyr. inversion Hy; subst.
        constructor; [assumption|]. now apply IH2.
    + assert (Hrx : before r x).
      { unfold before.
        rewrite (Comparator_antisym r x).
        assert (Comparator x r <> 0) by (rewrite Comparator_zero_iff; lia).
        lia. }
      split.
      * constructor; [now constructor|].
        constructor; [exact Hrx|].
        eapply List.Forall_impl; [|exact Hx].
        intros y Hy. now apply before_trans with x.
      * intros y Hy Hyr. constructor; assumption.
Qed.

Section Trace.
Variables kWrite kDelete : EntryType.

(** What every table reached from a fresh one satisfies. *)
Lemma run_invariant (ops : list Op) (m : t) :
  stamped m -> StronglySorted before (table_ m) ->
  next_sequence_num_ m + Z.of_nat (length ops) <= 2 ^ 56 ->
  let m' := fold_left (apply_op kWrite kDelete) ops m in
  stamped m' /\
  StronglySorted before (table_ m') /\
  length (table_ m') = (length (table_ m) + length ops)%nat /\
  next_sequence_num_ m' = next_sequence_num_ m + Z.of_nat (length ops).
Proof.
  revert m. induction ops as [|o ops IH]; intros m Hm Hs Hlen; simpl.
  - split; [exact Hm|]. split; [exact Hs|]. split; lia.
  - rewrite length_cons, Nat2Z.inj_succ in Hlen.
    assert (Hnext : next_sequence_num_ m < 2 ^ 56) by lia.
    destruct (MemTableFacts.stamped_apply_op kWrite kDelete m o Hm Hnext)
      as [Hm' Hn'].
    assert (Hstep : StronglySorted before (table_ (apply_op kWrite kDelete m o))
                    /\ length (table_ (apply_op kWrite kDelete m o)) =
                       S (length (table_ m))).
    { destruct Hm as [Hn Hall].
      assert (Hkey : forall key value e,
                 StronglySorted before
                   (table_ (snd (InsertImpl m key value e))) /\
                 length (table_ (snd (InsertImpl m key value e))) =
                 S (length (table_ m))).
      { intros key value e. unfold InsertImpl. cbn [snd table_].
        rewrite MemTableFacts.stamp_value by lia.
        assert (He : 0 <= e mod 256 < 256) by (apply Z.mod_pos_bound; lia).
        split.
        - apply Insert_ordered; [|exact Hs]. cbn [sequence_number].
          eapply List.Forall_impl; [|exact Hall]. simpl. intros; lia.
        - generalize (mkRecord key value (next_sequence_num_ m * 256 + e mod 256)).
          intros r. clear. induction (table_ m) as [|x l IHl]; simpl;
            [reflexivity|].
          destruct (Comparator x r <? 0); simpl; [now rewrite IHl|reflexivity]. }
      destruct o; apply Hkey. }
    destruct Hstep as [Hs' Hl'].
    destruct (IH (apply_op kWrite kDelete m o) Hm' Hs' ltac:(lia))
      as (H1 & H2 & H3 & H4).
    split; [exact H1|]. split; [exact H2|]. split; lia.
Qed.

End Trace.

(** X2.  After a trace of at most 2^56 operations on a fresh MemTable the table
    is ordered by the comparator (keys ascending, and for one key the newer
    record first), it holds one record for every operation of the trace (older
    versions are kept), and the counter equals the number of operations. *)
Theorem table_ordered_keeps_versions (kWrite kDelete : EntryType)
        (ops : list Op) :
  Z.of_nat (length ops) <= 2 ^ 56 ->
  StronglySorted (fun a b => Comparator a b < 0)
                 (table_ (run kWrite kDelete ops)) /\
  length (table_ (run kWrite kDelete ops)) = length ops /\
  next_sequence_num_ (run kWrite kDelete ops) = Z.of_nat (length ops).
Proof.
  intros Hlen.
  destruct (run_invariant kWrite kDelete ops create MemTableFacts.stamped_create)
    as (_ & H2 & H3 & H4).
  - constructor.
  - simpl. lia.
  - split; [exact H2|]. split; [exact H3 | exact H4].
Qed.

Lemma table_ordered_keeps_versions_witness :
  StronglySorted (fun a b => Comparator a b < 0)
                 (table_ (run 0 1 [OpPut "5" "a"; OpDelete "5"; OpPut "3" "c"]))
  /\ length (table_ (run 0 1 [OpPut "5" "a"; OpDelete "5"; OpPut "3" "c"])) = 3%nat
  /\ next_sequence_num_ (run 0 1 [OpPut "5" "a"; OpDelete "5"; OpPut "3" "c"])
     = 3.
Proof.
  apply (table_ordered_keeps_versions 0 1
           [OpPut "5" "a"; OpDelete "5"; OpPut "3" "c"]).
  simpl. lia.
Defined.

Lemma slice_compare_lt_le (a b c : Slice) :
  slice_compare a b < 0 -> slice_compare b c <= 0 -> slice_compare a c < 0.
Proof.
  intros Hab Hbc.
  destruct (slice_compare_cases b c) as [H|[H|H]].
  - now apply slice_compare_trans with b.
  - now subst c.
  - apply slice_compare_pos in H. lia.
Qed.

Lemma slice_compare_le_lt (a b c : Slice) :
  slice_compare a b <= 0 -> slice_compare b c < 0 -> slice_compare a c < 0.
Proof.
  intros Hab Hbc.
  destruct (slice_compare_cases a b) as [H|[H|H]].
  - now apply slice_compare_trans with b.
  - now subst b.
  - apply slice_compare_pos in H. lia.
Qed.

Lemma before_key_le (a b : MemRecord) :
  before a b -> slice_compare (rec_key a) (rec_key b) <= 0.
Proof.
  intros H. apply Comparator_neg_iff in H. destruct H as [H|[H _]]; [lia|].
  rewrite H, slice_compare_refl. lia.
Qed.

Lemma ordered_keys_nondecreasing (l : list MemRecord) :
  StronglySorted before l -> keys_nondecreasing l.
Proof.
  induction 1 as [|x l Hl IH Hx]; constructor; [exact IH|].
  eapply List.Forall_impl; [|exact Hx]. apply before_key_le.
Qed.

(** What [Next] steps over carries the key it left, and what it stops at
    carries a greater key. *)
Lemma skip_same_key_spec (k : Slice) (rest : list MemRecord) :
  keys_nondecreasing rest ->
  Forall (fun y => slice_compare k (rec_key y) <= 0) rest ->
  exists skipped,
    rest = skipped ++ skip_same_key k rest /\
    Forall (fun y => rec_key y = k) skipped /\
    Forall (fun y => slice_compare k (rec_key y) < 0) (skip_same_key k rest) /\
    keys_nondecreasing (skip_same_key k rest).
Proof.
  intros Hsorted Hle. induction Hsorted as [|y rest Hrest IH Hy]; simpl.
  - exists []. repeat split; constructor.
  - inversion Hle as [|? ? Hky Hle']; subst.
    destruct (Z.eqb_spec (slice_compare k (rec_key y)) 0) as [E|E]; simpl.
    + destruct (IH Hle') as (skipped & Heq & Hsk & Hgt & Hs).
      exists (y :: skipped). split; [simpl; now rewrite <- Heq|].
      split; [|split; assumption].
      constructor; [|exact Hsk]. symmetry. now apply slice_compare_eq0.
    + exists []. split; [reflexivity|]. split; [constructor|].
      assert (Hlt : slice_compare k (rec_key y) < 0) by lia.
      split; [|now constructor].
      constructor; [exact Hlt|].
      eapply List.Forall_impl; [|exact Hy]. simpl.
      intros z Hz. now apply slice_compare_lt_le with (rec_key y).
Qed.

Lemma Get_skipped (skipped l : list MemRecord) (n : Z) (k0 k : Slice) :
  Forall (fun y => rec_key y = k0) skipped ->
  Forall (fun y => sequence_number y <= two64 - 1) skipped ->
  slice_compare k0 k < 0 ->
  Get (mkMemTable (skipped ++ l) n) k = Get (mkMemTable l n) k.
Proof.
  intros Hk Hs Hlt. induction Hk as [|y skipped Hy Hk IH]; [reflexivity|].
  inversion Hs; subst. simpl.
  rewrite MemTableFacts.Get_cons by assumption.
  rewrite (proj2 (Z.ltb_lt _ _) Hlt). now apply IH.
Qed.

Lemma drain_from (fuel : nat) (l : list MemRecord) (e : Slice * EntryType * Slice) :
  In e (drain fuel l) -> exists r, In r l /\ entry r = e.
Proof.
  revert l. induction fuel as [|fuel IH]; intros l; [now destruct l|].
  destruct l as [|x rest]; [contradiction|]. cbn [drain Next].
  intros [<-|Hin].
  - exists x. split; [now left | reflexivity].
  - destruct (IH _ Hin) as (r & Hr & He). exists r. split; [|exact He].
    right. clear -Hr. induction rest as [|y rest IHr]; [contradiction|].
    simpl in Hr.
    destruct (negb (slice_compare (rec_key x) (rec_key y) =? 0));
      [exact Hr | right; now apply IHr].
Qed.

Lemma skip_same_key_length (k : Slice) (rest : list MemRecord) :
  (length (skip_same_key k rest) <= length rest)%nat.
Proof.
  induction rest as [|y rest IH]; simpl; [lia|].
  destruct (negb (slice_compare k (rec_key y) =? 0)); simpl; lia.
Qed.

(** Iterating an ordered list of records yields, for every key in it, what
    [Get] answers for that key, and nothing else. *)
Lemma drain_Get (fuel : nat) (l : list MemRecord) (n : Z) :
  (length l <= fuel)%nat -> keys_nondecreasing l ->
  Forall (fun y => sequence_number y <= two64 - 1) l ->
  (forall k t v,
      In (k, t, v) (drain fuel l) <->
      Get (mkMemTable l n) k = (OK, Some (t, v))) /\
  StronglySorted
    (fun e1 e2 => slice_compare (fst (fst e1)) (fst (fst e2)) < 0)
    (drain fuel l).
Proof.
  revert l. induction fuel as [|fuel IH]; intros l Hlen Hsorted Hseq.
  - destruct l; [|simpl in Hlen; lia]. split; [|constructor].
    intros k t v. simpl. split; [contradiction | discriminate].
  - destruct l as [|x rest].
    { split; [|constructor]. intros k t v. simpl.
      split; [contradiction | discriminate]. }
    inversion Hsorted as [|? ? Hrest Hx]; subst.
    inversion Hseq as [|? ? Hxs Hrs]; subst.
    destruct (skip_same_key_spec (rec_key x) rest Hrest Hx)
      as (skipped & Heq & Hsk & Hgt & Hs').
    assert (Hrs' : Forall (fun y => sequence_number y <= two64 - 1)
                          (skipped ++ skip_same_key (rec_key x) rest))
      by (now rewrite <- Heq).
    apply Forall_app in Hrs'. destruct Hrs' as [Hskseq Hlseq].
    pose proof (skip_same_key_length (rec_key x) rest) as Hl'.
    simpl in Hlen.
    destruct (IH (skip_same_key (rec_key x) rest) ltac:(lia) Hs' Hlseq)
      as [IHget IHsorted].
    assert (Hbeyond : forall e,
               In e (drain fuel (skip_same_key (rec_key x) rest)) ->
               slice_compare (rec_key x) (fst (fst e)) < 0).
    { intros e He. destruct (drain_from _ _ _ He) as (r & Hr & <-).
      rewrite List.Forall_forall in Hgt. now apply Hgt. }
    cbn [drain Next]. split.
    + intros k t v. rewrite MemTableFacts.Get_cons by exact Hxs.
      destruct (slice_compare_cases (rec_key x) k) as [Hlt|[Heqk|Hgtk]].
      * rewrite (proj2 (Z.ltb_lt _ _) Hlt).
        rewrite Heq at 2. rewrite (Get_skipped skipped _ n (rec_key x) k)
          by assumption.
        rewrite <- IHget. simpl. split; [|now right].
        intros [E|Hin]; [|exact Hin].
        injection E as <- _ _. now apply slice_compare_irrefl in Hlt.
      * subst k. rewrite slice_compare_refl. simpl. split.
        -- intros [E|Hin]; [now injection E as <- <- |].
           apply Hbeyond in Hin. simpl in Hin.
           now apply slice_compare_irrefl in Hin.
        -- intros E. injection E as <- <-. now left.
      * destruct (Z.ltb_spec (slice_compare (rec_key x) k) 0) as [Hc|Hc].
        { exfalso. apply (slice_compare_irrefl k).
          now apply slice_compare_trans with (rec_key x). }
        destruct (Z.eqb_spec (slice_compare k (rec_key x)) 0) as [E|E];
          [lia|]. simpl. split; [|discriminate].
        intros [E'|Hin].
        -- injection E' as <- _ _. now apply slice_compare_irrefl in Hgtk.
        -- apply Hbeyond in Hin. simpl in Hin. exfalso.
           apply (slice_compare_irrefl k).
           now apply slice_compare_trans with (rec_key x).
    + constructor; [exact IHsorted|].
      apply List.Forall_forall. intros e He. now apply Hbeyond.
Qed.

(** X3.  After a trace of at most 2^56 operations on a fresh MemTable, the
    iteration from the first record yields entries with strictly ascending
    keys, so one entry for a key, and it yields the entry [(k, t, v)] exactly
    when [Get] answers [(t, v)] for the key [k]: the latest operation on
    every key that was written, tombstones included, and nothing else. *)
Theorem iteration_yields_latest_per_key (kWrite kDelete : EntryType)
        (ops : list Op) :
  Z.of_nat (length ops) <= 2 ^ 56 ->
  let m := run kWrite kDelete ops in
  let out := drain (length (table_ m)) (SeekToFirst m) in
  StronglySorted
    (fun e1 e2 => slice_compare (fst (fst e1)) (fst (fst e2)) < 0) out /\
  forall k t v, In (k, t, v) out <-> Get m k = (OK, Some (t, v)).
Proof.
  intros Hlen m out.
  destruct (run_invariant kWrite kDelete ops create MemTableFacts.stamped_create)
    as ((Hn & Hall) & Hsorted & _ & _); [constructor | simpl; lia |].
  fold (run kWrite kDelete ops) in Hn, Hall, Hsorted. fold m in Hn, Hall, Hsorted.
  destruct (drain_Get (length (table_ m)) (table_ m) (next_sequence_num_ m))
    as [Hget Hout].
  - lia.
  - now apply ordered_keys_nondecreasing.
  - eapply List.Forall_impl; [|exact Hall]. simpl. unfold two64. intros; lia.
  - split; [exact Hout|]. intros k t v. unfold out, SeekToFirst.
    rewrite Hget. now destruct m.
Qed.

Lemma iteration_yields_latest_per_key_witness :
  let m := run 0 1 [OpPut "5" "a"; OpPut "5" "b"; OpDelete "5"; OpPut "7" "c"] in
  let out := drain (length (table_ m)) (SeekToFirst m) in
  StronglySorted
    (fun e1 e2 => slice_compare (fst (fst e1)) (fst (fst e2)) < 0) out /\
  forall k t v, In (k, t, v) out <-> Get m k = (OK, Some (t, v)).
Proof.
  apply (iteration_yields_latest_per_key 0 1
           [OpPut "5" "a"; OpPut "5" "b"; OpDelete "5"; OpPut "7" "c"]).
  simpl. lia.
Defined.

(** X4.  After a trace of at most 2^56 operations on a fresh MemTable,
    [Seek] leaves the iterator at the first record whose key is not smaller
    than the target: every record in front of the position has a smaller key,
    and no record from the position on has. *)
Theorem Seek_first_key_not_below (kWrite kDelete : EntryType) (ops : list Op)
        (target : Slice) :
  Z.of_nat (length ops) <= 2 ^ 56 ->
  let m := run kWrite kDelete ops in
  exists skipped,
    table_ m = skipped ++ Seek target (GetIterator m) /\
    Forall (fun y => slice_compare (rec_key y) target < 0) skipped /\
    Forall (fun y => slice_compare target (rec_key y) <= 0)
           (Seek target (GetIterator m)).
Proof.
  intros Hlen m.
  destruct (run_invariant kWrite kDelete ops create MemTableFacts.stamped_create)
    as ((Hn & Hall) & Hsorted & _ & _); [constructor | simpl; lia |].
  fold (run kWrite kDelete ops) in Hn, Hall, Hsorted. fold m in Hn, Hall, Hsorted.
  apply ordered_keys_nondecreasing in Hsorted.
  assert (Hseq : Forall (fun y => sequence_number y <= two64 - 1) (table_ m)).
  { eapply List.Forall_impl; [|exact Hall]. simpl. unfold two64. intros; lia. }
  unfold Seek, GetIterator. clear Hall Hn.
  induction Hsorted as [|x l Hl IH Hx].
  - exists []. repeat split; constructor.
  - inversion Hseq as [|? ? Hxs Hls]; subst. cbn [SkipList_Seek].
    rewrite MemTableFacts.Comparator_sentinel by exact Hxs.
    destruct (Z.ltb_spec (slice_compare (rec_key x) target) 0) as [Hlt|Hge].
    + destruct (IH Hls) as (skipped & Heq & Hsk & Hrest).
      exists (x :: skipped). split; [simpl; now rewrite <- Heq|].
      split; [now constructor | exact Hrest].
    + exists []. split; [reflexivity|]. split; [constructor|].
      assert (Htx : slice_compare target (rec_key x) <= 0).
      { rewrite slice_compare_antisym. lia. }
      constructor; [exact Htx|].
      eapply List.Forall_impl; [|exact Hx]. simpl. intros z Hz.
      destruct (slice_compare_cases target (rec_key x)) as [H|[H|H]].
      * pose proof (slice_compare_lt_le _ _ _ H Hz). lia.
      * now subst target.
      * apply slice_compare_pos in H. lia.
Qed.

Lemma Seek_first_key_not_below_witness :
  let m := run 0 1 [OpPut "5" "a"; OpPut "3" "b"; OpPut "7" "c"] in
  exists skipped,
    table_ m = skipped ++ Seek "4" (GetIterator m) /\
    Forall (fun y => slice_compare (rec_key y) "4" < 0) skipped /\
    Forall (fun y => slice_compare "4" (rec_key y) <= 0)
           (Seek "4" (GetIterator m)).
Proof.
  apply (Seek_first_key_not_below 0 1
           [OpPut "5" "a"; OpPut "3" "b"; OpPut "7" "c"] "4").
  simpl. lia.
Defined.

End MemTableOrder.

(** ** The merger across successive page chains *)

Module RewriteFacts.
Import Manager Rewrite.

(** X5.  [GetNext] fails exactly on a merger without records.  Otherwise it
    returns the head of one of the two sides, and it consumes one record, or
    two when the heads of both sides carry the same key. *)
Theorem GetNext_consumes_records (pm : PagePlusRecordMerger.t) :
  (PagePlusRecordMerger.HasRecords pm = false <->
   PagePlusRecordMerger.GetNext pm = None) /\
  (forall r pm',
      PagePlusRecordMerger.GetNext pm = Some (r, pm') ->
      (head (PagePlusRecordMerger.pmi_ pm) = Some r \/
       head (PagePlusRecordMerger.it_ pm) = Some r) /\
      (PagePlusRecordMerger.size pm' < PagePlusRecordMerger.size pm)%nat /\
      (PagePlusRecordMerger.size pm <= PagePlusRecordMerger.size pm' + 2)%nat /\
      (PagePlusRecordMerger.size pm = (PagePlusRecordMerger.size pm' + 2)%nat <->
       exists p, head (PagePlusRecordMerger.pmi_ pm) = Some p /\
                 fst p = fst r /\
                 head (PagePlusRecordMerger.it_ pm) = Some r)).
Proof.
  destruct pm as [ps rs].
  unfold PagePlusRecordMerger.GetNext, PagePlusRecordMerger.HasRecords,
    PagePlusRecordMerger.HasPageRecords, PagePlusRecordMerger.size.
  cbn [PagePlusRecordMerger.pmi_ PagePlusRecordMerger.it_].
  destruct ps as [|p ps], rs as [|r0 rs]; cbn [head length orb].
  - split; [split; reflexivity|]. discriminate.
  - split; [split; intros H; simpl in H;
           try discriminate H; destruct (_ <=? _) in H; discriminate H|]. intros r pm' E. injection E as <- <-.
    cbn [PagePlusRecordMerger.pmi_ PagePlusRecordMerger.it_ length].
    split; [now right|]. split; [lia|]. split; [lia|].
    split; [lia|]. intros (p & Hp & _). discriminate.
  - split; [split; intros H; simpl in H;
           try discriminate H; destruct (_ <=? _) in H; discriminate H|]. intros r pm' E. injection E as <- <-.
    cbn [PagePlusRecordMerger.pmi_ PagePlusRecordMerger.it_ length].
    split; [now left|]. split; [lia|]. split; [lia|].
    split; [lia|]. intros (p0 & _ & _ & Hr). discriminate.
  - split; [split; intros H; simpl in H;
           try discriminate H; destruct (_ <=? _) in H; discriminate H|]. intros r pm' E.
    cbv zeta in E.
    destruct (Z.leb_spec (fst r0) (fst p)) as [Hle|Hgt].
    + injection E as <- <-.
      cbn [PagePlusRecordMerger.pmi_ PagePlusRecordMerger.it_ length].
      split; [now right|].
      destruct (Z.eqb_spec (fst r0) (fst p)) as [Heq|Hne]; cbn [length].
      * split; [lia|]. split; [lia|]. split; [|lia].
        intros _. exists p. now repeat split.
      * split; [lia|]. split; [lia|]. split; [lia|].
        intros (p0 & Hp & Hk & _). injection Hp as <-. congruence.
    + injection E as <- <-.
      cbn [PagePlusRecordMerger.pmi_ PagePlusRecordMerger.it_ length].
      split; [now left|]. split; [lia|]. split; [lia|]. split; [lia|].
      intros (p0 & Hp & Hk & Hr). injection Hr as Hr. subst. lia.
Qed.

(** Feeding the page records of a merger: the page side is used up, and the
    records offered are the front of the merge with whatever chain comes
    next. *)
Lemma feed_page_records_spec (ps rs : list Rec) :
  forall fuel, (length ps + length rs <= fuel)%nat ->
    exists out rs',
      feed_page_records fuel (PagePlusRecordMerger.mk ps rs) =
      (out, PagePlusRecordMerger.mk [] rs') /\
      forall q, merge_records (ps ++ q) rs = out ++ merge_records q rs'.
Proof.
  revert ps rs. apply (MergeFacts.merge_ind (fun ps rs =>
    forall fuel, (length ps + length rs <= fuel)%nat ->
      exists out rs',
        feed_page_records fuel (PagePlusRecordMerger.mk ps rs) =
        (out, PagePlusRecordMerger.mk [] rs') /\
        forall q, merge_records (ps ++ q) rs = out ++ merge_records q rs')).
  - intros rs fuel _. exists [], rs. split; [now destruct fuel | reflexivity].
  - intros ps. induction ps as [|p ps IH]; intros fuel Hfuel.
    + exists [], []. split; [now destruct fuel | reflexivity].
    + destruct fuel as [|fuel]; [simpl in Hfuel; lia|].
      destruct (IH fuel) as (out & rs' & Hrun & Hmerge);
        [simpl in *; lia|].
      exists (p :: out), rs'. split.
      * cbn [feed_page_records]. unfold PagePlusRecordMerger.HasPageRecords,
          PagePlusRecordMerger.GetNext. simpl. now rewrite Hrun.
      * intros q. specialize (Hmerge q).
        rewrite MergeFacts.merge_records_nil_r in Hmerge.
        rewrite MergeFacts.merge_records_nil_r. simpl. now rewrite Hmerge.
  - intros p ps r rs E IH fuel Hfuel.
    destruct fuel as [|fuel]; [simpl in Hfuel; lia|].
    destruct (IH fuel) as (out & rs' & Hrun & Hmerge); [simpl in *; lia|].
    exists (r :: out), rs'. split.
    + cbn [feed_page_records]. unfold PagePlusRecordMerger.HasPageRecords,
        PagePlusRecordMerger.GetNext. simpl.
      rewrite (proj2 (Z.leb_le (fst r) (fst p))) by lia.
      rewrite (proj2 (Z.eqb_eq (fst r) (fst p))) by lia.
      now rewrite Hrun.
    + intros q. rewrite <- app_comm_cons.
      rewrite MergeFacts.merge_records_eq by exact E.
      rewrite ?app_comm_cons, Hmerge. reflexivity.
  - intros p ps r rs E IH fuel Hfuel.
    destruct fuel as [|fuel]; [simpl in Hfuel; lia|].
    destruct (IH fuel) as (out & rs' & Hrun & Hmerge); [simpl in *; lia|].
    exists (p :: out), rs'. split.
    + cbn [feed_page_records]. unfold PagePlusRecordMerger.HasPageRecords,
        PagePlusRecordMerger.GetNext. simpl.
      rewrite (proj2 (Z.leb_gt (fst r) (fst p))) by lia.
      now rewrite Hrun.
    + intros q. rewrite <- app_comm_cons.
      rewrite MergeFacts.merge_records_lt by exact E.
      rewrite ?app_comm_cons, Hmerge. reflexivity.
  - intros p ps r rs E IH fuel Hfuel.
    destruct fuel as [|fuel]; [simpl in Hfuel; lia|].
    destruct (IH fuel) as (out & rs' & Hrun & Hmerge); [simpl in *; lia|].
    exists (r :: out), rs'. split.
    + cbn [feed_page_records]. unfold PagePlusRecordMerger.HasPageRecords,
        PagePlusRecordMerger.GetNext. simpl.
      rewrite (proj2 (Z.leb_le (fst r) (fst p))) by lia.
      rewrite (proj2 (Z.eqb_neq (fst r) (fst p))) by lia.
      now rewrite Hrun.
    + intros q. rewrite <- app_comm_cons.
      rewrite MergeFacts.merge_records_gt by exact E.
      rewrite ?app_comm_cons, Hmerge. reflexivity.
Qed.

Lemma feed_chains_spec (chains : list PageMergeIterator) (rs : list Rec) :
  exists out rs',
    feed_chains chains (PagePlusRecordMerger.mk [] rs) =
    (out, PagePlusRecordMerger.mk [] rs') /\
    merge_records (concat chains) rs = out ++ rs'.
Proof.
  revert rs. induction chains as [|pmi chains IH]; intros rs.
  - exists [], rs. split; [reflexivity|].
    simpl. now rewrite MergeFacts.merge_records_nil_l.
  - cbn [feed_chains concat].
    unfold PagePlusRecordMerger.UpdatePageIterator, PagePlusRecordMerger.size.
    cbn [PagePlusRecordMerger.pmi_ PagePlusRecordMerger.it_].
    destruct (feed_page_records_spec pmi rs (length pmi + length rs))
      as (out & rs1 & Hrun & Hmerge); [lia|].
    rewrite Hrun.
    destruct (IH rs1) as (out' & rs' & Hrun' & Hmerge').
    rewrite Hrun'. exists (out ++ out'), rs'. split; [reflexivity|].
    now rewrite Hmerge, Hmerge', app_assoc.
Qed.

(** X6.  Pointing one merger at a sequence of page chains, one after the other,
    and draining the in-memory records at the end offers the same records in
    the same order as merging the concatenation of the chains with the
    in-memory records in one go.  So, when the chains follow each other in
    strictly ascending key order and the in-memory records are in ascending
    order, the records offered to the segment builder are in ascending key
    order and are all the in-memory records together with exactly the page
    records whose key no in-memory record carries. *)
Theorem offered_records_merge_all_chains (chains : list PageMergeIterator)
        (addtl : list Rec) :
  offered_records chains addtl = merge_records (concat chains) addtl /\
  (ascending (concat chains) -> nondecreasing addtl ->
   nondecreasing (offered_records chains addtl) /\
   Permutation (offered_records chains addtl)
               (newest_wins (concat chains) addtl)).
Proof.
  assert (Heq : offered_records chains addtl =
                merge_records (concat chains) addtl).
  { unfold offered_records, PagePlusRecordMerger.create.
    destruct (feed_chains_spec chains addtl) as (out & rs' & Hrun & Hmerge).
    rewrite Hrun, Hmerge. f_equal.
    rewrite MergeFacts.drain_merge_records by reflexivity.
    cbn [PagePlusRecordMerger.pmi_ PagePlusRecordMerger.it_].
    apply MergeFacts.merge_records_nil_l. }
  split; [exact Heq|]. intros Hc Ha. rewrite Heq. split.
  - apply MergeFacts.merge_records_nondecreasing; [|exact Ha].
    now apply MergeFacts.ascending_nondecreasing.
  - now apply MergeFacts.merge_records_newest_wins.
Qed.

Lemma offered_records_merge_all_chains_witness :
  nondecreasing
    (offered_records [[(100, "a"); (110, "b")]; [(200, "c")]]
                     [(110, "b'"); (150, "d")]) /\
  Permutation
    (offered_records [[(100, "a"); (110, "b")]; [(200, "c")]]
                     [(110, "b'"); (150, "d")])
    (newest_wins (concat [[(100, "a"); (110, "b")]; [(200, "c")]])
                 [(110, "b'"); (150, "d")]).
Proof.
  apply (proj2 (offered_records_merge_all_chains
                  [[(100, "a"); (110, "b")]; [(200, "c")]]
                  [(110, "b'"); (150, "d")])).
  - unfold ascending. simpl. repeat constructor; simpl; lia.
  - unfold nondecreasing. repeat constructor; simpl; lia.
Defined.

Lemma merge_pages_In (x : Rec) (a b : list Rec) :
  In x (merge_pages a b) <-> In x a \/ In x b.
Proof.
  revert b. induction a as [|p a IHa]; intros b.
  - destruct b; simpl; tauto.
  - induction b as [|q b IHb].
    + simpl. rewrite app_nil_r. tauto.
    + cbn [merge_pages]. destruct (fst p <=? fst q).
      * simpl. rewrite IHa. simpl. tauto.
      * simpl. simpl in IHb. rewrite IHb. simpl. tauto.
Qed.

Lemma last_key_spec (recs : list Rec) :
  nondecreasing recs ->
  match last_key recs with
  | None => recs = []
  | Some k => (exists r, In r recs /\ fst r = k) /\
              Forall (fun r => fst r <= k) recs
  end.
Proof.
  unfold last_key, nondecreasing. intros Hs.
  destruct (rev recs) as [|r rest] eqn:E.
  - apply (f_equal (@rev Rec)) in E. now rewrite rev_involutive in E.
  - assert (Hrecs : recs = rev rest ++ [r]).
    { apply (f_equal (@rev Rec)) in E. now rewrite rev_involutive in E. }
    subst recs. split.
    + exists r. split; [apply in_or_app; right; now left | reflexivity].
    + clear E. induction (rev rest) as [|x l IH]; simpl in *.
      * repeat constructor. lia.
      * inversion Hs as [|? ? Hl Hx]; subst. constructor; [|now apply IH].
        rewrite List.Forall_forall in Hx. apply Hx.
        apply in_or_app. right. now left.
Qed.

(** What [LargestKey] returns, read off the two pages. *)
Lemma LargestKey_spec (pc : PageChain) :
  nondecreasing (page_records (main_page_ pc)) ->
  (forall overflow, overflow_page_ pc = Some overflow ->
                    nondecreasing (page_records overflow)) ->
  match LargestKey pc with
  | None => GetIterator pc = []
  | Some k => (exists r, In r (GetIterator pc) /\ fst r = k) /\
              Forall (fun r => fst r <= k) (GetIterator pc)
  end.
Proof.
  intros Hmain Hover. unfold LargestKey, GetIterator.
  pose proof (last_key_spec _ Hmain) as Hm.
  destruct (overflow_page_ pc) as [overflow|].
  - pose proof (last_key_spec _ (Hover overflow eq_refl)) as Ho.
    destruct (last_key (page_records (main_page_ pc))) as [l|];
      destruct (last_key (page_records overflow)) as [o|].
    + destruct Hm as [(rm & Hrm & Hkm) Hallm].
      destruct Ho as [(ro & Hro & Hko) Hallo].
      destruct (Z.gtb_spec o l) as [Hgt|Hle]; split.
      * exists ro. split; [apply merge_pages_In; now right | exact Hko].
      * apply List.Forall_forall. intros x Hx. apply merge_pages_In in Hx.
        rewrite List.Forall_forall in Hallm, Hallo.
        destruct Hx as [Hx|Hx]; [specialize (Hallm x Hx); lia | now apply Hallo].
      * exists rm. split; [apply merge_pages_In; now left | exact Hkm].
      * apply List.Forall_forall. intros x Hx. apply merge_pages_In in Hx.
        rewrite List.Forall_forall in Hallm, Hallo.
        destruct Hx as [Hx|Hx]; [now apply Hallm | specialize (Hallo x Hx); lia].
    + destruct Hm as [(rm & Hrm & Hkm) Hallm]. rewrite Ho. split.
      * exists rm. split; [apply merge_pages_In; now left | exact Hkm].
      * apply List.Forall_forall. intros x Hx. apply merge_pages_In in Hx.
        rewrite List.Forall_forall in Hallm.
        destruct Hx as [Hx|Hx]; [now apply Hallm | contradiction].
    + destruct Ho as [(ro & Hro & Hko) Hallo]. rewrite Hm. split.
      * exists ro. split; [apply merge_pages_In; now right | exact Hko].
      * apply List.Forall_forall. intros x Hx. apply merge_pages_In in Hx.
        rewrite List.Forall_forall in Hallo.
        destruct Hx as [Hx|Hx]; [contradiction | now apply Hallo].
    + rewrite Hm, Ho. reflexivity.
  - destruct (last_key (page_records (main_page_ pc))) as [l|]; exact Hm.
Qed.


(** X7.  For a chain whose pages hold their records in ascending key order,
    [LargestKey] is empty exactly when the chain holds no record, and is
    otherwise a key of the chain that no key of the chain exceeds. *)
Theorem LargestKey_is_the_maximum (pc : PageChain) :
  nondecreasing (page_records (main_page_ pc)) ->
  (forall overflow, overflow_page_ pc = Some overflow ->
                    nondecreasing (page_records overflow)) ->
  match LargestKey pc with
  | None => GetIterator pc = []
  | Some k => (exists r, In r (GetIterator pc) /\ fst r = k) /\
              Forall (fun r => fst r <= k) (GetIterator pc)
  end.
Proof.
  intros Hmain Hover.
  pose proof (LargestKey_spec pc Hmain Hover) as H.
  destruct (LargestKey pc) as [k|].
  - destruct H as [Hkey Hall]. split; [exact Hkey | exact Hall].
  - exact H.
Qed.

Lemma LargestKey_is_the_maximum_witness :
  let pc := WithOverflow (mkPage 0 99 [(10, "a"); (40, "d")] 0 None)
                         (mkPage 0 99 [(20, "b"); (30, "c")] 0 None) in
  match LargestKey pc with
  | None => GetIterator pc = []
  | Some k => (exists r, In r (GetIterator pc) /\ fst r = k) /\
              Forall (fun r => fst r <= k) (GetIterator pc)
  end.
Proof.
  intros pc. apply (LargestKey_is_the_maximum pc).
  - unfold nondecreasing. simpl. repeat constructor; simpl; lia.
  - intros overflow E. injection E as <-.
    unfold nondecreasing. simpl. repeat constructor; simpl; lia.
Defined.

End RewriteFacts.

(** ** New pages: key ranges, and a goal of zero records *)

Module PageRangeFacts.
Import Manager PageRanges.

Lemma pow2_is_1 (f : Z) : 2 ^ f = 1 -> f = 0.
Proof.
  intros H. destruct (Z.lt_trichotomy f 0) as [Hn|[Hz|Hp]]; [|exact Hz|].
  - rewrite Z.pow_neg_r in H by exact Hn. discriminate.
  - pose proof (Z.pow_gt_1 2 f ltac:(lia)) as [Hgt _]. specialize (Hgt Hp). lia.
Qed.

Lemma FreeList_Get_one (free : list SegmentId) (x : SegmentId)
      (free' : list SegmentId) :
  FreeList_Get free 1 = (Some x, free') -> file_offset x = 0.
Proof.
  revert free'. induction free as [|y free IH]; intros free'; simpl.
  - discriminate.
  - destruct (Z.eqb_spec (2 ^ file_offset y) 1) as [E|E].
    + intros H. injection H as <- _. now apply pow2_is_1.
    + destruct (FreeList_Get free 1) as [r rest]. intros H.
      injection H as -> _. now apply (IH rest).
Qed.

(** A page is written under the id that is returned for it; the index and the
    sequence counter are not touched. *)
Lemma write_new_page_spec (m : t) (page : Page) :
  written_ (snd (write_new_page m page)) =
  written_ m ++ [(fst (write_new_page m page), page)] /\
  records_per_page_goal (snd (write_new_page m page)) = records_per_page_goal m
  /\ index_ (snd (write_new_page m page)) = index_ m /\
  next_sequence_number_ (snd (write_new_page m page)) = next_sequence_number_ m.
Proof.
  unfold write_new_page.
  destruct (FreeList_Get (free_ m) 1) as [[x|] free'] eqn:E; simpl.
  - pose proof (FreeList_Get_one _ _ _ E) as Hx.
    destruct x as [f o]. simpl in *. subst f. repeat split.
  - repeat split.
Qed.

Lemma first_key_range (recs : list Rec) (i j : Z) :
  0 <= i < j -> i < Z.of_nat (length recs) ->
  first_key (range recs i j) = first_key (at_index recs i).
Proof.
  intros Hij Hi. unfold range, at_index.
  destruct (skipn (Z.to_nat i) recs) as [|r rest] eqn:E.
  - apply (f_equal (@length _)) in E. rewrite length_skipn in E.
    simpl in E. lia.
  - destruct (Z.to_nat (j - i)) as [|k] eqn:Ek; [lia | reflexivity].
Qed.

Lemma LoadIntoNewPages_loop_tiles (sequence_number : Z) (lb ub : Key)
      (recs : list Rec) (goal : Z) :
  0 < goal -> Z.of_nat (length recs) + goal < two64 ->
  forall (fuel : nat) (m : t) (s : Z) (bounds : list (Key * SegmentInfo)),
    records_per_page_goal m = goal ->
    0 <= s <= Z.of_nat (length recs) ->
    Z.of_nat (length recs) - s < Z.of_nat fuel * goal ->
    exists m' s' W,
      LoadIntoNewPages_loop fuel m sequence_number lb ub recs s (s + goal)
                            bounds
      = Some (m', s', bounds ++ map boundary_of W) /\
      s <= s' <= Z.of_nat (length recs) /\
      Z.of_nat (length recs) - s' < goal /\
      (W = [] <-> s' = s) /\
      written_ m' = written_ m ++ W /\
      index_ m' = index_ m /\
      next_sequence_number_ m' = next_sequence_number_ m /\
      match W with
      | [] => True
      | w :: _ =>
          page_records (snd w) = range recs s (s + goal) /\
          tiles (lower_at lb recs s) (upper_at ub recs s') (map snd W)
      end.
Proof.
  intros Hg Hn. induction fuel as [|fuel IH]; intros m s bounds Hm Hs Hfuel.
  - exists m, s, []. simpl.
    destruct (Z.leb_spec (s + goal) (Z.of_nat (length recs))); [lia|].
    rewrite !app_nil_r. repeat split; (reflexivity || lia).
  - cbn [LoadIntoNewPages_loop].
    destruct (Z.leb_spec (s + goal) (Z.of_nat (length recs))) as [Hle|Hgt].
    + cbn [LoadIntoPage].
      set (page := ClearAllOverflows (SetSequenceNumber _ sequence_number)).
      destruct (write_new_page_spec m page) as (Hw & Hgoal & Hidx & Hseq).
      destruct (write_new_page m page) as [seg_id m1] eqn:Ew.
      cbn [fst snd] in Hw, Hgoal, Hidx, Hseq. rewrite Hm.
      replace ((s + goal + goal) mod two64) with (s + goal + goal)
        by (symmetry; apply Z.mod_small; lia).
      destruct (IH m1 (s + goal)
                   (bounds ++
                    [(if s =? 0 then lb else first_key (at_index recs s),
                      mkSegmentInfo seg_id None false)]))
        as (m' & s' & W & Hrun & Hs' & Hrest & Hnil & Hw' & Hidx' & Hseq'
            & Htiles).
      * congruence.
      * lia.
      * rewrite Nat2Z.inj_succ in Hfuel. lia.
      * exists m', s', ((seg_id, page) :: W).
        rewrite Hrun. split.
        { rewrite <- app_assoc. reflexivity. }
        split; [lia|]. split; [exact Hrest|].
        split; [split; [discriminate | lia]|].
        split; [rewrite Hw', Hw, <- app_assoc; reflexivity|].
        split; [congruence|]. split; [congruence|].
        split; [reflexivity|].
        cbn [map tiles snd]. split; [reflexivity|].
        destruct W as [|w W'].
        -- assert (s' = s + goal) by (apply Hnil; reflexivity). subst s'.
           reflexivity.
        -- destruct Htiles as [Hrec Htiles]. cbn [map snd].
           assert (Hnext : s' <> s + goal).
           { intros E. apply Hnil in E. discriminate. }
           assert (Hfull : s + goal + goal <= Z.of_nat (length recs)).
           { destruct (Z.le_gt_cases (s + goal + goal) (Z.of_nat (length recs)));
               [assumption|].
             exfalso. apply Hnext.
             clear -Hrun H Hle. destruct fuel; simpl in Hrun;
               destruct (Z.leb_spec (s + goal + goal) (Z.of_nat (length recs)));
               solve [lia | now injection Hrun]. }
           assert (Hfk : first_key (page_records (snd w)) =
                         first_key (at_index recs (s + goal))).
           { rewrite Hrec. apply first_key_range; lia. }
           rewrite Hfk. split.
           ++ cbn [upper_boundary page ClearAllOverflows SetSequenceNumber].
              destruct (Z.eqb_spec (s + goal) (Z.of_nat (length recs))); [lia|].
              reflexivity.
           ++ cbn [map snd] in Htiles. unfold lower_at in Htiles.
              destruct (Z.eqb_spec (s + goal) 0); [lia|]. exact Htiles.
    + exists m, s, []. rewrite !app_nil_r.
      repeat split; (reflexivity || lia).
Qed.

Lemma tiles_snoc (lo hi : Key) (W : list Page) (q : Page) :
  W <> [] ->
  tiles lo (first_key (page_records q)) W ->
  lower_boundary q = first_key (page_records q) ->
  upper_boundary q = (hi - 1) mod two64 ->
  tiles lo hi (W ++ [q]).
Proof.
  intros Hne. revert lo. induction W as [|p W IH]; intros lo Ht Hl Hu;
    [contradiction|].
  destruct W as [|p' W'].
  - destruct Ht as [Hlo Hup]. simpl. auto.
  - destruct Ht as (Hlo & Hup & Ht).
    change ((p :: p' :: W') ++ [q]) with (p :: (p' :: W') ++ [q]).
    cbn [tiles]. change ((p' :: W') ++ [q]) with (p' :: W' ++ [q]) at 1.
    cbv beta iota. split; [exact Hlo|]. split; [exact Hup|].
    apply IH; [discriminate | exact Ht | exact Hl | exact Hu].
Qed.

(** What [LoadIntoNewPages] returns and leaves behind: an index entry for each
    page written, under the id of the page and its lower boundary; pages
    that tile the key range of the call; the index and the sequence counter of
    the manager as they were. *)
Lemma LoadIntoNewPages_ranges (fuel : nat) (m : t) (sequence_number : Z)
      (lb ub : Key) (recs : list Rec) :
  0 < records_per_page_goal m ->
  Z.of_nat (length recs) + records_per_page_goal m < two64 ->
  (length recs < fuel)%nat ->
  exists m' W,
    LoadIntoNewPages fuel m sequence_number lb ub recs
    = Some (map boundary_of W, m') /\
    written_ m' = written_ m ++ W /\
    tiles lb ub (map snd W) /\
    (W = [] <-> recs = []) /\
    index_ m' = index_ m /\
    next_sequence_number_ m' = next_sequence_number_ m.
Proof.
  intros Hg Hn Hfuel.
  destruct (LoadIntoNewPages_loop_tiles sequence_number lb ub recs
              (records_per_page_goal m) Hg Hn fuel m 0 [] eq_refl)
    as (m1 & s' & W & Hrun & Hs' & Hrest & Hnil & Hw1 & Hidx & Hseq & Ht);
    [lia | nia |].
  unfold LoadIntoNewPages. rewrite Z.add_0_l in Hrun. rewrite Hrun.
  cbn [app].
  destruct (Z.ltb_spec s' (Z.of_nat (length recs))) as [Hlt|Hge].
  - cbn [LoadIntoPage].
    set (page := ClearAllOverflows (SetSequenceNumber _ 0)).
    destruct (write_new_page_spec m1 page) as (Hw & _ & Hidx2 & Hseq2).
    destruct (write_new_page m1 page) as [seg_id m2] eqn:Ew.
    cbn [fst snd] in Hw, Hidx2, Hseq2.
    exists m2, (W ++ [(seg_id, page)]).
    split; [now rewrite map_app|].
    split; [now rewrite Hw, Hw1, <- app_assoc|].
    split; [|split; [|split; congruence]].
    + rewrite map_app. cbn [map snd].
      assert (Hrec : page_records page =
                     range recs s' (Z.of_nat (length recs))) by reflexivity.
      destruct W as [|w W'].
      * assert (s' = 0) by (apply Hnil; reflexivity). subst s'.
        simpl. split; reflexivity.
      * destruct Ht as [_ Ht].
        assert (Hs0 : s' <> 0).
        { intros E. apply Hnil in E. discriminate. }
        assert (Hfk : first_key (page_records page) =
                      first_key (at_index recs s')).
        { rewrite Hrec. apply first_key_range; lia. }
        apply tiles_snoc.
        -- discriminate.
        -- rewrite Hfk. unfold lower_at, upper_at in Ht. cbn [Z.eqb] in Ht.
           destruct (Z.eqb_spec s' (Z.of_nat (length recs))); [lia|].
           exact Ht.
        -- rewrite Hfk.
           cbn [lower_boundary page ClearAllOverflows SetSequenceNumber].
           destruct (Z.eqb_spec s' 0); [contradiction | reflexivity].
        -- reflexivity.
    + split; intros E.
      * destruct W; discriminate.
      * subst recs. simpl in Hlt. lia.
  - exists m1, W. split; [reflexivity|]. split; [exact Hw1|].
    assert (s' = Z.of_nat (length recs)) by lia. subst s'.
    split; [|split; [|split; assumption]].
    + destruct W as [|w W']; [exact I|]. destruct Ht as [_ Ht].
      unfold lower_at, upper_at in Ht. cbn [Z.eqb] in Ht.
      rewrite Z.eqb_refl in Ht. exact Ht.
    + rewrite Hnil. split; intros E.
      * destruct recs; [reflexivity | simpl in E; lia].
      * subst recs. reflexivity.
Qed.



(** With a goal of zero records the loop writes a page and stands still. *)
Lemma LoadIntoNewPages_loop_zero_goal (sequence_number : Z) (lb ub : Key)
      (recs : list Rec) (fuel : nat) :
  forall (m : t) (s : Z) (bounds : list (Key * SegmentInfo)),
    records_per_page_goal m = 0 ->
    0 <= s <= Z.of_nat (length recs) ->
    Z.of_nat (length recs) < two64 ->
    LoadIntoNewPages_loop fuel m sequence_number lb ub recs s s bounds = None.
Proof.
  induction fuel as [|fuel IH]; intros m s bounds Hm Hs Hn;
    cbn [LoadIntoNewPages_loop];
    destruct (Z.leb_spec s (Z.of_nat (length recs))); try lia;
    [reflexivity|].
  cbn [LoadIntoPage].
  set (page := ClearAllOverflows (SetSequenceNumber _ sequence_number)).
  destruct (write_new_page_spec m page) as (_ & Hgoal & _).
  destruct (write_new_page m page) as [seg_id m1]. cbn [snd] in Hgoal.
  rewrite Hm, Z.add_0_r, Z.mod_small by lia.
  apply IH; [congruence | lia | lia].
Qed.

(** X9.  With [records_per_page_goal] equal to zero the loop of
    [LoadIntoNewPages] never ends: after any number of iterations it still has
    not returned, whatever the records are. *)
Theorem LoadIntoNewPages_zero_goal_never_returns (fuel : nat) (m : t)
        (sequence_number : Z) (lb ub : Key) (recs : list Rec) :
  records_per_page_goal m = 0 ->
  Z.of_nat (length recs) < two64 ->
  LoadIntoNewPages fuel m sequence_number lb ub recs = None.
Proof.
  intros Hm Hn. unfold LoadIntoNewPages. rewrite Hm.
  rewrite LoadIntoNewPages_loop_zero_goal; [reflexivity | exact Hm | lia | exact Hn].
Qed.

Lemma LoadIntoNewPages_zero_goal_never_returns_witness :
  LoadIntoNewPages 1000 (mkManager [] [] 5 [] 0 0 0) 5 7 90 [(10, "a")] = None.
Proof.
  apply LoadIntoNewPages_zero_goal_never_returns.
  - reflexivity.
  - unfold two64. simpl. lia.
Defined.

End PageRangeFacts.

(** ** FlattenChain: what is left of the old chain, and the index *)

Module FlattenFacts.
Import Manager PageRanges.

Lemma SegmentId_eqb_refl (x : SegmentId) : SegmentId_eqb x x = true.
Proof. unfold SegmentId_eqb. now rewrite !Z.eqb_refl. Qed.

(** A page reads as it was last written. *)
Lemma ReadPage_last (written : list (SegmentId * Page)) (x : SegmentId)
      (p : Page) :
  ReadPage (written ++ [(x, p)]) x = p.
Proof.
  unfold ReadPage. rewrite rev_app_distr. simpl.
  now rewrite SegmentId_eqb_refl.
Qed.

Lemma ReadPage_last_two (written : list (SegmentId * Page)) (x y : SegmentId)
      (p : Page) :
  ReadPage ((written ++ [(x, p)]) ++ [(y, p)]) x = p.
Proof.
  unfold ReadPage. rewrite !rev_app_distr. simpl.
  destruct (SegmentId_eqb y x); [reflexivity|].
  now rewrite SegmentId_eqb_refl.
Qed.

Lemma index_lower_bound_In (idx : list (Key * SegmentInfo)) (k : Key)
      (e : Key * SegmentInfo) (rest : list (Key * SegmentInfo)) :
  index_lower_bound idx k = e :: rest -> In e idx.
Proof.
  induction idx as [|x idx IH]; simpl; [discriminate|].
  destruct (fst x <? k).
  - intros H. right. now apply IH.
  - intros H. injection H as -> _. now left.
Qed.

Lemma index_erase_In (idx : list (Key * SegmentInfo)) (k : Key)
      (e : Key * SegmentInfo) :
  In e (index_erase idx k) <-> In e idx /\ fst e <> k.
Proof.
  unfold index_erase. rewrite List.filter_In.
  destruct (Z.eqb_spec (fst e) k); simpl; intuition congruence.
Qed.

(** [insert] never drops an entry. *)
Lemma index_insert_keeps (e x : Key * SegmentInfo)
      (idx : list (Key * SegmentInfo)) :
  In x idx -> In x (index_insert e idx).
Proof.
  induction idx as [|y idx IH]; simpl; [contradiction|].
  intros H. destruct (fst e <? fst y); [now right|].
  destruct (fst e =? fst y); [exact H|].
  destruct H as [H|H]; [now left | right; now apply IH].
Qed.

(** [insert] adds the entry when its key is new. *)
Lemma index_insert_new (e : Key * SegmentInfo)
      (idx : list (Key * SegmentInfo)) :
  (forall x, In x idx -> fst x <> fst e) -> In e (index_insert e idx).
Proof.
  induction idx as [|y idx IH]; simpl; intros H; [now left|].
  destruct (fst e <? fst y); [now left|].
  destruct (Z.eqb_spec (fst e) (fst y)) as [E|E].
  - exfalso. apply (H y); [now left | now symmetry].
  - right. apply IH. intros x Hx. apply H. now right.
Qed.

Lemma fold_insert_keeps (new_pages idx : list (Key * SegmentInfo))
      (x : Key * SegmentInfo) :
  In x idx ->
  In x (fold_left (fun idx e => index_insert e idx) new_pages idx).
Proof.
  revert idx. induction new_pages as [|e rest IH]; intros idx H; simpl;
    [exact H|].
  apply IH. now apply index_insert_keeps.
Qed.



(** X11.  [FlattenChain] stops at its assertions, whatever the batch, when the
    index has no single-page segment under the key [base]: no entry with that
    key, or only one of more than one page. *)
Theorem FlattenChain_needs_single_page_segment
        (fuel : nat) (m : t) (base : Key) (batch : list Rec) :
  (forall info, In (base, info) (index_ m) -> page_count info <> 1) ->
  FlattenChain fuel m base batch = None.
Proof.
  intros H. unfold FlattenChain.
  destruct (index_lower_bound (index_ m) base) as [|[key info] next] eqn:E;
    [reflexivity|].
  apply index_lower_bound_In in E.
  destruct (Z.eqb_spec base key) as [->|Hne]; [|reflexivity].
  cbn [negb]. specialize (H info E).
  destruct (Z.eqb_spec (page_count info) 1); [contradiction | reflexivity].
Qed.

Lemma FlattenChain_needs_single_page_segment_witness :
  FlattenChain 5 flatten_example 2000 [(2010, "v")] = None /\
  FlattenChain 5
    (mkManager [(1000, mkSegmentInfo (mkSegmentId 2 0) None false)] [] 5 [] 4 0 2)
    1000 [] = None.
Proof.
  split; apply FlattenChain_needs_single_page_segment.
  - intros info [E|[]]. discriminate E.
  - intros info [E|[]]. injection E as <-. discriminate.
Defined.

End FlattenFacts.

(** ** ReorganizeOverflowChain: the frames, the new pages and the model *)

Module ReorgLayoutFacts.
Import Reorg ReorgTrace.

Lemma bind_Done_inv {A B : Type} (e : outcome A) (k : A -> outcome B) (b : B) :
  mbind k e = Done b -> exists a, e = Done a /\ k a = Done b.
Proof. destruct e; simpl; intros H; [eauto | discriminate | discriminate]. Qed.

Lemma from_option_inv {A : Type} (o : option A) (a : A) :
  from_option o = Done a -> o = Some a.
Proof. destruct o; simpl; intros H; [now injection H as -> | discriminate]. Qed.

Lemma assert_inv (b : bool) (u : unit) : assert b = Done u -> b = true.
Proof. destruct b; simpl; intros H; [reflexivity | discriminate]. Qed.

Lemma unfixed_app (a b : list Call) : unfixed (a ++ b) = unfixed a ++ unfixed b.
Proof. apply flat_map_app. Qed.

Lemma newly_fixed_app (a b : list Call) :
  newly_fixed (a ++ b) = newly_fixed a ++ newly_fixed b.
Proof. apply flat_map_app. Qed.

Lemma model_inserts_app (a b : list Call) :
  model_inserts (a ++ b) = model_inserts a ++ model_inserts b.
Proof. apply flat_map_app. Qed.

Lemma nth_error_insert_eq {A : Type} (l : list A) (i : nat) (y : A) :
  (i < length l)%nat -> nth_error (<[i := y]> l) i = Some y.
Proof.
  revert i. induction l as [|x l IH]; intros [|i] H; simpl in *;
    try lia; [reflexivity | apply IH; lia].
Qed.

Lemma nth_error_insert_ne {A : Type} (l : list A) (i j : nat) (y : A) :
  i <> j -> nth_error (<[i := y]> l) j = nth_error l j.
Proof.
  revert i j. induction l as [|x l IH]; intros [|i] [|j] H; simpl;
    try reflexivity; [congruence | apply IH; congruence].
Qed.

Lemma firstn_S_nth_error {A : Type} (l : list A) (n : nat) :
  firstn (S n) l =
  firstn n l ++ match nth_error l n with Some x => [x] | None => [] end.
Proof.
  revert n. induction l as [|x l IH]; intros [|n]; try reflexivity.
  change (firstn (S (S n)) (x :: l)) with (x :: firstn (S n) l).
  rewrite IH. reflexivity.
Qed.

Lemma reused_seq (chain : list Z) (n : nat) :
  reused chain (seq 0 n) = firstn n chain.
Proof.
  induction n as [|n IH]; [reflexivity|].
  rewrite seq_S, firstn_S_nth_error. unfold reused in *.
  rewrite flat_map_app, IH. simpl. now rewrite app_nil_r.
Qed.

(** *** One turn of the backward loop *)

Lemma commit_page_inv (chain : list Z) (pages : list Page) (db db' : DBImpl)
      (i : nat) :
  commit_page chain pages db i = Done db' ->
  exists page frame_id,
    nth_error pages i = Some page /\
    ((i < length chain)%nat /\ nth_error chain i = Some frame_id /\
     calls_ db' = calls_ db ++ [ModelInsert (lower_boundary page) frame_id;
                                UnfixPage frame_id true] /\
     next_page_id_ db' = next_page_id_ db /\
     frames_ db' = <[frame_id := page]> (frames_ db)
     \/
     (length chain <= i)%nat /\ frame_id = next_page_id_ db /\
     calls_ db' = calls_ db ++ [AllocatePage frame_id; FixPage frame_id true true;
                                ModelInsert (lower_boundary page) frame_id;
                                UnfixPage frame_id true] /\
     next_page_id_ db' = next_page_id_ db + 1 /\
     frames_ db' = <[frame_id := page]> (<[frame_id := zero_page]> (frames_ db)))
    /\ model_ db' = <[lower_boundary page := frame_id]> (model_ db).
Proof.
  unfold commit_page. intros H.
  apply bind_Done_inv in H as (page & Hp & H). apply from_option_inv in Hp.
  exists page.
  destruct (Nat.ltb_spec i (length chain)) as [Hlt|Hge].
  - apply bind_Done_inv in H as ([frame_id db1] & Hf & H).
    apply bind_Done_inv in Hf as (x & Hx & Hf). apply from_option_inv in Hx.
    injection Hf as -> <-. injection H as <-.
    exists frame_id. split; [exact Hp|]. split; [|reflexivity].
    left. split; [exact Hlt|]. split; [exact Hx|].
    split; [|split; reflexivity].
    simpl. now rewrite <- app_assoc.
  - apply bind_Done_inv in H as ([frame_id db1] & Hf & H).
    injection Hf as <- <-. injection H as <-.
    exists (next_page_id_ db). split; [exact Hp|]. split; [|reflexivity].
    right. split; [exact Hge|]. split; [reflexivity|].
    split; [|split; reflexivity].
    simpl. now rewrite <- !app_assoc.
Qed.

(** Every frame the backward loop touches is unfixed once: the frames of the
    chain it reuses and the pages it fixes anew. *)
Lemma commit_pages_unfix (chain : list Z) (pages : list Page)
      (indices : list nat) :
  forall db db',
    commit_pages chain pages db indices = Done db' ->
    exists new,
      calls_ db' = calls_ db ++ new /\
      Permutation (unfixed new) (reused chain indices ++ newly_fixed new).
Proof.
  induction indices as [|i indices IH]; intros db db' H.
  - injection H as <-. exists []. rewrite app_nil_r. now split.
  - cbn [commit_pages] in H.
    apply bind_Done_inv in H as (db1 & Hstep & H).
    destruct (IH _ _ H) as (new & Hcalls & Hperm).
    apply commit_page_inv in Hstep
      as (page & frame_id & _ & [(Hlt & Hx & Hc & _)|(Hge & -> & Hc & _)] & _).
    + eexists. split; [rewrite Hcalls, Hc, <- app_assoc; reflexivity|].
      rewrite unfixed_app, newly_fixed_app. unfold reused in *.
      cbn [flat_map]. rewrite Hx. simpl. now constructor.
    + eexists. split; [rewrite Hcalls, Hc, <- app_assoc; reflexivity|].
      rewrite unfixed_app, newly_fixed_app. unfold reused in *.
      cbn [flat_map].
      assert (E : nth_error chain i = None) by (apply nth_error_None; lia).
      rewrite E. simpl.
      apply Permutation_cons_app. exact Hperm.
Qed.

Lemma clear_surplus_trace (surplus : list Z) :
  forall db,
    exists new,
      calls_ (clear_surplus db surplus) = calls_ db ++ new /\
      unfixed new = surplus /\ newly_fixed new = [] /\ model_inserts new = [] /\
      model_ (clear_surplus db surplus) = model_ db /\
      next_page_id_ (clear_surplus db surplus) = next_page_id_ db /\
      (forall x, In x surplus ->
                 frames_ (clear_surplus db surplus) !! x = Some zero_page) /\
      (forall x, ~ In x surplus ->
                 frames_ (clear_surplus db surplus) !! x = frames_ db !! x).
Proof.
  induction surplus as [|y surplus IH]; intros db.
  - exists []. simpl. rewrite app_nil_r. repeat split; tauto.
  - cbn [clear_surplus].
    destruct (IH (call (set_frame db y zero_page) (UnfixPage y true)))
      as (new & Hc & Hu & Hf & Hm & Hmod & Hnext & Hzero & Hkeep).
    exists (UnfixPage y true :: new).
    split; [rewrite Hc; simpl; now rewrite <- app_assoc|].
    split; [simpl; now rewrite Hu|].
    split; [exact Hf|]. split; [exact Hm|].
    split; [exact Hmod|]. split; [exact Hnext|]. split.
    + intros x [->|Hx]; [|now apply Hzero].
      destruct (in_dec Z.eq_dec x surplus) as [Hin|Hnin]; [now apply Hzero|].
      rewrite (Hkeep x Hnin). simpl. apply lookup_insert_eq.
    + intros x Hx. rewrite Hkeep by (intros Hin; apply Hx; now right).
      simpl. apply lookup_insert_ne. intros ->. apply Hx. now left.
Qed.


(** *** The in-memory pages *)

Lemma first_pass_prefix (r : Z) (pmi : list (Slice * Slice)) :
  forall c keys,
    exists extra, snd (first_pass r pmi c keys) = keys ++ extra.
Proof.
  induction pmi as [|x pmi IH]; intros c keys; cbn [first_pass].
  - exists []. now rewrite app_nil_r.
  - destruct ((c mod r =? 0) && (c >? 0)).
    + destruct (IH (c + 1) (keys ++ [fst x])) as (extra & ->).
      exists (fst x :: extra). now rewrite <- app_assoc.
    + apply IH.
Qed.

Lemma make_pages_Done (keys : list Slice) (count : nat) :
  forall i pages,
    make_pages count i keys = Done pages ->
    length pages = count /\
    Forall (fun p => records p = []) pages /\
    forall lo hi,
      nth_error keys i = Some lo ->
      nth_error keys (i + count) = Some hi ->
      chained lo hi pages.
Proof.
  induction count as [|count IH]; intros i pages H; cbn [make_pages] in H.
  - injection H as <-. split; [reflexivity|]. split; [constructor|].
    intros lo hi Hlo Hhi. rewrite Nat.add_0_r in Hhi. simpl. congruence.
  - apply bind_Done_inv in H as (lo' & Hlo' & H). apply from_option_inv in Hlo'.
    apply bind_Done_inv in H as (hi' & Hhi' & H). apply from_option_inv in Hhi'.
    apply bind_Done_inv in H as (rest & Hrest & H). injection H as <-.
    destruct (IH _ _ Hrest) as (Hlen & Hemp & Hch).
    split; [simpl; now rewrite Hlen|]. split; [now constructor|].
    intros lo hi Hlo Hhi. simpl. split; [congruence|].
    apply Hch; [exact Hhi'|]. now rewrite Nat.add_succ_comm.
Qed.

Lemma chained_ext (lo hi : Slice) (ps : list Page) :
  forall qs,
    map lower_boundary qs = map lower_boundary ps ->
    map upper_boundary qs = map upper_boundary ps ->
    chained lo hi ps -> chained lo hi qs.
Proof.
  revert lo. induction ps as [|p ps IH]; intros lo [|q qs] Hl Hu H;
    simpl in *; try discriminate; [exact H|].
  injection Hl as Hl1 Hl2. injection Hu as Hu1 Hu2.
  destruct H as [H1 H2]. split; [congruence|].
  rewrite Hu1. now apply IH.
Qed.

Lemma concat_empty (ps : list Page) :
  (forall j p, nth_error ps j = Some p -> records p = []) ->
  concat (map records ps) = [].
Proof.
  induction ps as [|p ps IH]; intros H; [reflexivity|].
  simpl. rewrite (H 0%nat p eq_refl). apply IH.
  intros j q Hq. apply (H (S j) q Hq).
Qed.

(** Putting a record on the last page that is not empty appends it to the
    records of the pages read in order, and moves no boundary. *)
Lemma put_on_page (ps : list Page) (x : Slice * Slice) :
  forall i page,
    nth_error ps i = Some page ->
    (forall j p, nth_error ps j = Some p -> (i < j)%nat -> records p = []) ->
    concat (map records (<[i := Put page x]> ps)) =
    concat (map records ps) ++ [x] /\
    map lower_boundary (<[i := Put page x]> ps) = map lower_boundary ps /\
    map upper_boundary (<[i := Put page x]> ps) = map upper_boundary ps.
Proof.
  induction ps as [|p ps IH]; intros [|i] page Hi Hemp; simpl in Hi;
    try discriminate.
  - injection Hi as ->. simpl.
    rewrite (concat_empty ps), !app_nil_r; [now repeat split|].
    intros j q Hq. apply (Hemp (S j) q Hq). lia.
  - destruct (IH i page Hi) as (H1 & H2 & H3).
    { intros j q Hq Hlt. apply (Hemp (S j) q Hq). lia. }
    simpl. rewrite H1, H2, H3, app_assoc. now repeat split.
Qed.

(** The second pass keeps the pages and their boundaries and appends its
    records, in order, to the records the pages hold. *)
Lemma populate_Done (r : Z) (pmi2 : list (Slice * Slice)) :
  0 < r ->
  forall c pages pages',
    0 <= c ->
    (forall j p, nth_error pages j = Some p -> c <= Z.of_nat j * r ->
                 records p = []) ->
    populate r pmi2 c pages = Done pages' ->
    length pages' = length pages /\
    map lower_boundary pages' = map lower_boundary pages /\
    map upper_boundary pages' = map upper_boundary pages /\
    concat (map records pages') = concat (map records pages) ++ pmi2.
Proof.
  intros Hr. induction pmi2 as [|x pmi2 IH]; intros c pages pages' Hc Hemp H;
    cbn [populate] in H.
  - injection H as <-. now rewrite app_nil_r.
  - apply bind_Done_inv in H as (page & Hpage & H).
    apply from_option_inv in Hpage.
    pose proof (Z.div_pos c r Hc Hr) as Hq.
    pose proof (Z.mul_div_le c r Hr) as Hlow.
    pose proof (Z.mul_succ_div_gt c r Hr) as Hhigh.
    destruct (put_on_page pages x _ _ Hpage) as (H1 & H2 & H3).
    { intros j p Hp Hlt. apply (Hemp j p Hp). nia. }
    assert (Hemp' : forall j p,
               nth_error (<[Z.to_nat (c / r) := Put page x]> pages) j = Some p ->
               c + 1 <= Z.of_nat j * r -> records p = []).
    { intros j p Hp Hle.
      destruct (Nat.eq_dec (Z.to_nat (c / r)) j) as [E|E].
      - exfalso. subst j. rewrite Z2Nat.id in Hle by lia. nia.
      - rewrite nth_error_insert_ne in Hp by exact E.
        apply (Hemp j p Hp). lia. }
    destruct (IH (c + 1) _ _ ltac:(lia) Hemp' H) as (Hlen & Hl & Hu & Hcat).
    rewrite Hlen, length_insert, Hl, Hu, Hcat, H1, H2, H3, <- app_assoc.
    now repeat split.
Qed.

Lemma make_pages_nth (keys : list Slice) (count : nat) :
  forall i pages j p,
    make_pages count i keys = Done pages ->
    nth_error pages j = Some p ->
    nth_error keys (i + j) = Some (lower_boundary p).
Proof.
  induction count as [|count IH]; intros i pages j p H Hp; cbn [make_pages] in H.
  - injection H as <-. destruct j; discriminate Hp.
  - apply bind_Done_inv in H as (lo & Hlo & H). apply from_option_inv in Hlo.
    apply bind_Done_inv in H as (hi & _ & H).
    apply bind_Done_inv in H as (rest & Hrest & H). injection H as <-.
    destruct j as [|j]; simpl in Hp.
    + injection Hp as <-. now rewrite Nat.add_0_r.
    + rewrite <- Nat.add_succ_comm. now apply (IH _ _ _ _ Hrest).
Qed.

(** The second pass puts on page [j] the records whose running count lies in
    [[j * r, (j + 1) * r)]. *)
Lemma populate_chunks (r : Z) (pmi2 : list (Slice * Slice)) :
  0 < r ->
  forall c pages pages',
    0 <= c ->
    populate r pmi2 c pages = Done pages' ->
    forall j p',
      nth_error pages' j = Some p' ->
      exists p,
        nth_error pages j = Some p /\
        records p' =
        records p ++
        firstn (Z.to_nat ((Z.of_nat j + 1) * r - c) - Z.to_nat (Z.of_nat j * r - c))
               (skipn (Z.to_nat (Z.of_nat j * r - c)) pmi2).
Proof.
  intros Hr. induction pmi2 as [|x pmi2 IH]; intros c pages pages' Hc H j p' Hp';
    cbn [populate] in H.
  - injection H as <-. exists p'. split; [exact Hp'|].
    now rewrite skipn_nil, firstn_nil, app_nil_r.
  - apply bind_Done_inv in H as (page & Hpage & H).
    apply from_option_inv in Hpage.
    pose proof (Z.div_pos c r Hc Hr) as Hq.
    pose proof (Z.mul_div_le c r Hr) as Hlow.
    pose proof (Z.mul_succ_div_gt c r Hr) as Hhigh.
    destruct (IH (c + 1) _ _ ltac:(lia) H j p' Hp') as (p1 & Hp1 & Hrec).
    rewrite Hrec.
    destruct (Nat.eq_dec (Z.to_nat (c / r)) j) as [E|E].
    + rewrite E in Hp1, Hpage.
      rewrite nth_error_insert_eq in Hp1
        by (apply nth_error_Some; rewrite Hpage; discriminate).
      injection Hp1 as <-. exists page. split; [exact Hpage|].
      assert (Ej : Z.of_nat j = c / r) by lia.
      cbn [Put records]. rewrite <- app_assoc. f_equal.
      replace (Z.to_nat (Z.of_nat j * r - c)) with 0%nat by nia.
      replace (Z.to_nat (Z.of_nat j * r - (c + 1))) with 0%nat by nia.
      rewrite !Nat.sub_0_r. cbn [skipn].
      replace (Z.to_nat ((Z.of_nat j + 1) * r - c))
        with (S (Z.to_nat ((Z.of_nat j + 1) * r - (c + 1)))) by nia.
      reflexivity.
    + rewrite nth_error_insert_ne in Hp1 by exact E.
      exists p1. split; [exact Hp1|]. f_equal.
      destruct (Z.lt_ge_cases (Z.of_nat j) (c / r)) as [Hlt|Hge].
      * replace (Z.to_nat ((Z.of_nat j + 1) * r - (c + 1))) with 0%nat by nia.
        replace (Z.to_nat ((Z.of_nat j + 1) * r - c)) with 0%nat by nia.
        reflexivity.
      * assert (Hgt : c / r + 1 <= Z.of_nat j) by lia.
        replace (Z.to_nat (Z.of_nat j * r - c))
          with (S (Z.to_nat (Z.of_nat j * r - (c + 1)))) by nia.
        replace (Z.to_nat ((Z.of_nat j + 1) * r - c))
          with (S (Z.to_nat ((Z.of_nat j + 1) * r - (c + 1)))) by nia.
        reflexivity.
Qed.

(** The keys the first pass notes are the keys of the records whose running
    count is a multiple of [r]. *)
Lemma first_pass_keys (r : Z) (pmi : list (Slice * Slice)) :
  0 < r ->
  forall c keys k y,
    1 <= c ->
    nth_error (snd (first_pass r pmi c keys)) (length keys + k) = Some y ->
    exists x,
      nth_error pmi (Z.to_nat (((c - 1) / r + 1 + Z.of_nat k) * r - c)) = Some x
      /\ y = fst x.
Proof.
  intros Hr. induction pmi as [|x pmi IH]; intros c keys k y Hc Hy.
  - simpl in Hy.
    assert (Hnone : nth_error keys (length keys + k) = None)
      by (apply nth_error_None; lia).
    congruence.
  - cbn [first_pass] in Hy.
    pose proof (ReorgFacts.div_succ c r Hr Hc) as Hdiv.
    pose proof (Z.div_mod c r ltac:(lia)) as Hdm.
    pose proof (Z.mod_pos_bound c r Hr) as Hmb.
    destruct (Z.gtb_spec c 0); [|lia].
    destruct (Z.eqb_spec (c mod r) 0) as [E|E]; cbn [andb] in Hy.
    + destruct k as [|k].
      * destruct (first_pass_prefix r pmi (c + 1) (keys ++ [fst x]))
          as (extra & Hex).
        rewrite Hex, Nat.add_0_r, <- app_assoc, nth_error_app2 in Hy by lia.
        rewrite Nat.sub_diag in Hy. injection Hy as <-.
        exists x. split; [|reflexivity].
        replace (Z.to_nat (((c - 1) / r + 1 + Z.of_nat 0) * r - c)) with 0%nat
          by nia.
        reflexivity.
      * replace (length keys + S k)%nat with (length (keys ++ [fst x]) + k)%nat
          in Hy by (rewrite length_app; simpl; lia).
        destruct (IH (c + 1) (keys ++ [fst x]) k y ltac:(lia) Hy)
          as (x' & Hx' & ->).
        exists x'. split; [|reflexivity].
        replace (c + 1 - 1) with c in Hx' by lia.
        replace (Z.to_nat (((c - 1) / r + 1 + Z.of_nat (S k)) * r - c))
          with (S (Z.to_nat ((c / r + 1 + Z.of_nat k) * r - (c + 1)))) by nia.
        exact Hx'.
    + destruct (IH (c + 1) keys k y ltac:(lia) Hy) as (x' & Hx' & ->).
      exists x'. split; [|reflexivity].
      replace (c + 1 - 1) with c in Hx' by lia.
      replace (Z.to_nat (((c - 1) / r + 1 + Z.of_nat k) * r - c))
        with (S (Z.to_nat ((c / r + 1 + Z.of_nat k) * r - (c + 1)))) by nia.
      exact Hx'.
Qed.

(** *** The backward loop *)

Lemma commit_pages_frame_kept (chain : list Z) (pages : list Page) (x : Z) :
  forall indices db db',
    commit_pages chain pages db indices = Done db' ->
    x < next_page_id_ db ->
    (forall j, In j indices -> nth_error chain j <> Some x) ->
    frames_ db' !! x = frames_ db !! x.
Proof.
  induction indices as [|i indices IH]; intros db db' H Hx Hne.
  - now injection H as <-.
  - cbn [commit_pages] in H.
    apply bind_Done_inv in H as (db1 & Hstep & H).
    apply commit_page_inv in Hstep
      as (page & frame_id & _
          & [(Hlt & Hf & _ & Hn & Hfr)|(Hge & -> & _ & Hn & Hfr)] & _).
    + rewrite (IH _ _ H); [|lia|intros j Hj; apply Hne; now right].
      rewrite Hfr. apply lookup_insert_ne. intros ->.
      apply (Hne i); [now left | exact Hf].
    + rewrite (IH _ _ H); [|lia|intros j Hj; apply Hne; now right].
      rewrite Hfr, !lookup_insert_ne by lia. reflexivity.
Qed.

Lemma combine_app {A B : Type} (a c : list A) (b d : list B) :
  length a = length b ->
  combine (a ++ c) (b ++ d) = combine a b ++ combine c d.
Proof.
  revert b. induction a as [|x a IH]; intros [|y b] H; simpl in H;
    try discriminate; [reflexivity|].
  simpl. rewrite IH by lia. reflexivity.
Qed.

(** The backward loop over the pages [n - 1] down to [0]: page [i] goes to the
    frame [i] of the chain, or to a page allocated for it, and the model
    receives the lower boundary of every page with the id of its frame, the
    last page first. *)
Lemma commit_backward (chain : list Z) (pages : list Page) :
  List.NoDup chain ->
  forall n db db',
    (n <= length pages)%nat ->
    Forall (fun x => x < next_page_id_ db) chain ->
    commit_pages chain pages db (rev (seq 0 n)) = Done db' ->
    exists new ids,
      calls_ db' = calls_ db ++ new /\
      next_page_id_ db <= next_page_id_ db' /\
      length ids = n /\
      (forall i x, nth_error ids i = Some x ->
                   if (i <? length chain)%nat then nth_error chain i = Some x
                   else next_page_id_ db <= x < next_page_id_ db') /\
      model_inserts new =
      rev (combine (map lower_boundary (firstn n pages)) ids) /\
      Forall2 (fun x p => frames_ db' !! x = Some p) ids (firstn n pages) /\
      model_ db' = apply_inserts (model_ db) (model_inserts new).
Proof.
  intros Hnd. induction n as [|n IH]; intros db db' Hn Hb H.
  - injection H as <-. exists [], []. rewrite app_nil_r.
    repeat split; try reflexivity; try lia.
    + intros [|i] x Hx; discriminate Hx.
    + constructor.
  - rewrite seq_S, rev_app_distr in H. cbn [rev app plus commit_pages] in H.
    apply bind_Done_inv in H as (db1 & Hstep & H).
    apply commit_page_inv in Hstep
      as (page & frame_id & Hpage & Hcase & Hmodel).
    assert (Hn1 : next_page_id_ db <= next_page_id_ db1 <= next_page_id_ db + 1)
      by (destruct Hcase as [(_ & _ & _ & -> & _)|(_ & _ & _ & -> & _)]; lia).
    destruct (IH db1 db') as (new & ids & Hc & Hnext & Hlen & Hids & Hmi & Hfr
                              & Hm); [lia | | exact H |].
    { eapply List.Forall_impl; [|exact Hb]. simpl. intros; lia. }
    assert (Hpre : firstn (S n) pages = firstn n pages ++ [page]).
    { now rewrite firstn_S_nth_error, Hpage. }
    assert (Hfl : length (firstn n pages) = n)
      by (rewrite length_firstn; lia).
    assert (Hkept : frames_ db' !! frame_id = Some page).
    { rewrite (commit_pages_frame_kept chain pages frame_id _ _ _ H).
      - destruct Hcase as [(_ & _ & _ & _ & ->)|(_ & _ & _ & _ & ->)];
          apply lookup_insert_eq.
      - destruct Hcase as [(Hlt & Hf & _ & -> & _)|(_ & -> & _ & -> & _)];
          [|lia].
        rewrite List.Forall_forall in Hb. apply Hb.
        eapply nth_error_In, Hf.
      - intros j Hj. apply in_rev, in_seq in Hj.
        destruct Hcase as [(Hlt & Hf & _)|(_ & -> & _)].
        + intros Hj'. rewrite <- Hf in Hj'.
          pose proof (proj1 (NoDup_nth_error chain) Hnd j n ltac:(lia) Hj').
          lia.
        + intros Hj'. apply nth_error_In in Hj'.
          rewrite List.Forall_forall in Hb. specialize (Hb _ Hj'). lia. }
    assert (Hstepc : exists pre,
               calls_ db1 = calls_ db ++ pre ++
                            [ModelInsert (lower_boundary page) frame_id;
                             UnfixPage frame_id true] /\
               model_inserts pre = []).
    { destruct Hcase as [(_ & _ & -> & _)|(_ & _ & -> & _)].
      - exists []. now split.
      - exists [AllocatePage frame_id; FixPage frame_id true true].
        now split. }
    destruct Hstepc as (pre & Hc1 & Hpre0).
    exists ((pre ++ [ModelInsert (lower_boundary page) frame_id;
                     UnfixPage frame_id true]) ++ new), (ids ++ [frame_id]).
    split; [rewrite Hc, Hc1, <- !app_assoc; reflexivity|].
    split; [lia|].
    split; [rewrite length_app; simpl; lia|].
    assert (Hmi' : model_inserts
                     ((pre ++ [ModelInsert (lower_boundary page) frame_id;
                               UnfixPage frame_id true]) ++ new) =
                   (lower_boundary page, frame_id) :: model_inserts new).
    { rewrite !model_inserts_app, Hpre0. reflexivity. }
    split; [|split; [|split]].
    + intros i x Hx.
      destruct (Nat.lt_ge_cases i n) as [Hi|Hi].
      * rewrite nth_error_app1 in Hx by lia.
        specialize (Hids i x Hx).
        destruct (i <? length chain)%nat; [exact Hids | lia].
      * rewrite nth_error_app2 in Hx by lia.
        destruct (i - length ids)%nat as [|k] eqn:Ek; simpl in Hx;
          [|destruct k; discriminate Hx].
        injection Hx as <-. assert (i = n) by lia. subst i.
        destruct Hcase as [(Hlt & Hf & _)|(Hge & -> & _ & Hn' & _)].
        -- destruct (Nat.ltb_spec n (length chain)); [exact Hf | lia].
        -- destruct (Nat.ltb_spec n (length chain)); lia.
    + rewrite Hmi', Hmi, Hpre, map_app, combine_app
        by (rewrite length_map; lia).
      rewrite rev_app_distr. reflexivity.
    + rewrite Hpre. apply Forall2_app; [exact Hfr|].
      constructor; [exact Hkept | constructor].
    + rewrite Hm, Hmi', Hmodel. reflexivity.
Qed.

(** *** The steps of a call that returned *)

Section Geometry.
Variables UsableSize PerRecordMetadataSize : Z.
Variable records_per_page_of : Z -> Z -> Z -> Z.

Abbreviation rpp := (records_per_page records_per_page_of).
Abbreviation reorganize :=
  (ReorganizeOverflowChain UsableSize PerRecordMetadataSize records_per_page_of).

Lemma adjust_fill_Done (max_fanout : Z) (fuel : nat) :
  forall dist d,
    adjust_fill records_per_page_of fuel max_fanout dist = Done d ->
    0 < rpp d.
Proof.
  induction fuel as [|fuel IH]; intros dist d H; cbn [adjust_fill] in H;
    apply bind_Done_inv in H as (n & Hn & H); unfold num_pages in Hn;
    destruct (Z.eqb_spec (rpp dist) 0) as [E|E]; try discriminate Hn;
    destruct (n >? max_fanout); try discriminate H.
  - injection H as <-.
    pose proof (Z.mod_pos_bound
                  (records_per_page_of (record_size dist) (key_size dist)
                                       (page_fill_pct dist)) two64) as Hb.
    unfold records_per_page in *. unfold two64 in *. lia.
  - now apply (IH _ _ H).
  - injection H as <-.
    pose proof (Z.mod_pos_bound
                  (records_per_page_of (record_size dist) (key_size dist)
                                       (page_fill_pct dist)) two64) as Hb.
    unfold records_per_page in *. unfold two64 in *. lia.
Qed.

(** What a call on a chain of another length than one has done when it
    returns: it rejected the chain, or every step of the main path went
    through. *)
Lemma reorganize_inv (fuel : nat) (options : Options) (db : DBImpl)
      (chain : list Z) (fill_pct : Z) (st : Status) (db' : DBImpl) :
  reorganize fuel options db chain fill_pct = Done (st, db') ->
  Z.of_nat (length chain) <> 1 ->
  (st = InvalidArgument /\ db' = unfix_clean db chain) \/
  (st = OK /\
   exists head_id head chain_pages r count keys pages0 pages db1 n,
     n = Z.to_nat (ceil_div count r) /\
     nth_error chain 0 = Some head_id /\
     frames_ db !! head_id = Some head /\
     mapM (fun page_id => frames_ db !! page_id) chain = Some chain_pages /\
     0 < r /\
     first_pass r (chain_records chain_pages) 0 [lower_boundary head]
     = (count, keys) /\
     length keys = n /\
     make_pages n 0 (keys ++ [upper_boundary head]) = Done pages0 /\
     populate r (chain_records chain_pages) 0 pages0 = Done pages /\
     commit_pages chain pages db (rev (seq 0 n)) = Done db1 /\
     db' = clear_surplus db1 (skipn n chain)).
Proof.
  intros H Hne. unfold ReorganizeOverflowChain in H.
  destruct (Z.eqb_spec (Z.of_nat (length chain)) 1); [contradiction|].
  destruct (Z.of_nat (length chain) >? max_reorg_fanout options).
  { left. injection H as <- <-. now split. }
  right.
  apply bind_Done_inv in H as (head_id & Hid & H). apply from_option_inv in Hid.
  apply bind_Done_inv in H as (head & Hhead & H).
  apply from_option_inv in Hhead.
  apply bind_Done_inv in H as (dist0 & _ & H).
  apply bind_Done_inv in H as (dist & Hadj & H).
  apply adjust_fill_Done in Hadj.
  apply bind_Done_inv in H as (chain_pages & HM & H).
  apply from_option_inv in HM.
  destruct (first_pass (rpp dist) (chain_records chain_pages) 0
                       [lower_boundary head]) as [count keys] eqn:Efp.
  apply bind_Done_inv in H as (u & _ & H).
  apply bind_Done_inv in H as (np & Hn & H).
  unfold num_pages in Hn.
  change (rpp (set_num_keys dist count)) with (rpp dist) in Hn.
  destruct (Z.eqb_spec (rpp dist) 0); [discriminate Hn|].
  injection Hn as <-. cbn [num_keys set_num_keys] in H.
  apply bind_Done_inv in H as (u' & Hlen & H). apply assert_inv in Hlen.
  apply Z.eqb_eq in Hlen. rewrite length_app in Hlen. simpl in Hlen.
  apply bind_Done_inv in H as (pages0 & Hmk & H).
  apply bind_Done_inv in H as (pages & Hpop & H).
  apply bind_Done_inv in H as (db1 & Hcommit & H).
  injection H as <- <-. split; [reflexivity|].
  exists head_id, head, chain_pages, (rpp dist), count, keys, pages0, pages, db1,
         (Z.to_nat (ceil_div count (rpp dist))).
  repeat (split; [first [assumption | reflexivity | lia]|]).
  reflexivity.
Qed.

(** X12.  Whenever [ReorganizeOverflowChain] returns, with whatever status, it
    has unfixed every frame of the chain it was given and every page it fixed
    itself, each once: the page ids of its [UnfixPage] calls are, up to order,
    the ids of the chain followed by the ids of its own [FixPage] calls. *)
Theorem every_fixed_frame_is_unfixed (fuel : nat) (options : Options)
        (db : DBImpl) (chain : list Z) (fill_pct : Z) (st : Status)
        (db' : DBImpl) :
  reorganize fuel options db chain fill_pct = Done (st, db') ->
  exists new,
    calls_ db' = calls_ db ++ new /\
    Permutation (unfixed new) (chain ++ newly_fixed new).
Proof.
  intros H.
  destruct (Z.eq_dec (Z.of_nat (length chain)) 1) as [E1|Hne].
  { destruct chain as [|page_id [|? ?]]; simpl in E1; try lia.
    injection H as <- <-. exists [UnfixPage page_id false].
    split; reflexivity. }
  apply reorganize_inv in H as [[-> ->]|[-> H]]; [| |exact Hne].
  - rewrite ReorgFacts.unfix_clean_calls. cbn [calls_].
    eexists. split; [reflexivity|].
    assert (E : forall l, unfixed (map (fun x => UnfixPage x false) l) = l
                          /\ newly_fixed (map (fun x => UnfixPage x false) l)
                             = []).
    { induction l as [|x l [IH1 IH2]]; [now split|].
      simpl. split; [now rewrite IH1 | exact IH2]. }
    destruct (E chain) as [-> ->]. now rewrite app_nil_r.
  - destruct H as (head_id & head & chain_pages & r & count & keys & pages0
                   & pages & db1 & n & _ & _ & _ & _ & _ & _ & _ & _ & _
                   & Hcommit & ->).
    apply commit_pages_unfix in Hcommit as (new1 & Hc1 & Hperm).
    destruct (clear_surplus_trace (skipn n chain) db1)
      as (new2 & Hc2 & Hu2 & Hf2 & _).
    exists (new1 ++ new2).
    split; [now rewrite Hc2, Hc1, <- app_assoc|].
    rewrite unfixed_app, newly_fixed_app, Hu2, Hf2, app_nil_r.
    assert (Hre : Permutation (reused chain (rev (seq 0 n))) (firstn n chain)).
    { rewrite <- reused_seq. unfold reused.
      apply Permutation_flat_map, Permutation_sym, Permutation_rev. }
    rewrite <- (firstn_skipn n chain) at 2.
    rewrite Hperm, Hre.
    rewrite <- !app_assoc. apply Permutation_app_head, Permutation_app_comm.
Qed.

Lemma Forall2_with {A B : Type} (Q : A -> Prop) (P P' : A -> B -> Prop)
      (l : list A) (k : list B) :
  (forall x y, Q x -> P x y -> P' x y) ->
  Forall Q l -> Forall2 P l k -> Forall2 P' l k.
Proof.
  intros Himp HQ H. induction H as [|x y l k Hxy H IH]; [constructor|].
  inversion HQ; subst. constructor; [now apply Himp | now apply IH].
Qed.

(** What a reorganization that went through leaves behind. *)
Lemma reorganize_layout (fuel : nat) (options : Options) (db : DBImpl)
      (chain : list Z) (fill_pct : Z) (db' : DBImpl) (head_id : Z)
      (head : Page) (chain_pages : list Page) :
  reorganize fuel options db chain fill_pct = Done (OK, db') ->
  Z.of_nat (length chain) <> 1 ->
  List.NoDup chain ->
  Forall (fun x => x < next_page_id_ db) chain ->
  nth_error chain 0 = Some head_id ->
  frames_ db !! head_id = Some head ->
  mapM (fun page_id => frames_ db !! page_id) chain = Some chain_pages ->
  exists new pages ids,
    calls_ db' = calls_ db ++ new /\
    pages <> [] /\
    length ids = length pages /\
    Forall2 (fun x p => frames_ db' !! x = Some p) ids pages /\
    (forall i x, nth_error ids i = Some x ->
                 if (i <? length chain)%nat then nth_error chain i = Some x
                 else next_page_id_ db <= x < next_page_id_ db') /\
    concat (map records pages) = chain_records chain_pages /\
    chained (lower_boundary head) (upper_boundary head) pages /\
    Forall (fun x => frames_ db' !! x = Some zero_page)
           (skipn (length pages) chain) /\
    model_inserts new = rev (combine (map lower_boundary pages) ids) /\
    model_ db' = apply_inserts (model_ db) (model_inserts new) /\
    model_ db' !! lower_boundary head = Some head_id /\
    exists r,
      0 < r /\
      forall j p,
        nth_error pages j = Some p ->
        records p = firstn (Z.to_nat r)
                           (skipn (j * Z.to_nat r) (chain_records chain_pages))
        /\ records p <> [] /\
        (j <> 0%nat ->
         exists x, nth_error (chain_records chain_pages) (j * Z.to_nat r)
                   = Some x /\ lower_boundary p = fst x).
Proof.
  intros H Hne Hnd Hb Hid0 Hhead0 HM0.
  apply reorganize_inv in H as [[Hst _]|[_ H]]; [discriminate Hst| |exact Hne].
  destruct H as (hid & hd & cps & r & count & keys & pages0 & pages & db1 & n
                 & Hn & Hid & Hhead & HM & Hr & Hfp & Hlen & Hmk & Hpop
                 & Hcommit & ->).
  assert (hid = head_id) by congruence. subst hid.
  assert (hd = head) by congruence. subst hd.
  assert (cps = chain_pages) by congruence. subst cps.
  clear Hid Hhead HM.
  destruct (first_pass_prefix r (chain_records chain_pages) 0
                              [lower_boundary head]) as (extra & Hex).
  rewrite Hfp in Hex. cbn [snd app] in Hex. subst keys.
  cbn [length] in Hlen.
  (* the chain holds a record, and the first pass has counted them all *)
  assert (Hrecs : chain_records chain_pages <> []).
  { intros E. rewrite E in Hfp. simpl in Hfp. injection Hfp as <- _.
    unfold ceil_div in Hn. rewrite Z.div_0_l, Z.mod_0_l in Hn by lia.
    simpl in Hn. lia. }
  destruct (ReorgFacts.first_pass_spec r (chain_records chain_pages)
              (lower_boundary head) Hr Hrecs) as [Hcount _].
  rewrite Hfp in Hcount. cbn [fst] in Hcount.
  pose proof (ReorgFacts.ceil_div_pred count r Hr) as Hpred.
  assert (Hfit : forall j, (j < n)%nat ->
                           (j * Z.to_nat r < length (chain_records chain_pages))%nat).
  { intros j Hj.
    assert (Hlen1 : (1 <= length (chain_records chain_pages))%nat)
      by (destruct (chain_records chain_pages); [contradiction | simpl; lia]).
    specialize (Hpred ltac:(lia)).
    pose proof (Z.mul_div_le (count - 1) r Hr).
    assert (Z.of_nat j <= (count - 1) / r) by lia.
    assert (Z.of_nat j * r <= count - 1) by nia.
    nia. }
  assert (Hkeys : forall j y,
             j <> 0%nat ->
             nth_error (lower_boundary head :: extra) j = Some y ->
             exists x, nth_error (chain_records chain_pages) (j * Z.to_nat r)
                       = Some x /\ y = fst x).
  { intros j y Hj Hy. destruct j as [|k]; [contradiction|].
    destruct (chain_records chain_pages) as [|x0 recs] eqn:Erecs;
      [contradiction|].
    cbn [first_pass] in Hfp. rewrite andb_false_r in Hfp.
    change (0 + 1) with 1 in Hfp.
    destruct (first_pass_keys r recs Hr 1 [lower_boundary head] k y
                              ltac:(lia)) as (x & Hx & ->).
    { rewrite Hfp. exact Hy. }
    exists x. split; [|reflexivity].
    replace (1 - 1) with 0 in Hx by lia. rewrite Z.div_0_l in Hx by lia.
    replace (S k * Z.to_nat r)%nat
      with (S (Z.to_nat ((0 + 1 + Z.of_nat k) * r - 1))) by nia.
    exact Hx. }
  destruct (make_pages_Done _ _ _ _ Hmk) as (Hlen0 & Hemp0 & Hch0).
  assert (Hemp : forall j p, nth_error pages0 j = Some p -> records p = []).
  { intros j p Hp. rewrite List.Forall_forall in Hemp0.
    eapply Hemp0, nth_error_In, Hp. }
  destruct (populate_Done r (chain_records chain_pages) Hr 0 pages0 pages)
    as (Hlenp & Hl & Hu & Hcat); [lia | | exact Hpop |].
  { intros j p Hp _. now apply (Hemp j p). }
  rewrite (concat_empty pages0 Hemp) in Hcat. cbn [app] in Hcat.
  assert (Hchained : chained (lower_boundary head) (upper_boundary head) pages).
  { apply (chained_ext _ _ pages0); [exact Hl | exact Hu |].
    apply Hch0; [reflexivity|].
    rewrite Nat.add_0_l, <- Hlen.
    change (S (length extra)) with (length (lower_boundary head :: extra)).
    rewrite nth_error_app2, Nat.sub_diag by lia. reflexivity. }
  destruct (commit_backward chain pages Hnd n db db1)
    as (new1 & ids & Hc1 & Hnext & Hlids & Hids & Hmi & Hfr & Hm);
    [lia | exact Hb | exact Hcommit |].
  rewrite firstn_all2 in Hmi, Hfr by lia.
  destruct (clear_surplus_trace (skipn n chain) db1)
    as (new2 & Hc2 & _ & _ & Hmi2 & Hm2 & Hnext2 & Hzero & Hkeep).
  assert (Hout : Forall (fun x => ~ In x (skipn n chain)) ids).
  { apply List.Forall_forall. intros x Hx Hin.
    apply In_nth_error in Hx as (i & Hi).
    apply In_nth_error in Hin as (k & Hk).
    rewrite nth_error_skipn in Hk.
    assert (Hin : (i < n)%nat).
    { rewrite <- Hlids. apply nth_error_Some. rewrite Hi. discriminate. }
    specialize (Hids i x Hi).
    destruct (Nat.ltb_spec i (length chain)) as [Hlt|Hge].
    - rewrite <- Hk in Hids.
      pose proof (proj1 (NoDup_nth_error chain) Hnd i (n + k)%nat Hlt Hids).
      lia.
    - apply nth_error_In in Hk. rewrite List.Forall_forall in Hb.
      specialize (Hb x Hk). lia. }
  exists (new1 ++ new2), pages, ids.
  split; [now rewrite Hc2, Hc1, <- app_assoc|].
  assert (Hpne : pages <> []).
  { intros ->. simpl in Hlenp. lia. }
  split; [exact Hpne|]. split; [lia|].
  split.
  { eapply Forall2_with; [|exact Hout|exact Hfr].
    intros x p Hx Hp. simpl in Hp. now rewrite Hkeep. }
  split.
  { intros i x Hi. specialize (Hids i x Hi). rewrite Hnext2. exact Hids. }
  split; [exact Hcat|]. split; [exact Hchained|].
  split.
  { apply List.Forall_forall. intros x Hx. apply Hzero.
    now replace n with (length pages) by lia. }
  assert (Hmi' : model_inserts (new1 ++ new2) =
                 rev (combine (map lower_boundary pages) ids)).
  { now rewrite model_inserts_app, Hmi2, app_nil_r. }
  split; [exact Hmi'|].
  assert (Hmodel : model_ (clear_surplus db1 (skipn n chain)) =
                   apply_inserts (model_ db) (model_inserts (new1 ++ new2))).
  { rewrite Hm2, Hm, Hmi', Hmi. reflexivity. }
  split; [exact Hmodel|].
  split.
  { rewrite Hmodel, Hmi'.
    destruct pages as [|p0 ps]; [contradiction|].
    destruct ids as [|x0 xs]; [simpl in Hlids; simpl in Hlenp; lia|].
    destruct Hchained as [Hlo _].
    pose proof (Hids 0%nat x0 eq_refl) as Hx0.
    destruct chain as [|c0 chain']; [discriminate Hid0|].
    cbn [Nat.ltb Nat.leb length] in Hx0.
    assert (x0 = head_id) by congruence. subst x0.
    cbn [map combine rev]. unfold apply_inserts.
    rewrite fold_left_app. cbn [fold_left fst snd]. rewrite Hlo.
    apply lookup_insert_eq. }
  exists r. split; [exact Hr|]. intros j p Hp.
  assert (Hj : (j < n)%nat).
  { rewrite <- Hlen0, <- Hlenp. apply nth_error_Some. rewrite Hp.
    discriminate. }
  destruct (populate_chunks r (chain_records chain_pages) Hr 0 pages0 pages
              ltac:(lia) Hpop j p Hp) as (p0 & Hp0 & Hrec).
  rewrite (Hemp j p0 Hp0) in Hrec. cbn [app] in Hrec.
  rewrite !Z.sub_0_r in Hrec.
  replace (Z.to_nat ((Z.of_nat j + 1) * r) - Z.to_nat (Z.of_nat j * r))%nat
    with (Z.to_nat r) in Hrec by nia.
  replace (Z.to_nat (Z.of_nat j * r)) with (j * Z.to_nat r)%nat in Hrec by nia.
  split; [exact Hrec|]. split.
  - rewrite Hrec. specialize (Hfit j Hj).
    destruct (skipn (j * Z.to_nat r) (chain_records chain_pages)) eqn:Esk.
    + apply (f_equal (@length _)) in Esk. rewrite length_skipn in Esk.
      simpl in Esk. lia.
    + destruct (Z.to_nat r) eqn:Er; [lia | discriminate].
  - intros Hj0. apply (Hkeys j (lower_boundary p) Hj0).
    assert (El : nth_error (map lower_boundary pages) j
                 = Some (lower_boundary p)) by (now apply map_nth_error).
    rewrite Hl in El.
    rewrite nth_error_map in El. destruct (nth_error pages0 j) as [q|] eqn:Eq;
      [|discriminate El].
    simpl in El. injection El as El.
    pose proof (make_pages_nth _ _ _ _ _ _ Hmk Eq) as Hk.
    rewrite Nat.add_0_l in Hk.
    rewrite nth_error_app1 in Hk by (simpl; lia).
    now rewrite <- El.
Qed.


(** X14.  After a reorganization of a chain of distinct frames that returned
    OK, the model is the model of before with one entry inserted for every
    new page, the last page first and the head last: the lower boundary of
    the page, mapped to the frame that holds the page.  The lower boundary of
    the chain is mapped to the head frame again. *)
Theorem model_receives_pages_back_to_front
        (fuel : nat) (options : Options) (db : DBImpl) (chain : list Z)
        (fill_pct : Z) (db' : DBImpl) (head_id : Z) (head : Page)
        (chain_pages : list Page) :
  reorganize fuel options db chain fill_pct = Done (OK, db') ->
  Z.of_nat (length chain) <> 1 ->
  List.NoDup chain ->
  Forall (fun x => x < next_page_id_ db) chain ->
  nth_error chain 0 = Some head_id ->
  frames_ db !! head_id = Some head ->
  mapM (fun page_id => frames_ db !! page_id) chain = Some chain_pages ->
  exists new pages ids,
    calls_ db' = calls_ db ++ new /\
    length ids = length pages /\
    Forall2 (fun x p => frames_ db' !! x = Some p) ids pages /\
    model_inserts new = rev (combine (map lower_boundary pages) ids) /\
    model_ db' = apply_inserts (model_ db) (model_inserts new) /\
    model_ db' !! lower_boundary head = Some head_id.
Proof.
  intros H Hne Hnd Hb Hid Hhead HM.
  destruct (reorganize_layout fuel options db chain fill_pct db' head_id head
              chain_pages H Hne Hnd Hb Hid Hhead HM)
    as (new & pages & ids & Hc & _ & Hlen & Hfr & _ & _ & _ & _ & Hmi & Hm
        & Hhd & _).
  exists new, pages, ids. auto 10.
Qed.


End Geometry.

Lemma every_fixed_frame_is_unfixed_witness :
  exists db',
    ReorganizeOverflowChain 50 0 (fun _ _ f => f / 25) 100 (mkOptions 3 10 8)
                            growing_chain [1; 2] 50 = Done (OK, db') /\
    exists new,
      calls_ db' = calls_ growing_chain ++ new /\
      Permutation (unfixed new) ([1; 2] ++ newly_fixed new).
Proof.
  eexists. split; [vm_compute; reflexivity|].
  apply (every_fixed_frame_is_unfixed 50 0 (fun _ _ f => f / 25) 100
           (mkOptions 3 10 8) growing_chain [1; 2] 50 OK).
  vm_compute. reflexivity.
Defined.


Lemma model_receives_pages_back_to_front_witness :
  exists db',
    ReorganizeOverflowChain 50 0 (fun _ _ f => f / 25) 100 (mkOptions 3 10 8)
                            growing_chain [1; 2] 50 = Done (OK, db') /\
    exists new pages ids,
      calls_ db' = calls_ growing_chain ++ new /\
      length ids = length pages /\
      Forall2 (fun x p => frames_ db' !! x = Some p) ids pages /\
      model_inserts new = rev (combine (map lower_boundary pages) ids) /\
      model_ db' = apply_inserts (model_ growing_chain) (model_inserts new) /\
      model_ db' !! "a" = Some 1.
Proof.
  eexists. split; [vm_compute; reflexivity|].
  apply (model_receives_pages_back_to_front
           50 0 (fun _ _ f => f / 25) 100 (mkOptions 3 10 8) growing_chain
           [1; 2] 50 _ 1
           (mkPage "a" "b" [("a1", "v"); ("a3", "v"); ("a5", "v")])
           [mkPage "a" "b" [("a1", "v"); ("a3", "v"); ("a5", "v")];
            mkPage "a" "b" [("a2", "v"); ("a4", "v")]]).
  - vm_compute. reflexivity.
  - simpl. lia.
  - repeat constructor; simpl; intuition lia.
  - repeat constructor.
  - reflexivity.
  - reflexivity.
  - reflexivity.
Defined.


End ReorgLayoutFacts.

(** ** LoadIntoNewSegment: every record on the page of its key *)

Module SegmentLoadFacts.
Import Manager PageBoundaries SegmentLoad.

Lemma lower_bound_loop_empty (comp : Key -> bool) (fuel : nat) (first len : Z) :
  len <= 0 -> lower_bound_loop fuel comp first len = Done first.
Proof.
  intros H. destruct fuel; simpl;
    destruct (Z.gtb_spec len 0); (lia || reflexivity).
Qed.

(** X15.  [std::lower_bound] over [KeyDomainIterator]s: on a range of fewer
    than [2^63] keys on which the comparison holds on an initial part only, it
    returns, within 64 halvings, the first key of the range on which the
    comparison fails, or the end of the range when there is none.  A range of
    [2^63] keys or more has a negative signed distance, and the search returns
    its lower end without looking at any key. *)
Theorem lower_bound_partition_point (comp : Key -> bool) (lower upper : Key) :
  0 <= lower < two64 -> 0 <= upper < two64 ->
  (2 ^ 63 <= (upper - lower) mod two64 ->
   lower_bound comp lower upper = Done lower) /\
  (lower <= upper -> upper - lower < 2 ^ 63 ->
   (forall a b, lower <= a <= b -> b < upper ->
                comp b = true -> comp a = true) ->
   exists r,
     lower_bound comp lower upper = Done r /\
     lower <= r <= upper /\
     (forall k, lower <= k < r -> comp k = true) /\
     (r < upper -> comp r = false)).
Proof.
  intros Hl Hu. split.
  - intros Hwide. unfold lower_bound. apply lower_bound_loop_empty.
    unfold to_signed64.
    pose proof (Z.mod_pos_bound (upper - lower) two64) as Hb.
    destruct (Z.ltb_spec ((upper - lower) mod two64) (2 ^ 63));
      unfold two64 in *; lia.
  - intros Hle Hw Hm. apply BoundaryFacts.lower_bound_spec; (lia || assumption).
Qed.

Lemma lower_bound_partition_point_witness :
  lower_bound (fun k => k <? 50) 70 10 = Done 70 /\
  exists r,
    lower_bound (fun k => k <? 50) 0 100 = Done r /\
    0 <= r <= 100 /\
    (forall k, 0 <= k < r -> (k <? 50) = true) /\
    (r < 100 -> (r <? 50) = false).
Proof.
  split.
  - destruct (lower_bound_partition_point (fun k => k <? 50) 70 10)
      as [H _]; [unfold two64; lia | unfold two64; lia |].
    apply H. vm_compute. intros E. discriminate E.
  - destruct (lower_bound_partition_point (fun k => k <? 50) 0 100)
      as [_ H]; [unfold two64; lia | unfold two64; lia |].
    apply H; [lia | lia |].
    intros a b Hab Hb Hc. apply Z.ltb_lt in Hc. apply Z.ltb_lt. lia.
Defined.

(** *** The cut-off search on the records *)

Lemma nondecreasing_nth (recs : list Rec) :
  nondecreasing recs ->
  forall i j a b,
    nth_error recs i = Some a -> nth_error recs j = Some b ->
    (i <= j)%nat -> fst a <= fst b.
Proof.
  unfold nondecreasing. intros H.
  induction H as [|x l Hl IH Hx]; intros i j a b Ha Hb Hij.
  - destruct i; discriminate Ha.
  - destruct i as [|i], j as [|j]; simpl in Ha, Hb; try lia.
    + injection Ha as <-. injection Hb as <-. lia.
    + injection Ha as <-. rewrite List.Forall_forall in Hx.
      apply Hx. eapply nth_error_In, Hb.
    + apply (IH i j); (assumption || lia).
Qed.

Lemma pow2_gt_lin (n : nat) : Z.of_nat n < 2 ^ Z.of_nat n.
Proof. apply Z.pow_gt_lin_r; lia. Qed.

Lemma cutoff_loop_spec (recs : list Rec) (page_upper : Key) :
  nondecreasing recs ->
  forall (fuel : nat) (first len : Z),
    0 <= len < 2 ^ Z.of_nat fuel ->
    0 <= first -> first + len <= Z.of_nat (length recs) ->
    exists c,
      cutoff_loop fuel recs page_upper first len = Done c /\
      first <= c <= first + len /\
      (forall i r, first <= i < c ->
                   nth_error recs (Z.to_nat i) = Some r -> fst r < page_upper) /\
      (forall r, c < first + len ->
                 nth_error recs (Z.to_nat c) = Some r -> page_upper <= fst r).
Proof.
  intros Hsorted.
  induction fuel as [|fuel IH]; intros first len Hlen Hf Hn.
  - simpl in Hlen. assert (len = 0) by lia. subst len.
    exists first. simpl. repeat split; intros; lia.
  - cbn [cutoff_loop].
    destruct (Z.gtb_spec len 0) as [Hpos|Hz].
    + rewrite Z.shiftr_div_pow2 by lia. change (2 ^ 1) with 2.
      rewrite Nat2Z.inj_succ, Z.pow_succ_r in Hlen by lia.
      pose proof (Z.div_mod len 2 ltac:(lia)) as Hdm.
      pose proof (Z.mod_pos_bound len 2 ltac:(lia)) as Hmb.
      destruct (nth_error recs (Z.to_nat (first + len / 2))) as [m|] eqn:Em;
        [|apply nth_error_None in Em; lia].
      cbn [from_option mbind outcome_bind].
      destruct (Z.ltb_spec (fst m) page_upper) as [Hlt|Hge].
      * destruct (IH (first + len / 2 + 1) (len - len / 2 - 1))
          as (c & Hrun & Hc & Hbelow & Hat); try lia.
        exists c. split; [exact Hrun|]. split; [lia|]. split.
        -- intros i r Hi Hr.
           destruct (Z.le_gt_cases i (first + len / 2)) as [Hle|Hgt].
           ++ pose proof (nondecreasing_nth recs Hsorted _ _ r m Hr Em
                            ltac:(lia)). lia.
           ++ apply (Hbelow i r); [lia | exact Hr].
        -- intros r Hlt' Hr. apply Hat; [lia | exact Hr].
      * destruct (IH first (len / 2)) as (c & Hrun & Hc & Hbelow & Hat);
          try lia.
        exists c. split; [exact Hrun|]. split; [lia|]. split.
        -- exact Hbelow.
        -- intros r Hlt' Hr.
           destruct (Z.eq_dec c (first + len / 2)) as [->|Hne].
           ++ assert (r = m) by congruence. subst r. exact Hge.
           ++ apply Hat; [lia | exact Hr].
    + assert (len = 0) by lia. subst len.
      exists first. repeat split; intros; lia.
Qed.

(** The cut-off position splits the records from [page_start] on into those
    below [page_upper] and those not below it. *)
Lemma cutoff_spec (recs : list Rec) (page_start : Z) (page_upper : Key) :
  nondecreasing recs ->
  0 <= page_start <= Z.of_nat (length recs) ->
  exists c,
    cutoff recs page_start page_upper = Done c /\
    page_start <= c <= Z.of_nat (length recs) /\
    (forall i r, page_start <= i < c ->
                 nth_error recs (Z.to_nat i) = Some r -> fst r < page_upper) /\
    (forall i r, c <= i ->
                 nth_error recs (Z.to_nat i) = Some r -> page_upper <= fst r).
Proof.
  intros Hsorted Hs. unfold cutoff.
  destruct (cutoff_loop_spec recs page_upper Hsorted (length recs) page_start
              (Z.of_nat (length recs) - page_start))
    as (c & Hrun & Hc & Hbelow & Hat).
  - pose proof (pow2_gt_lin (length recs)). lia.
  - lia.
  - lia.
  - exists c. split; [exact Hrun|]. split; [lia|]. split; [exact Hbelow|].
    intros i r Hi Hr.
    assert (Hin : (Z.to_nat i < length recs)%nat).
    { apply nth_error_Some. rewrite Hr. discriminate. }
    destruct (nth_error recs (Z.to_nat c)) as [m|] eqn:Em;
      [|apply nth_error_None in Em; lia].
    pose proof (Hat m ltac:(lia) eq_refl).
    pose proof (nondecreasing_nth recs Hsorted _ _ m r Em Hr ltac:(lia)).
    lia.
Qed.

Lemma range_Forall (P : Rec -> Prop) (recs : list Rec) (s e : Z) :
  0 <= s ->
  (forall i r, s <= i < e -> nth_error recs (Z.to_nat i) = Some r -> P r) ->
  Forall P (range recs s e).
Proof.
  intros Hs H. apply List.Forall_forall. intros r Hr.
  apply In_nth_error in Hr as (k & Hk).
  unfold range, at_index in Hk.
  rewrite nth_error_firstn in Hk.
  destruct (Nat.ltb_spec k (Z.to_nat (e - s))) as [Hlt|]; [|discriminate Hk].
  rewrite nth_error_skipn in Hk.
  apply (H (s + Z.of_nat k)); [lia|].
  now replace (Z.to_nat (s + Z.of_nat k)) with (Z.to_nat s + k)%nat by lia.
Qed.

(** *** The pages of the loop *)

Lemma fill_pages_step (recs : list Rec) (lower page_upper : Key)
      (rest : list Key) (page_start : Z) (upper_bound : Key) :
  fill_pages recs (lower :: page_upper :: rest) page_start upper_bound =
  (cutoff_it ← cutoff recs page_start page_upper;
   pages ← fill_pages recs (page_upper :: rest) cutoff_it upper_bound;
   Done (snd (LoadIntoPage zero_page lower page_upper
                           (range recs page_start cutoff_it)) :: pages)).
Proof. reflexivity. Qed.

Lemma fill_pages_spec (recs : list Rec) (upper_bound : Key) :
  nondecreasing recs ->
  Forall (fun r => fst r < upper_bound) recs ->
  forall lower_boundaries page_start,
    lower_boundaries <> [] ->
    0 <= page_start <= Z.of_nat (length recs) ->
    (forall i r, page_start <= i ->
                 nth_error recs (Z.to_nat i) = Some r ->
                 nth 0 lower_boundaries 0 <= fst r) ->
    exists pages,
      fill_pages recs lower_boundaries page_start upper_bound = Done pages /\
      length pages = length lower_boundaries /\
      concat (map page_records pages) =
      range recs page_start (Z.of_nat (length recs)) /\
      within_boundaries lower_boundaries upper_bound pages.
Proof.
  intros Hsorted Hub.
  induction lower_boundaries as [|lower rest IH]; intros page_start Hne Hs Hlow;
    [contradiction|].
  destruct rest as [|page_upper rest].
  - cbn [fill_pages LoadIntoPage]. eexists. split; [reflexivity|].
    split; [reflexivity|]. split; [simpl; now rewrite app_nil_r|].
    intros [|j] p Hp; simpl in Hp; [|destruct j; discriminate Hp].
    injection Hp as <-. cbn [lower_boundary upper_boundary page_records nth].
    split; [reflexivity|]. split; [reflexivity|].
    apply range_Forall; [lia|]. intros i r Hi Hr. split.
    + apply (Hlow i r); [lia | exact Hr].
    + rewrite List.Forall_forall in Hub. eapply Hub, nth_error_In, Hr.
  - rewrite fill_pages_step.
    destruct (cutoff_spec recs page_start page_upper Hsorted Hs)
      as (c & Hrun & Hc & Hbelow & Habove).
    rewrite Hrun, bind_Done.
    destruct (IH c) as (pages & Hfill & Hlen & Hcat & Hwithin);
      [discriminate | lia | exact Habove |].
    rewrite Hfill, bind_Done. cbn [LoadIntoPage snd].
    eexists. split; [reflexivity|].
    split; [simpl; now rewrite Hlen|].
    split.
    { cbn [map concat page_records]. rewrite Hcat.
      apply LoadFacts.range_app; lia. }
    intros [|j] p Hp; simpl in Hp.
    + injection Hp as <-. cbn [lower_boundary upper_boundary page_records nth].
      split; [reflexivity|]. split; [reflexivity|].
      apply range_Forall; [lia|]. intros i r Hi Hr. split.
      * apply (Hlow i r); [lia | exact Hr].
      * apply (Hbelow i r); [lia | exact Hr].
    + apply (Hwithin j p Hp).
Qed.

(** *** The segment *)

Section Model.
Variable PageForKey : Key -> Manager.Line64 -> Z -> Key -> Z.
Variable page_to_key : Manager.Line64 -> Z -> Key.
Variable seg : Segment.
Variable line : Manager.Line64.

Abbreviation pfk := (PageForKey (base_key seg) line (page_count seg)).

(** What the function relies on, as for the boundaries: the model sends
    growing keys to growing pages, some key to every page and no key beyond
    the last page, and the search bounds enclose every boundary. *)
Hypothesis monotone :
  forall a b, 0 <= a <= b -> b < two64 -> pfk a <= pfk b.
Hypothesis every_page_hit :
  forall i, 1 <= i < page_count seg -> exists k, 0 <= k < two64 /\ pfk k = i.
Hypothesis bounds_enclose :
  forall i, 1 <= i < page_count seg ->
    let '(lower, upper) := search_bounds PageForKey page_to_key seg line i in
    lower < upper /\ upper - lower < 2 ^ 63 /\ pfk lower < i <= pfk upper.
Hypothesis pages_in_range :
  forall k, 0 <= k < two64 -> pfk k < page_count seg.

Lemma boundaries_computed :
  model seg = Some line ->
  2 <= page_count seg ->
  exists bs,
    ComputePageLowerBoundaries PageForKey page_to_key seg
    = Done (base_key seg :: bs) /\
    Z.of_nat (length bs) = page_count seg - 1 /\
    boundaries_from PageForKey seg line 1 bs.
Proof.
  intros Hmodel Hcount. unfold ComputePageLowerBoundaries.
  destruct (Z.eqb_spec (page_count seg) 1); [lia|].
  rewrite Hmodel. unfold from_option. rewrite bind_Done.
  destruct (BoundaryFacts.boundaries_loop_spec
              PageForKey page_to_key seg line monotone every_page_hit
              bounds_enclose (Z.to_nat (page_count seg - 1)) 1
              [base_key seg])
    as (bs & Hloop & Hlen & Hbs); [lia..|].
  rewrite Hloop, bind_Done.
  assert (Hlength : Z.of_nat (length ([base_key seg] ++ bs)) = page_count seg)
    by (simpl; lia).
  rewrite (proj2 (Z.eqb_eq _ _) Hlength), assert_true_bind.
  exists bs. split; [reflexivity|]. split; [lia | exact Hbs].
Qed.


End Model.


End SegmentLoadFacts.

(** ** RewriteSegments: which segments are rewritten *)

Module NeighborFacts.
Import Manager RewriteNeighbors.

Abbreviation key_lt := (fun a b : Key * SegmentInfo => fst a < fst b).

Lemma index_split_spec (k : Key) (idx : list (Key * SegmentInfo)) :
  forall acc before suffix,
    index_split idx k acc = (before, suffix) ->
    Forall (fun e => fst e < k) acc ->
    rev before ++ suffix = rev acc ++ idx /\
    Forall (fun e => fst e < k) before /\
    suffix = index_lower_bound idx k /\
    match suffix with
    | [] => True
    | e :: _ => k <= fst e
    end.
Proof.
  induction idx as [|e idx IH]; intros acc before suffix H Hacc; simpl in H.
  - injection H as <- <-. now repeat split.
  - simpl. destruct (Z.ltb_spec (fst e) k) as [Hlt|Hge].
    + destruct (IH _ _ _ H) as (H1 & H2 & H3 & H4); [now constructor|].
      simpl in H1. rewrite <- app_assoc in H1. now repeat split.
    + injection H as <- <-. now repeat split.
Qed.

Lemma scan_spec (l : list (Key * SegmentInfo)) :
  exists rest,
    l = scan l ++ rest /\
    Forall (fun e => has_overflow (snd e) = true) (scan l) /\
    match rest with
    | [] => True
    | e :: _ => has_overflow (snd e) = false
    end.
Proof.
  induction l as [|e l (rest & H1 & H2 & H3)]; [now exists []|].
  simpl. destruct (has_overflow (snd e)) eqn:E.
  - exists rest. split; [simpl; now rewrite <- H1|]. split; [|exact H3].
    now constructor.
  - exists (e :: l). now repeat split.
Qed.

(** *** Sorting entries with distinct keys *)

Lemma insert_by_key_perm (e : Key * SegmentInfo) (l : list (Key * SegmentInfo)) :
  Permutation (insert_by_key e l) (e :: l).
Proof.
  induction l as [|x l IH]; simpl; [reflexivity|].
  destruct (fst e <? fst x); [reflexivity|].
  rewrite IH. apply perm_swap.
Qed.

Lemma insert_by_key_sorted (e : Key * SegmentInfo)
      (l : list (Key * SegmentInfo)) :
  StronglySorted (fun a b => fst a <= fst b) l ->
  StronglySorted (fun a b => fst a <= fst b) (insert_by_key e l).
Proof.
  intros H. induction H as [|x l Hl IH Hx]; simpl; [repeat constructor|].
  destruct (Z.ltb_spec (fst e) (fst x)) as [Hlt|Hge].
  - constructor; [now constructor|].
    constructor; [lia|]. eapply List.Forall_impl; [|exact Hx].
    simpl. intros; lia.
  - constructor; [exact IH|].
    rewrite (insert_by_key_perm e l). now constructor.
Qed.

Lemma sort_by_key_perm (l : list (Key * SegmentInfo)) :
  Permutation (sort_by_key l) l.
Proof.
  induction l as [|x l IH]; simpl; [reflexivity|].
  now rewrite insert_by_key_perm, IH.
Qed.

Lemma sort_by_key_sorted (l : list (Key * SegmentInfo)) :
  StronglySorted (fun a b => fst a <= fst b) (sort_by_key l).
Proof.
  induction l as [|x l IH]; simpl; [constructor|].
  now apply insert_by_key_sorted.
Qed.

(** Two key-ordered lists with the same entries are the same list when one of
    them has distinct keys. *)
Lemma sorted_perm_unique (l1 : list (Key * SegmentInfo)) :
  forall l2,
    StronglySorted key_lt l1 ->
    StronglySorted (fun a b => fst a <= fst b) l2 ->
    Permutation l1 l2 -> l1 = l2.
Proof.
  induction l1 as [|a l1 IH]; intros l2 H1 H2 Hp.
  - apply Permutation_nil in Hp. now subst.
  - destruct l2 as [|b l2];
      [apply Permutation_sym, Permutation_nil in Hp; discriminate|].
    apply StronglySorted_inv in H1 as [H1 Ha].
    apply StronglySorted_inv in H2 as [H2 Hb].
    assert (a = b).
    { assert (Hina : In a (b :: l2))
        by (eapply Permutation_in; [exact Hp | now left]).
      assert (Hinb : In b (a :: l1))
        by (eapply Permutation_in; [symmetry; exact Hp | now left]).
      destruct Hina as [->|Hina]; [reflexivity|].
      destruct Hinb as [->|Hinb]; [reflexivity|].
      rewrite List.Forall_forall in Ha, Hb.
      specialize (Ha _ Hinb). specialize (Hb _ Hina). simpl in *. lia. }
    subst b. f_equal. apply IH; [assumption..|].
    eapply Permutation_cons_inv, Hp.
Qed.

Lemma sorted_app_inv (l1 l2 : list (Key * SegmentInfo)) :
  StronglySorted key_lt (l1 ++ l2) ->
  StronglySorted key_lt l1 /\ StronglySorted key_lt l2 /\
  forall a b, In a l1 -> In b l2 -> fst a < fst b.
Proof.
  induction l1 as [|x l1 IH]; simpl; intros H.
  - split; [constructor|]. split; [exact H|]. intros a b [].
  - apply StronglySorted_inv in H as [H Hx].
    destruct (IH H) as (H1 & H2 & H3).
    rewrite List.Forall_forall in Hx.
    split; [|split; [exact H2|]].
    + constructor; [exact H1|]. apply List.Forall_forall.
      intros y Hy. apply Hx, in_or_app. now left.
    + intros a b [<-|Ha] Hb; [apply Hx, in_or_app; now right | now apply H3].
Qed.

Lemma sorted_app (l1 l2 : list (Key * SegmentInfo)) :
  StronglySorted key_lt l1 -> StronglySorted key_lt l2 ->
  (forall a b, In a l1 -> In b l2 -> fst a < fst b) ->
  StronglySorted key_lt (l1 ++ l2).
Proof.
  intros H1 H2 H3. induction H1 as [|x l1 Hl IH Hx]; simpl; [exact H2|].
  constructor.
  - apply IH. intros a b Ha Hb. apply H3; [now right | exact Hb].
  - apply Forall_app. split; [exact Hx|].
    apply List.Forall_forall. intros b Hb. apply H3; [now left | exact Hb].
Qed.

(** The shape of the selection of step 1 within the index. *)
Lemma segments_to_rewrite_shape (idx : list (Key * SegmentInfo))
        (segment_base : Key) :
  StronglySorted key_lt idx ->
  (exists e, In e idx /\ segment_base <= fst e) ->
  exists before_run left it right after_run,
    idx = before_run ++ left ++ it :: right ++ after_run /\
    index_lower_bound idx segment_base = it :: right ++ after_run /\
    segments_to_rewrite idx segment_base false
    = Done [(segment_base, snd it)] /\
    segments_to_rewrite idx segment_base true
    = Done (left ++ (segment_base, snd it) :: right) /\
    StronglySorted key_lt (left ++ (segment_base, snd it) :: right) /\
    Forall (fun e => has_overflow (snd e) = true) (left ++ right) /\
    (forall rest e, before_run = rest ++ [e] -> has_overflow (snd e) = false) /\
    (forall e rest, after_run = e :: rest -> has_overflow (snd e) = false) /\
    Forall (fun e => fst e < segment_base) (before_run ++ left) /\
    segment_base <= fst it.
Proof.
  intros Hsorted (e0 & Hin0 & Hge0).
  destruct (index_split idx segment_base []) as [before suffix] eqn:Esplit.
  destruct (index_split_spec _ _ _ _ _ Esplit) as (Hidx & Hbefore & Hlb & Hhead);
    [constructor|].
  simpl in Hidx.
  destruct suffix as [|it after].
  { exfalso. rewrite app_nil_r in Hidx. subst idx. apply in_rev in Hin0.
    rewrite List.Forall_forall in Hbefore. specialize (Hbefore _ Hin0). lia. }
  destruct (scan_spec before) as (rb & Hb1 & Hb2 & Hb3).
  destruct (scan_spec after) as (ra & Ha1 & Ha2 & Ha3).
  set (sb := scan before) in *. set (sa := scan after) in *.
  assert (Hidx' : idx = rev rb ++ rev sb ++ it :: sa ++ ra).
  { rewrite <- Hidx, Hb1, Ha1, rev_app_distr, <- app_assoc. reflexivity. }
  (* the block around the position is in key order *)
  rewrite Hidx' in Hsorted.
  apply sorted_app_inv in Hsorted as (_ & Hblock & _).
  rewrite app_comm_cons, app_assoc in Hblock.
  apply sorted_app_inv in Hblock as (Hblock & _ & _).
  apply sorted_app_inv in Hblock as (Hleft & Hright & Hcross).
  apply StronglySorted_inv in Hright as [Hright Hit].
  assert (Htarget : StronglySorted key_lt
                      (rev sb ++ (segment_base, snd it) :: sa)).
  { apply sorted_app; [exact Hleft | |].
    - constructor; [exact Hright|].
      eapply List.Forall_impl; [|exact Hit]. simpl. intros; lia.
    - intros a b Ha [<-|Hb].
      + simpl. apply in_rev in Ha.
        rewrite List.Forall_forall in Hbefore. apply Hbefore.
        rewrite Hb1. apply in_or_app. now left.
      + apply Hcross; [exact Ha | now right]. }
  exists (rev rb), (rev sb), it, sa, ra.
  split; [exact Hidx'|].
  split; [now rewrite <- Hlb, Ha1|].
  unfold segments_to_rewrite. rewrite Esplit.
  split; [reflexivity|].
  split; [|split; [exact Htarget|split; [|split; [|split; [|split]]]]].
  - f_equal. fold sb sa. symmetry. apply sorted_perm_unique.
    + exact Htarget.
    + apply sort_by_key_sorted.
    + rewrite sort_by_key_perm. simpl.
      rewrite <- Permutation_middle. constructor.
      apply Permutation_app_tail. symmetry. apply Permutation_rev.
  - apply Forall_app. split; [|exact Ha2].
    apply List.Forall_forall. intros x Hx. apply in_rev in Hx.
    rewrite List.Forall_forall in Hb2. now apply Hb2.
  - intros rest e E. destruct rb as [|x rb'].
    + destruct rest; discriminate E.
    + simpl in E. apply app_inj_tail in E as [_ <-]. exact Hb3.
  - intros e rest ->. exact Ha3.
  - rewrite <- rev_app_distr, <- Hb1. apply List.Forall_forall.
    intros x Hx. apply in_rev in Hx.
    rewrite List.Forall_forall in Hbefore. now apply Hbefore.
  - exact Hhead.
Qed.


(** X17.  On an index in key order that has an entry at or after
    [segment_base], step 1 of [RewriteSegments] selects the segment that
    [lower_bound] finds, entered under the key [segment_base], and, when
    neighbours are considered, the unbroken runs of segments with an overflow
    that lie right before it and right after it in the index: each run stops
    at the first segment without overflow or at the end of the index.  The
    selection is in key order. *)
Theorem rewrite_selects_overflow_runs (idx : list (Key * SegmentInfo))
        (segment_base : Key) :
  StronglySorted key_lt idx ->
  (exists e, In e idx /\ segment_base <= fst e) ->
  exists before_run left it right after_run,
    idx = before_run ++ left ++ it :: right ++ after_run /\
    index_lower_bound idx segment_base = it :: right ++ after_run /\
    segments_to_rewrite idx segment_base false
    = Done [(segment_base, snd it)] /\
    segments_to_rewrite idx segment_base true
    = Done (left ++ (segment_base, snd it) :: right) /\
    StronglySorted key_lt (left ++ (segment_base, snd it) :: right) /\
    Forall (fun e => has_overflow (snd e) = true) (left ++ right) /\
    (forall rest e, before_run = rest ++ [e] -> has_overflow (snd e) = false) /\
    (forall e rest, after_run = e :: rest -> has_overflow (snd e) = false).
Proof.
  intros Hsorted Hsome.
  destruct (segments_to_rewrite_shape idx segment_base Hsorted Hsome)
    as (before_run & left & it & right & after_run & H1 & H2 & H3 & H4 & H5
        & H6 & H7 & H8 & _).
  exists before_run, left, it, right, after_run. auto 10.
Qed.

Lemma rewrite_selects_overflow_runs_witness :
  let s := fun (o : Z) (ov : bool) => mkSegmentInfo (mkSegmentId 0 o) None ov in
  let idx := [(10, s 0 true); (20, s 1 false); (30, s 2 true); (40, s 3 true);
              (50, s 4 true); (60, s 5 false); (70, s 6 true)] in
  exists before_run left it right after_run,
    idx = before_run ++ left ++ it :: right ++ after_run /\
    index_lower_bound idx 35 = it :: right ++ after_run /\
    segments_to_rewrite idx 35 false = Done [(35, snd it)] /\
    segments_to_rewrite idx 35 true = Done (left ++ (35, snd it) :: right) /\
    StronglySorted key_lt (left ++ (35, snd it) :: right) /\
    Forall (fun e => has_overflow (snd e) = true) (left ++ right) /\
    (forall rest e, before_run = rest ++ [e] -> has_overflow (snd e) = false) /\
    (forall e rest, after_run = e :: rest -> has_overflow (snd e) = false).
Proof.
  intros s idx. apply (rewrite_selects_overflow_runs idx 35).
  - unfold idx. repeat constructor; simpl; lia.
  - exists (40, s 3 true). split; [simpl; tauto | simpl; lia].
Defined.

(** The selection of the example: the segment at 40 under the key 35, with
    its neighbours at 30 and 50; the segments at 20 and 60 end the runs. *)
Example scenario_rewrite_selection :
  let s := fun (o : Z) (ov : bool) => mkSegmentInfo (mkSegmentId 0 o) None ov in
  segments_to_rewrite
    [(10, s 0 true); (20, s 1 false); (30, s 2 true); (40, s 3 true);
     (50, s 4 true); (60, s 5 false); (70, s 6 true)] 35 true
  = Done [(30, s 2 true); (35, s 3 true); (50, s 4 true)].
Proof. reflexivity. Qed.

End NeighborFacts.

(** ** New pages: every record within the boundaries of its page *)

Module PageRoutingFacts.
Import Manager PageRanges.

Lemma ascending_app_inv (l1 l2 : list Rec) :
  ascending (l1 ++ l2) ->
  ascending l1 /\ ascending l2 /\
  forall a b, In a l1 -> In b l2 -> fst a < fst b.
Proof.
  unfold ascending. induction l1 as [|x l1 IH]; simpl; intros H.
  - split; [constructor|]. split; [exact H|]. intros a b [].
  - apply StronglySorted_inv in H as [H Hx].
    destruct (IH H) as (H1 & H2 & H3).
    rewrite List.Forall_forall in Hx.
    split; [|split; [exact H2|]].
    + constructor; [exact H1|]. apply List.Forall_forall.
      intros y Hy. apply Hx, in_or_app. now left.
    + intros a b [<-|Ha] Hb; [apply Hx, in_or_app; now right | now apply H3].
Qed.

(** Pages that tile a key range and hold, in order, records with strictly
    growing keys of that range keep every record within their boundaries, and
    their lower boundaries grow strictly. *)
Lemma tiles_within (hi : Key) (pages : list Page) :
  hi < two64 ->
  forall lo,
    0 <= lo ->
    tiles lo hi pages ->
    Forall (fun p => page_records p <> []) pages ->
    ascending (concat (map page_records pages)) ->
    Forall (fun r => lo <= fst r < hi) (concat (map page_records pages)) ->
    Forall (fun p => Forall (fun r => lower_boundary p <= fst r
                                      <= upper_boundary p) (page_records p))
           pages /\
    Forall (fun p => lo <= lower_boundary p) pages /\
    StronglySorted Z.lt (map lower_boundary pages).
Proof.
  intros Hhi. induction pages as [|p rest IH]; intros lo Hlo Ht Hne Hasc Hin.
  - repeat split; constructor.
  - destruct Ht as [Hlower Ht].
    apply Forall_cons_iff in Hne as [Hp Hne]. cbn [map concat] in Hasc, Hin.
    apply ascending_app_inv in Hasc as (Hap & Har & Hcross).
    apply Forall_app in Hin as [Hinp Hinr].
    destruct rest as [|q rest'].
    + split; [|split].
      * constructor; [|constructor].
        eapply List.Forall_impl; [|exact Hinp]. cbv beta. intros r Hr.
        rewrite Hlower, Ht, Z.mod_small by lia. lia.
      * constructor; [lia | constructor].
      * repeat constructor.
    + destruct Ht as [Hupper Ht].
      assert (Hq : exists y ys, page_records q = y :: ys).
      { apply Forall_cons_iff in Hne as [Hq _].
        destruct (page_records q) as [|y ys]; [contradiction | eauto]. }
      destruct Hq as (y & ys & Eq).
      rewrite Eq in Hupper, Ht. cbn [first_key] in Hupper, Ht.
      assert (Ecat : concat (map page_records (q :: rest')) =
                     y :: (ys ++ concat (map page_records rest'))).
      { cbn [map concat]. now rewrite Eq. }
      rewrite Ecat in Har, Hinr, Hcross.
      assert (Hyr : lo <= fst y < hi).
      { apply Forall_cons_iff in Hinr as [Hy _]. exact Hy. }
      pose proof Har as Har'. unfold ascending in Har'.
      apply StronglySorted_inv in Har' as [_ Hafter].
      destruct (IH (fst y)) as (Hw & Hlb & Hs).
      * lia.
      * exact Ht.
      * exact Hne.
      * rewrite Ecat. exact Har.
      * rewrite Ecat. constructor; [lia|].
        apply Forall_cons_iff in Hinr as [_ Hinr].
        apply List.Forall_forall. intros r Hr.
        rewrite List.Forall_forall in Hinr, Hafter.
        specialize (Hinr r Hr). specialize (Hafter r Hr). simpl in Hafter. lia.
      * assert (Hbelow : Forall (fun r => lo <= fst r < fst y) (page_records p)).
        { apply List.Forall_forall. intros r Hr.
          rewrite List.Forall_forall in Hinp. specialize (Hinp r Hr).
          specialize (Hcross r y Hr ltac:(now left)). lia. }
        split; [|split].
        -- constructor; [|exact Hw].
           eapply List.Forall_impl; [|exact Hbelow]. cbv beta. intros r Hr.
           rewrite Hlower, Hupper, Z.mod_small by lia. lia.
        -- constructor; [lia|].
           eapply List.Forall_impl; [|exact Hlb]. cbv beta. intros; lia.
        -- change (map lower_boundary (p :: q :: rest'))
             with (lower_boundary p :: map lower_boundary (q :: rest')).
           constructor; [exact Hs|].
           assert (Hlt : lo < fst y).
           { destruct (page_records p) as [|x xs]; [contradiction|].
             apply Forall_cons_iff in Hbelow as [Hx _]. lia. }
           rewrite Forall_map.
           eapply List.Forall_impl; [|exact Hlb]. cbv beta. intros; lia.
Qed.

(** The pages of [LoadIntoNewPages] for records with strictly growing keys
    between the two bounds: sizes and stamps of the pages, the records within
    the boundaries of their pages, the index entries in key order. *)
Lemma LoadIntoNewPages_routing
      (fuel : nat) (m : t) (sequence_number : Z) (lb ub : Key)
      (recs : list Rec) :
  0 < records_per_page_goal m ->
  Z.of_nat (length recs) + records_per_page_goal m < two64 ->
  (length recs < fuel)%nat ->
  ascending recs ->
  0 <= lb -> ub < two64 ->
  Forall (fun r => lb <= fst r < ub) recs ->
  exists m' full partial,
    LoadIntoNewPages fuel m sequence_number lb ub recs
    = Some (map boundary_of (full ++ partial), m') /\
    written_ m' = written_ m ++ full ++ partial /\
    Forall (fun w => full_page (records_per_page_goal m) sequence_number (snd w))
           full /\
    (partial = [] \/
     exists w, partial = [w] /\
               partial_page (records_per_page_goal m) (snd w)) /\
    concat (map (fun w => page_records (snd w)) (full ++ partial)) = recs /\
    tiles lb ub (map snd (full ++ partial)) /\
    Forall (fun w => Forall (fun r => lower_boundary (snd w) <= fst r
                                      <= upper_boundary (snd w))
                            (page_records (snd w))) (full ++ partial) /\
    StronglySorted Z.lt (map fst (map boundary_of (full ++ partial))) /\
    index_ m' = index_ m.
Proof.
  intros Hg Hn Hfuel Hasc Hlb Hub Hin.
  destruct (PageRangeFacts.LoadIntoNewPages_ranges
              fuel m sequence_number lb ub recs Hg Hn Hfuel)
    as (m' & W & Hrun & Hw & Htiles & _ & Hidx & _).
  destruct (LoadFacts.LoadIntoNewPages_spec
              fuel m sequence_number lb ub recs Hg Hn Hfuel)
    as (bounds & m'' & full & partial & Hrun' & Hw' & Hfull & Hpartial & Hcat
        & _).
  rewrite Hrun in Hrun'. injection Hrun' as _ <-.
  rewrite Hw in Hw'. apply app_inv_head in Hw'. subst W.
  assert (Hne : Forall (fun p => page_records p <> [])
                       (map snd (full ++ partial))).
  { rewrite Forall_map. apply Forall_app. split.
    - eapply List.Forall_impl; [|exact Hfull]. cbv beta.
      intros w (Hlen & _) E. rewrite E in Hlen. simpl in Hlen. lia.
    - destruct Hpartial as [->|(w & -> & (Hlen & _))]; constructor;
        [|constructor].
      intros E. rewrite E in Hlen. simpl in Hlen. lia. }
  assert (Hcat' : concat (map page_records (map snd (full ++ partial))) = recs)
    by (now rewrite map_map).
  destruct (tiles_within ub (map snd (full ++ partial)) Hub lb Hlb Htiles Hne)
    as (Hwithin & _ & Hsorted).
  { now rewrite Hcat'. }
  { now rewrite Hcat'. }
  exists m', full, partial.
  split; [exact Hrun|]. split; [exact Hw|]. split; [exact Hfull|].
  split; [exact Hpartial|]. split; [exact Hcat|]. split; [exact Htiles|].
  split; [|split; [|exact Hidx]].
  - rewrite Forall_map in Hwithin. exact Hwithin.
  - rewrite !map_map in *. exact Hsorted.
Qed.



End PageRoutingFacts.

(** ** Bulk load into single pages: the index routes every record *)

Module BulkLoadFacts.
Import Manager PageRanges BulkLoad.

Lemma fresh_ids_S (a : Z) (k : nat) :
  fresh_ids a (S k) = mkSegmentId 0 a :: fresh_ids (a + 1) k.
Proof.
  unfold fresh_ids. cbn [seq map]. rewrite Z.add_0_r. f_equal.
  rewrite <- seq_shift, map_map. apply map_ext. intros i.
  f_equal. lia.
Qed.

Lemma fresh_ids_In (a : Z) (k : nat) (x : SegmentId) :
  In x (fresh_ids a k) -> a <= page_offset x.
Proof.
  unfold fresh_ids. intros H. apply in_map_iff in H as (i & <- & _).
  simpl. lia.
Qed.

Lemma fresh_ids_NoDup (k : nat) : forall a, List.NoDup (fresh_ids a k).
Proof.
  induction k as [|k IH]; intros a; [constructor|].
  rewrite fresh_ids_S. constructor; [|apply IH].
  intros H. apply fresh_ids_In in H. simpl in H. lia.
Qed.

Lemma write_new_page_fresh (m : t) (page : Page) :
  free_ m = [] ->
  write_new_page m page =
  (mkSegmentId 0 (allocated_pages_ m),
   {| index_ := index_ m; free_ := [];
      next_sequence_number_ := next_sequence_number_ m;
      written_ := written_ m ++ [(mkSegmentId 0 (allocated_pages_ m), page)];
      allocated_pages_ := allocated_pages_ m + 1;
      write_count_ := write_count_ m + 1;
      records_per_page_goal := records_per_page_goal m |}).
Proof. intros H. unfold write_new_page. rewrite H. reflexivity. Qed.

(** With an empty free list the loop writes its pages to fresh ids, one after
    the other. *)
Lemma LoadIntoNewPages_loop_fresh (sequence_number : Z) (lb ub : Key)
      (recs : list Rec) (fuel : nat) :
  forall m s e bounds m' s' bounds',
    free_ m = [] ->
    LoadIntoNewPages_loop fuel m sequence_number lb ub recs s e bounds
    = Some (m', s', bounds') ->
    free_ m' = [] /\
    exists W,
      written_ m' = written_ m ++ W /\
      map fst W = fresh_ids (allocated_pages_ m) (length W) /\
      allocated_pages_ m' = allocated_pages_ m + Z.of_nat (length W).
Proof.
  induction fuel as [|fuel IH]; intros m s e bounds m' s' bounds' Hfree H;
    cbn [LoadIntoNewPages_loop] in H;
    destruct (e <=? Z.of_nat (length recs)); try discriminate H.
  - injection H as <- _ _. split; [exact Hfree|]. exists [].
    rewrite app_nil_r. repeat split. simpl. lia.
  - cbn [LoadIntoPage] in H. rewrite write_new_page_fresh in H by exact Hfree.
    apply IH in H as (Hf & W & Hw & Hids & Ha); [|reflexivity].
    cbn [written_ allocated_pages_] in Hw, Hids, Ha.
    split; [exact Hf|]. eexists (_ :: W).
    split; [rewrite Hw, <- app_assoc; reflexivity|].
    split; [cbn [map length fst]; now rewrite fresh_ids_S, Hids|].
    cbn [length]. lia.
  - injection H as <- _ _. split; [exact Hfree|]. exists [].
    rewrite app_nil_r. repeat split. simpl. lia.
Qed.

Lemma LoadIntoNewPages_fresh (fuel : nat) (m : t) (sequence_number : Z)
      (lb ub : Key) (recs : list Rec) (bounds : list (Key * SegmentInfo))
      (m' : t) :
  free_ m = [] ->
  LoadIntoNewPages fuel m sequence_number lb ub recs = Some (bounds, m') ->
  exists W,
    written_ m' = written_ m ++ W /\
    map fst W = fresh_ids (allocated_pages_ m) (length W).
Proof.
  intros Hfree H. unfold LoadIntoNewPages in H.
  destruct (LoadIntoNewPages_loop _ _ _ _ _ _ _ _ _) as [[[m1 s1] b1]|] eqn:E;
    [|discriminate H].
  apply LoadIntoNewPages_loop_fresh in E as (Hf & W & Hw & Hids & Ha);
    [|exact Hfree].
  destruct (s1 <? Z.of_nat (length recs)).
  - cbn [LoadIntoPage] in H. rewrite write_new_page_fresh in H by exact Hf.
    injection H as _ <-. cbn [written_].
    exists (W ++ [(mkSegmentId 0 (allocated_pages_ m1),
                   ClearAllOverflows
                     (SetSequenceNumber
                        {| lower_boundary :=
                             if s1 =? 0 then lb
                             else first_key (at_index recs s1);
                           upper_boundary := (ub - 1) mod two64;
                           page_records :=
                             range recs s1 (Z.of_nat (length recs));
                           page_sequence_number :=
                             page_sequence_number zero_page;
                           page_overflow := page_overflow zero_page |} 0))]).
    split; [rewrite Hw, <- app_assoc; reflexivity|].
    rewrite map_app, length_app, Hids. cbn [map length fst].
    unfold fresh_ids. rewrite Nat.add_1_r, seq_S, map_app. cbn [map].
    rewrite Ha. reflexivity.
  - injection H as _ <-. exists W. now split.
Qed.

Lemma SegmentId_eqb_eq (a b : SegmentId) : SegmentId_eqb a b = true -> a = b.
Proof.
  destruct a, b. unfold SegmentId_eqb. simpl. intros H.
  apply andb_true_iff in H as [H1 H2].
  apply Z.eqb_eq in H1, H2. now subst.
Qed.

(** Pages written under distinct ids read back as they were written. *)
Lemma ReadPage_NoDup (W : list (SegmentId * Page)) :
  List.NoDup (map fst W) ->
  forall x p, In (x, p) W -> ReadPage W x = p.
Proof.
  induction W as [|[y q] W IH] using rev_ind; intros Hnd x p Hin;
    [contradiction|].
  rewrite map_app in Hnd. cbn [map fst] in Hnd.
  apply NoDup_remove in Hnd as [Hnd Hy]. rewrite app_nil_r in Hnd, Hy.
  unfold ReadPage. rewrite rev_app_distr. cbn [rev app find fst].
  apply in_app_or in Hin as [Hin|[Hin|[]]].
  - destruct (SegmentId_eqb y x) eqn:E.
    + apply SegmentId_eqb_eq in E. subst y. exfalso. apply Hy.
      apply in_map_iff. exists (x, p). now split.
    + now apply IH.
  - injection Hin as -> ->. now rewrite FlattenFacts.SegmentId_eqb_refl.
Qed.



(** Nothing can be loaded from no records: [records.front()] has no record to
    return. *)
Example scenario_bulk_load_of_nothing :
  BulkLoadIntoPages 6 [] 2 = None.
Proof. reflexivity. Qed.

End BulkLoadFacts.

(** ** RewriteSegments: taking the old segments out of the index *)

Module RewriteEraseFacts.
Import Manager RewriteNeighbors.

Abbreviation key_lt := (fun a b : Key * SegmentInfo => fst a < fst b).

Lemma filter_none {A : Type} (f : A -> bool) (l : list A) :
  Forall (fun x => f x = false) l -> List.filter f l = [].
Proof.
  induction 1 as [|x l Hx _ IH]; [reflexivity|]. simpl. now rewrite Hx.
Qed.

Lemma filter_all {A : Type} (f : A -> bool) (l : list A) :
  Forall (fun x => f x = true) l -> List.filter f l = l.
Proof.
  induction 1 as [|x l Hx _ IH]; [reflexivity|]. simpl. now rewrite Hx, IH.
Qed.

(** In an index in key order a key is erased with its one entry. *)
Lemma erase_one (pre suf : list (Key * SegmentInfo)) (e : Key * SegmentInfo) :
  StronglySorted key_lt (pre ++ e :: suf) ->
  List.filter (fun x => fst x =? fst e) (pre ++ e :: suf) = [e] /\
  index_erase (pre ++ e :: suf) (fst e) = pre ++ suf /\
  StronglySorted key_lt (pre ++ suf).
Proof.
  intros H. apply NeighborFacts.sorted_app_inv in H as (Hpre & Hsuf & Hcross).
  apply StronglySorted_inv in Hsuf as [Hsuf He].
  assert (Hbefore : Forall (fun x => fst x < fst e) pre).
  { apply List.Forall_forall. intros x Hx. apply Hcross; [exact Hx | now left]. }
  unfold index_erase. rewrite !List.filter_app. cbn [List.filter].
  rewrite Z.eqb_refl. cbn [negb].
  rewrite (filter_none (fun x => fst x =? fst e) pre),
          (filter_none (fun x => fst x =? fst e) suf),
          (filter_all (fun x => negb (fst x =? fst e)) pre),
          (filter_all (fun x => negb (fst x =? fst e)) suf).
  - split; [reflexivity|]. split; [reflexivity|].
    apply NeighborFacts.sorted_app; [exact Hpre | exact Hsuf |].
    intros a b Ha Hb. apply Hcross; [exact Ha | now right].
  - eapply List.Forall_impl; [|exact He]. cbv beta. intros x Hx.
    destruct (Z.eqb_spec (fst x) (fst e)); [lia | reflexivity].
  - eapply List.Forall_impl; [|exact Hbefore]. cbv beta. intros x Hx.
    destruct (Z.eqb_spec (fst x) (fst e)); [lia | reflexivity].
  - eapply List.Forall_impl; [|exact He]. cbv beta. intros x Hx.
    destruct (Z.eqb_spec (fst x) (fst e)); [lia | reflexivity].
  - eapply List.Forall_impl; [|exact Hbefore]. cbv beta. intros x Hx.
    destruct (Z.eqb_spec (fst x) (fst e)); [lia | reflexivity].
Qed.

(** Erasing a run of entries of an index in key order leaves the entries
    around it. *)
Lemma erase_block (blk : list (Key * SegmentInfo)) :
  forall pre post,
    StronglySorted key_lt (pre ++ blk ++ post) ->
    erase_rewritten (pre ++ blk ++ post) blk = Done (pre ++ post).
Proof.
  induction blk as [|e blk IH]; intros pre post H; [reflexivity|].
  cbn [erase_rewritten]. change ((e :: blk) ++ post) with (e :: blk ++ post).
  change ((e :: blk) ++ post) with (e :: blk ++ post) in H.
  destruct (erase_one pre (blk ++ post) e H) as (Hcount & Herase & Hsorted).
  rewrite Hcount, Herase. cbn [length Z.of_nat Z.eqb Pos.eqb].
  rewrite assert_true_bind. now apply IH.
Qed.

Lemma erase_rewritten_app (l1 l2 : list (Key * SegmentInfo)) :
  forall idx,
    erase_rewritten idx (l1 ++ l2) =
    (idx1 ← erase_rewritten idx l1; erase_rewritten idx1 l2).
Proof.
  induction l1 as [|e l1 IH]; intros idx; [reflexivity|].
  cbn [app erase_rewritten].
  destruct (Z.of_nat (length (List.filter (fun x => fst x =? fst e) idx)) =? 1);
    [|reflexivity].
  rewrite !assert_true_bind. apply IH.
Qed.

(** X21.  Step 4 of [RewriteSegments] erases the selected segments from the
    index by key.  When [segment_base] is the key of an index entry, the
    selection is a run of the index and the loop leaves exactly the entries
    around that run.  When it is not, the segment that [lower_bound] found was
    entered under a key the index does not have, and the loop stops at its
    assertion that an entry was erased. *)
Theorem rewrite_erases_selected_segments (idx : list (Key * SegmentInfo))
        (segment_base : Key) (consider_neighbors : bool) :
  StronglySorted key_lt idx ->
  (exists e, In e idx /\ segment_base <= fst e) ->
  exists selected,
    segments_to_rewrite idx segment_base consider_neighbors = Done selected /\
    ((exists info, In (segment_base, info) idx) ->
     exists before after,
       idx = before ++ selected ++ after /\
       erase_rewritten idx selected = Done (before ++ after)) /\
    ((forall e, In e idx -> fst e <> segment_base) ->
     erase_rewritten idx selected = Fault).
Proof.
  intros Hsorted Hsome.
  destruct (NeighborFacts.segments_to_rewrite_shape idx segment_base Hsorted
                                                    Hsome)
    as (pre & left & it & right & post & Hidx & _ & Hone & Hall & _ & _ & _ & _
        & Hbefore & Hge).
  (* the entry found carries the key exactly when the index has the key *)
  assert (Hexact : (exists info, In (segment_base, info) idx) ->
                   fst it = segment_base).
  { intros (info & Hin). rewrite Hidx, app_assoc in Hin.
    apply in_app_or in Hin as [Hin|Hin].
    - rewrite List.Forall_forall in Hbefore. specialize (Hbefore _ Hin).
      simpl in Hbefore. lia.
    - destruct Hin as [->|Hin]; [reflexivity|].
      rewrite Hidx, app_assoc in Hsorted.
      apply NeighborFacts.sorted_app_inv in Hsorted as (_ & Hs & _).
      apply StronglySorted_inv in Hs as [_ Hs].
      rewrite List.Forall_forall in Hs. specialize (Hs _ Hin).
      simpl in Hs. lia. }
  assert (Hmissing : (forall e, In e idx -> fst e <> segment_base) ->
                     forall l,
                       incl l idx ->
                       erase_rewritten l [(segment_base, snd it)] = Fault).
  { intros Hno l Hl. cbn [erase_rewritten fst].
    rewrite filter_none; [reflexivity|].
    apply List.Forall_forall. intros x Hx.
    destruct (Z.eqb_spec (fst x) segment_base) as [E|]; [|reflexivity].
    exfalso. apply (Hno x); [now apply Hl | exact E]. }
  destruct consider_neighbors.
  - exists (left ++ (segment_base, snd it) :: right).
    split; [exact Hall|]. split.
    + intros Hkey. specialize (Hexact Hkey).
      assert (Eit : (segment_base, snd it) = it)
        by (destruct it; simpl in *; now subst).
      rewrite Eit. exists pre, post.
      assert (E : idx = pre ++ (left ++ it :: right) ++ post).
      { rewrite Hidx, <- !app_assoc. reflexivity. }
      split; [exact E|]. rewrite E at 1. apply erase_block.
      now rewrite <- E.
    + intros Hno.
      rewrite erase_rewritten_app.
      assert (E : idx = pre ++ left ++ (it :: right ++ post)) by exact Hidx.
      rewrite E at 1. rewrite erase_block by (now rewrite <- E).
      rewrite bind_Done.
      change ((segment_base, snd it) :: right)
        with ([(segment_base, snd it)] ++ right).
      rewrite erase_rewritten_app, (Hmissing Hno); [reflexivity|].
      intros x Hx. rewrite Hidx. apply in_app_or in Hx as [Hx|Hx].
      * apply in_or_app. now left.
      * apply in_or_app. right. apply in_or_app. now right.
  - exists [(segment_base, snd it)]. split; [exact Hone|]. split.
    + intros Hkey. specialize (Hexact Hkey).
      assert (Eit : (segment_base, snd it) = it)
        by (destruct it; simpl in *; now subst).
      rewrite Eit. exists (pre ++ left), (right ++ post).
      assert (E : idx = (pre ++ left) ++ [it] ++ right ++ post).
      { rewrite Hidx, <- !app_assoc. reflexivity. }
      split; [exact E|]. rewrite E at 1. apply erase_block.
      now rewrite <- E.
    + intros Hno. apply (Hmissing Hno). apply incl_refl.
Qed.

Lemma rewrite_erases_selected_segments_witness :
  let s := fun (o : Z) (ov : bool) => mkSegmentInfo (mkSegmentId 0 o) None ov in
  let idx := [(10, s 0 true); (20, s 1 false); (30, s 2 true); (40, s 3 true);
              (50, s 4 true); (60, s 5 false); (70, s 6 true)] in
  (exists selected,
      segments_to_rewrite idx 40 true = Done selected /\
      exists before after,
        idx = before ++ selected ++ after /\
        erase_rewritten idx selected = Done (before ++ after)) /\
  (exists selected,
      segments_to_rewrite idx 35 true = Done selected /\
      erase_rewritten idx selected = Fault).
Proof.
  intros s idx.
  assert (Hsorted : StronglySorted key_lt idx)
    by (unfold idx; repeat constructor; simpl; lia).
  split.
  - destruct (rewrite_erases_selected_segments idx 40 true Hsorted)
      as (selected & Hrun & Hkey & _).
    + exists (40, s 3 true). split; [simpl; tauto | simpl; lia].
    + exists selected. split; [exact Hrun|]. apply Hkey.
      exists (s 3 true). simpl. tauto.
  - destruct (rewrite_erases_selected_segments idx 35 true Hsorted)
      as (selected & Hrun & _ & Hno).
    + exists (40, s 3 true). split; [simpl; tauto | simpl; lia].
    + exists selected. split; [exact Hrun|]. apply Hno.
      intros e He. simpl in He.
      repeat (destruct He as [<-|He]; [simpl; lia|]). contradiction.
Defined.

End RewriteEraseFacts.

(** ** RewriteSegments: releasing processed page chains *)

Module WindowFacts.
Import Manager Rewrite.

Lemma free_all_spec (chains : list PageChain) :
  forall freed, free_all chains freed = ([], freed + pages_of chains).
Proof.
  induction chains as [|pc chains IH]; intros freed; simpl.
  - now rewrite Z.add_0_r.
  - rewrite IH. f_equal. lia.
Qed.

Lemma free_before_spec (next_key : Key) (chains : list PageChain) :
  Forall (fun pc =>
            nondecreasing (page_records (main_page_ pc)) /\
            forall overflow, overflow_page_ pc = Some overflow ->
                             nondecreasing (page_records overflow)) chains ->
  forall freed,
    exists dropped kept,
      free_before next_key chains freed = (kept, freed + pages_of dropped) /\
      chains = dropped ++ kept /\
      Forall (fun pc => Forall (fun r => fst r < next_key) (GetIterator pc))
             dropped /\
      (forall pc rest, kept = pc :: rest ->
                       exists r, In r (GetIterator pc) /\ next_key <= fst r).
Proof.
  induction 1 as [|pc chains [Hmain Hover] _ IH]; intros freed.
  - exists [], []. simpl. rewrite Z.add_0_r. repeat split; try constructor.
    intros pc rest E. discriminate E.
  - cbn [free_before].
    pose proof (RewriteFacts.LargestKey_spec pc Hmain Hover) as Hl.
    destruct (LargestKey pc) as [k|].
    + destruct Hl as [(r & Hr & Hk) Hall].
      destruct (Z.geb_spec k next_key) as [Hge|Hlt].
      * exists [], (pc :: chains). simpl. rewrite Z.add_0_r.
        repeat split; try constructor.
        intros pc' rest E. injection E as <- _. exists r. split; [exact Hr | lia].
      * destruct (IH (freed + NumPages pc)) as (dropped & kept & Hrun & Hsplit
                                                & Hdrop & Hkept).
        exists (pc :: dropped), kept. rewrite Hrun. cbn [pages_of fold_right].
        split; [f_equal; unfold pages_of; lia|].
        split; [simpl; now rewrite Hsplit|]. split; [|exact Hkept].
        constructor; [|exact Hdrop].
        eapply List.Forall_impl; [|exact Hall]. cbv beta. intros; lia.
    + destruct (IH (freed + NumPages pc)) as (dropped & kept & Hrun & Hsplit
                                              & Hdrop & Hkept).
      exists (pc :: dropped), kept. rewrite Hrun. cbn [pages_of fold_right].
      split; [f_equal; unfold pages_of; lia|].
      split; [simpl; now rewrite Hsplit|]. split; [|exact Hkept].
      constructor; [|exact Hdrop]. rewrite Hl. constructor.
Qed.

(** X22.  After segments were written, [RewriteSegments] releases processed
    page chains from the front of its window.  For chains whose pages hold
    their records in key order it releases one buffer page for every page of
    a released chain; with a builder that holds records from [next_key] on, no
    released chain holds a record with a key at or above [next_key], and the
    first chain it keeps does hold one; with an empty builder it releases
    every chain. *)
Theorem window_keeps_unwritten_records (maybe_key : option Key)
        (chains : list PageChain) :
  Forall (fun pc =>
            nondecreasing (page_records (main_page_ pc)) /\
            forall overflow, overflow_page_ pc = Some overflow ->
                             nondecreasing (page_records overflow)) chains ->
  exists dropped kept,
    free_processed maybe_key chains = (kept, pages_of dropped) /\
    chains = dropped ++ kept /\
    (maybe_key = None -> kept = []) /\
    forall next_key,
      maybe_key = Some next_key ->
      Forall (fun pc => Forall (fun r => fst r < next_key) (GetIterator pc))
             dropped /\
      (forall pc rest, kept = pc :: rest ->
                       exists r, In r (GetIterator pc) /\ next_key <= fst r).
Proof.
  intros Hsorted. destruct maybe_key as [next_key|]; cbn [free_processed].
  - destruct (free_before_spec next_key chains Hsorted 0)
      as (dropped & kept & Hrun & Hsplit & Hdrop & Hkept).
    exists dropped, kept. rewrite Hrun, Z.add_0_l.
    split; [reflexivity|]. split; [exact Hsplit|].
    split; [discriminate|].
    intros k E. injection E as <-. now split.
  - exists chains, []. rewrite free_all_spec, Z.add_0_l, app_nil_r.
    split; [reflexivity|]. split; [reflexivity|]. split; [reflexivity|].
    intros k E. discriminate E.
Qed.

Lemma window_keeps_unwritten_records_witness :
  let p := fun recs => mkPage 0 99 recs 0 None in
  let chains := [SingleOnly (p [(10, "a"); (20, "b")]);
                 WithOverflow (p [(30, "c")]) (p [(25, "d"); (35, "e")]);
                 SingleOnly (p [(40, "f"); (60, "g")]);
                 SingleOnly (p [(70, "h")])] in
  exists dropped kept,
    free_processed (Some 50) chains = (kept, pages_of dropped) /\
    chains = dropped ++ kept /\
    (Some 50 = None -> kept = []) /\
    forall next_key,
      Some 50 = Some next_key ->
      Forall (fun pc => Forall (fun r => fst r < next_key) (GetIterator pc))
             dropped /\
      (forall pc rest, kept = pc :: rest ->
                       exists r, In r (GetIterator pc) /\ next_key <= fst r).
Proof.
  intros p chains. apply (window_keeps_unwritten_records (Some 50) chains).
  unfold chains, nondecreasing.
  repeat (constructor; [split; [repeat constructor; simpl; lia|]|]).
  - intros overflow E. discriminate E.
  - intros overflow E. injection E as <-. repeat constructor; simpl; lia.
  - intros overflow E. discriminate E.
  - intros overflow E. discriminate E.
  - constructor.
Defined.

(** The window of the example: the chains up to key 35 go, three pages in
    all; the chain that holds the key 60 stays, with the chain after it. *)
Example scenario_window_release :
  let p := fun recs => mkPage 0 99 recs 0 None in
  free_processed (Some 50)
    [SingleOnly (p [(10, "a"); (20, "b")]);
     WithOverflow (p [(30, "c")]) (p [(25, "d"); (35, "e")]);
     SingleOnly (p [(40, "f"); (60, "g")]);
     SingleOnly (p [(70, "h")])]
  = ([SingleOnly (p [(40, "f"); (60, "g")]); SingleOnly (p [(70, "h")])], 3).
Proof. reflexivity. Qed.

End WindowFacts.
